(** * TextMaze: the maze generator of [textMaze.py]

    A shallow embedding of class [MazeGenerator] (grid, randomized
    Prim-style carving, breadth-first validation, safe obstacle
    injection, deterministic fallback) and the properties of its
    specification.

    Conventions of the embedding:
    - Python integers are [Z]; list indexing follows Python (a negative
      index counts from the end, anything else out of range raises
      [IndexError]);
    - the grid is a list of rows, each row a list of cell markers;
    - [visited] in the breadth-first search is a Python [set], modelled
      with [gset]; [_path], [frontier] and [queue] are Python lists;
    - the random source is an explicit list of draws threaded through
      the code; a draw for [n] alternatives is reduced modulo [n], so
      every behaviour of [random.randint] and [random.shuffle] is the
      image of some list;
    - exceptions are the [Raise] results of a small error monad; the two
      [while] loops carry a fuel argument, and running out of fuel is the
      separate result [Raise OutOfFuel], which is proved not to occur;
    - a Python float is kept as the rational it denotes; an arithmetic
      operation on floats rounds its exact result to the nearest binary64
      value, ties to even ([to_float]), subnormal results included.  The
      exponent is not bounded above: a result beyond the largest float,
      on which [int()] raises [OverflowError], is not represented. *)

From Stdlib Require Import ZArith QArith Qround Qpower Lqa Lia String Ascii.
From Stdlib Require Import SpecFloat.
From stdpp Require Import base option list gmap sets relations strings sorting.

Local Open Scope Z_scope.

(** ** Cell markers and the grid *)

Inductive Cell : Set :=
| Wall         (* '墙' *)
| Open         (* '　' *)
| PlayerStart  (* '我' *)
| ExitDoor.    (* '门' *)

#[global] Instance Cell_eq_dec : EqDecision Cell.
Proof. solve_decision. Defined.

Abbreviation coord := (Z * Z)%type (only parsing).
Abbreviation Grid := (list (list Cell)) (only parsing).

(** ** Exceptions *)

Inductive exn : Set := IndexError | ValueError | OutOfFuel.

Inductive result (A : Type) : Type :=
| Ok (a : A)
| Raise (e : exn).
Arguments Ok {A} a.
Arguments Raise {A} e.

#[global] Instance result_ret : MRet result := fun A a => Ok a.
#[global] Instance result_bind : MBind result := fun A B f m =>
  match m with
  | Ok a => f a
  | Raise e => Raise e
  end.

(** ** Python lists *)

(** The position a Python index denotes in a list of length [n]. *)
Definition py_idx (n : nat) (i : Z) : result nat :=
  if bool_decide (0 <= i < Z.of_nat n) then Ok (Z.to_nat i)
  else if bool_decide (- Z.of_nat n <= i < 0) then Ok (Z.to_nat (Z.of_nat n + i))
  else Raise IndexError.

(** [l[i]] *)
Definition py_get {A} (l : list A) (i : Z) : result A :=
  k ← py_idx (length l) i;
  match l !! k with
  | Some a => Ok a
  | None => Raise IndexError
  end.

(** [l[i] = a] *)
Definition py_set {A} (l : list A) (i : Z) (a : A) : result (list A) :=
  k ← py_idx (length l) i;
  Ok (<[k := a]> l).

(** [l.pop(i)] *)
Definition py_pop {A} (l : list A) (i : Z) : result (A * list A) :=
  k ← py_idx (length l) i;
  match l !! k with
  | Some a => Ok (a, take k l ++ drop (S k) l)
  | None => Raise IndexError
  end.

(** [range(a, b)] *)
Definition py_range (a b : Z) : list Z := seqZ a (b - a).

(** [maze[x][y]] *)
Definition grid_get (g : Grid) (x y : Z) : result Cell :=
  row ← py_get g x;
  py_get row y.

(** [maze[x][y] = c]: the rows are distinct lists, built one by one by the
    comprehension, so the assignment changes one row only. *)
Definition grid_set (g : Grid) (x y : Z) (c : Cell) : result Grid :=
  row ← py_get g x;
  row' ← py_set row y c;
  py_set g x row'.

(** [[['墙' for _ in range(width)] for _ in range(height)]] *)
Definition all_walls (width height : Z) : Grid :=
  replicate (Z.to_nat height) (replicate (Z.to_nat width) Wall).

(** ** Python floats

    A float is the rational it denotes.  Every operation computes the
    exact rational result and rounds it to binary64: 53 significant bits,
    least exponent -1074, round to nearest, ties to even. *)

(** The nearest integer, ties to even. *)
Definition rne (x : Q) : Z :=
  let f := Qfloor x in
  match Qcompare (x - inject_Z f) (1 # 2) with
  | Lt => f
  | Gt => f + 1
  | Eq => if Z.even f then f else f + 1
  end.

(** For [0 < x], the exponent [l] with [2^l <= x < 2^(l+1)]. *)
Definition floor_log2 (x : Q) : Z :=
  let l := Z.log2 (Qnum x) - Z.log2 (Zpos (Qden x)) in
  if Qle_bool (2 ^ l) x then l else l - 1.

(** The exponent of the last of the 53 bits of [x], at least -1074. *)
Definition ulp_exp (x : Q) : Z := Z.max (floor_log2 x - 52) (-1074).

Definition round_pos (x : Q) : Q :=
  let e := ulp_exp x in (inject_Z (rne (x / 2 ^ e)) * 2 ^ e)%Q.

(** The float nearest to [x]. *)
Definition to_float (x : Q) : Q :=
  match Qcompare x 0 with
  | Eq => 0%Q
  | Gt => round_pos x
  | Lt => (- round_pos (- x))%Q
  end.

(** A decimal literal such as [0.3]. *)
Definition float_lit (q : Q) : Q := to_float q.

(** [float(n)], the conversion an integer operand of a float operation
    undergoes. *)
Definition float_of_int (n : Z) : Q := to_float (inject_Z n).

(** [a + b], [a - b] and [a * b] on floats. *)
Definition float_add (a b : Q) : Q := to_float (a + b).
Definition float_sub (a b : Q) : Q := to_float (a - b).
Definition float_mul (a b : Q) : Q := to_float (a * b).

(** [int(q)] of a float: truncation towards zero. *)
Definition py_int (q : Q) : Z := Z.quot (Qnum q) (Z.pos (Qden q)).

(** The rational a finite float of the Standard Library's specification
    of IEEE 754 arithmetic ([SpecFloat]) denotes, and the comparison of
    its binary64 operations with the ones above on a pair of floats
    given by mantissa and exponent. *)
Definition SF2Q (f : spec_float) : option Q :=
  match f with
  | S754_zero _ => Some 0%Q
  | S754_finite s m e =>
      Some ((if s then -1 else 1) * (inject_Z (Z.pos m) * 2 ^ e))%Q
  | _ => None
  end.

Definition same_float (f : spec_float) (q : Q) : bool :=
  match SF2Q f with
  | Some x => Qeq_bool x q
  | None => false
  end.

Definition float_ops_agree (a b : positive * Z) : bool :=
  let '(ma, ea) := a in
  let '(mb, eb) := b in
  let x := (inject_Z (Z.pos ma) * 2 ^ ea)%Q in
  let y := (inject_Z (Z.pos mb) * 2 ^ eb)%Q in
  same_float (SFmul 53 1024 (S754_finite false ma ea) (S754_finite false mb eb))
             (float_mul x y) &&
  same_float (SFadd 53 1024 (S754_finite false ma ea) (S754_finite false mb eb))
             (float_add x y) &&
  same_float (SFsub 53 1024 (S754_finite false ma ea) (S754_finite false mb eb))
             (float_sub x y).

(** The floats 0.3, 0.02, 10, 20, 1, 0.5, 0.58, 7, two subnormal
    numbers, the least normal number with one more bit, and 1/3. *)
Definition float_samples : list (positive * Z) :=
  [(5404319552844595%positive, -54); (5764607523034235%positive, -58);
   (5%positive, 1); (5%positive, 2); (1%positive, 0); (1%positive, -1);
   (5224175567749775%positive, -53); (7%positive, 0);
   (1%positive, -1074); (3%positive, -1074);
   (4503599627370497%positive, -1074); (6004799503160661%positive, -54)].

(** ** The random source *)

Abbreviation Rand := (list nat) (only parsing).

(** One draw among [n] alternatives, [n > 0]. *)
Definition randbelow (n : nat) (rs : Rand) : nat * Rand :=
  match rs with
  | [] => (0%nat, [])
  | r :: rs' => ((r mod n)%nat, rs')
  end.

(** [random.randint(a, b)] *)
Definition randint (a b : Z) (rs : Rand) : result (Z * Rand) :=
  if bool_decide (b < a) then Raise ValueError
  else let '(r, rs') := randbelow (Z.to_nat (b - a + 1)) rs in
       Ok (a + Z.of_nat r, rs').

(** [x[i], x[j] = x[j], x[i]] with both indices in range. *)
Definition swap {A} (x : list A) (i j : nat) : list A :=
  match x !! i, x !! j with
  | Some xi, Some xj => <[j := xi]> (<[i := xj]> x)
  | _, _ => x
  end.

(** [random.shuffle(x)]:
    [for i in reversed(range(1, len(x))): j = randbelow(i+1); swap]. *)
Fixpoint shuffle_loop {A} (i : nat) (x : list A) (rs : Rand) : list A * Rand :=
  match i with
  | O => (x, rs)
  | S i' =>
      let '(j, rs1) := randbelow (S i) rs in
      shuffle_loop i' (swap x i j) rs1
  end.

Definition shuffle {A} (x : list A) (rs : Rand) : list A * Rand :=
  shuffle_loop (length x - 1) x rs.

(** ** The generator object *)

Record MazeGenerator : Type := mkGen {
  width : Z;
  height : Z;
  difficulty : Q;
  maze : Grid;
  start : coord;
  exit : coord;
  _path : list coord
}.

Definition set_maze (st : MazeGenerator) (g : Grid) : MazeGenerator :=
  mkGen (width st) (height st) (difficulty st) g (start st) (exit st) (_path st).

Definition set_path (st : MazeGenerator) (p : list coord) : MazeGenerator :=
  mkGen (width st) (height st) (difficulty st) (maze st) (start st) (exit st) p.

(** [MazeGenerator.__init__] *)
Definition __init__ (width height : Z) (difficulty : Q) : MazeGenerator :=
  mkGen width height difficulty (all_walls width height)
        (1, 1) (height - 2, width - 2) [].

(** [0 < nx < self.height-1 and 0 < ny < self.width-1] *)
Definition interior (st : MazeGenerator) (nx ny : Z) : bool :=
  bool_decide (0 < nx < height st - 1) && bool_decide (0 < ny < width st - 1).

(** [0 <= nx < self.height and 0 <= ny < self.width] *)
Definition in_bounds (st : MazeGenerator) (nx ny : Z) : bool :=
  bool_decide (0 <= nx < height st) && bool_decide (0 <= ny < width st).

(** ** [_validate_maze]: breadth-first search *)

Definition steps1 : list (Z * Z) := [(-1, 0); (1, 0); (0, -1); (0, 1)].

(** The [for dx, dy in ...] loop of the search: the neighbours of [(x, y)]
    that are inside the grid, not a wall and not visited are appended to
    the queue. *)
Fixpoint bfs_push (st : MazeGenerator) (visited : gset coord) (x y : Z)
    (ds : list (Z * Z)) (queue : list coord) : result (list coord) :=
  match ds with
  | [] => Ok queue
  | (dx, dy) :: ds' =>
      let nx := x + dx in
      let ny := y + dy in
      if in_bounds st nx ny then
        c ← grid_get (maze st) nx ny;
        if bool_decide (c ≠ Wall) && bool_decide ((nx, ny) ∉ visited)
        then bfs_push st visited x y ds' (queue ++ [(nx, ny)])
        else bfs_push st visited x y ds' queue
      else bfs_push st visited x y ds' queue
  end.

(** The [while queue] loop. *)
Fixpoint bfs_loop (fuel : nat) (st : MazeGenerator) (visited : gset coord)
    (queue : list coord) : result bool :=
  match queue with
  | [] => Ok false
  | (x, y) :: queue1 =>
      match fuel with
      | O => Raise OutOfFuel
      | S fuel' =>
          if bool_decide ((x, y) = exit st) then Ok true
          else if bool_decide ((x, y) ∈ visited) then bfs_loop fuel' st visited queue1
          else
            let visited1 := visited ∪ {[ (x, y) ]} in
            queue2 ← bfs_push st visited1 x y steps1 queue1;
            bfs_loop fuel' st visited1 queue2
      end
  end.

(** Enough fuel for every run: each cell is added to [visited] once and
    pushes at most four entries. *)
Definition bfs_fuel (st : MazeGenerator) : nat :=
  (4 * (Z.to_nat (height st) * Z.to_nat (width st) + 1) + 1)%nat.

Definition _validate_maze (st : MazeGenerator) : result bool :=
  bfs_loop (bfs_fuel st) st ∅ [start st].

(** ** [_generate_base_maze]: randomized Prim carving *)

(** A frontier entry [(nx, ny, parent)]. *)
Abbreviation FrontierEntry := (Z * Z * (Z * Z))%type (only parsing).

(** Seeding the frontier: [for dx, dy in [(-1,0),(1,0),(0,-1),(0,1)]] with
    [nx, ny = start[0]+dx*2, start[1]+dy*2]; no look at the grid. *)
Fixpoint seed_frontier (st : MazeGenerator) (ds : list (Z * Z))
    (frontier : list FrontierEntry) : list FrontierEntry :=
  match ds with
  | [] => frontier
  | (dx, dy) :: ds' =>
      let nx := fst (start st) + dx * 2 in
      let ny := snd (start st) + dy * 2 in
      if interior st nx ny
      then seed_frontier st ds' (frontier ++ [(nx, ny, start st)])
      else seed_frontier st ds' frontier
  end.

Definition steps2 : list (Z * Z) := [(-2, 0); (2, 0); (0, -2); (0, 2)].

(** Growing the frontier around a freshly opened cell [(x, y)]. *)
Fixpoint grow_frontier (st : MazeGenerator) (x y : Z) (ds : list (Z * Z))
    (frontier : list FrontierEntry) : result (list FrontierEntry) :=
  match ds with
  | [] => Ok frontier
  | (dx, dy) :: ds' =>
      let nx := x + dx in
      let ny := y + dy in
      if interior st nx ny then
        c ← grid_get (maze st) nx ny;
        if bool_decide (c = Wall)
        then grow_frontier st x y ds' (frontier ++ [(nx, ny, (x, y))])
        else grow_frontier st x y ds' frontier
      else grow_frontier st x y ds' frontier
  end.

(** The [while frontier] loop. *)
Fixpoint carve_loop (fuel : nat) (st : MazeGenerator)
    (frontier : list FrontierEntry) (rs : Rand)
    : result (MazeGenerator * Rand) :=
  match frontier with
  | [] => Ok (st, rs)
  | _ :: _ =>
      match fuel with
      | O => Raise OutOfFuel
      | S fuel' =>
          '(k, rs1) ← randint 0 (Z.of_nat (length frontier) - 1) rs;
          '(x, y, parent, frontier1) ← py_pop frontier k;
          c ← grid_get (maze st) x y;
          if bool_decide (c = Wall) then
            let mid_x := (x + fst parent) `div` 2 in
            let mid_y := (y + snd parent) `div` 2 in
            g1 ← grid_set (maze st) mid_x mid_y Open;
            g2 ← grid_set g1 x y Open;
            let st2 := set_path (set_maze st g2) (_path st ++ [(x, y)]) in
            frontier2 ← grow_frontier st2 x y steps2 frontier1;
            carve_loop fuel' st2 frontier2 rs1
          else carve_loop fuel' st frontier1 rs1
      end
  end.

(** Enough fuel for every run: an iteration either opens a wall, pushing
    at most four entries, or only drops an entry. *)
Definition carve_fuel (st : MazeGenerator) : nat :=
  (5 * (Z.to_nat (height st) * Z.to_nat (width st)) + 5)%nat.

Definition _generate_base_maze (st : MazeGenerator) (rs : Rand)
    : result (MazeGenerator * Rand) :=
  let st0 := set_maze st (all_walls (width st) (height st)) in
  g1 ← grid_set (maze st0) (fst (start st0)) (snd (start st0)) PlayerStart;
  let st1 := set_maze st0 g1 in
  let frontier := seed_frontier st1 steps1 [] in
  '(st2, rs2) ← carve_loop (carve_fuel st1) st1 frontier rs;
  g3 ← grid_set (maze st2) (fst (exit st2)) (snd (exit st2)) ExitDoor;
  Ok (set_maze st2 g3, rs2).

(** ** [_add_safe_walls]: obstacle injection *)

(** [for j in range(1, self.width-1)] of the candidate scan. *)
Fixpoint candidates_row (st : MazeGenerator) (i : Z) (js : list Z)
    (acc : list coord) : result (list coord) :=
  match js with
  | [] => Ok acc
  | j :: js' =>
      c ← grid_get (maze st) i j;
      if bool_decide (c = Open) && bool_decide ((i, j) ∉ _path st)
      then candidates_row st i js' (acc ++ [(i, j)])
      else candidates_row st i js' acc
  end.

(** [for i in range(1, self.height-1)] of the candidate scan. *)
Fixpoint candidates_rows (st : MazeGenerator) (rows : list Z) (js : list Z)
    (acc : list coord) : result (list coord) :=
  match rows with
  | [] => Ok acc
  | i :: rows' =>
      acc' ← candidates_row st i js acc;
      candidates_rows st rows' js acc'
  end.

Definition candidate_positions (st : MazeGenerator) : result (list coord) :=
  candidates_rows st (py_range 1 (height st - 1)) (py_range 1 (width st - 1)) [].

(** [wall_count = int(len(candidate_positions) * self.difficulty)]: the
    length is converted to a float, the product is a float product. *)
Definition wall_count_of (st : MazeGenerator) (n : nat) : Z :=
  py_int (float_mul (float_of_int (Z.of_nat n)) (difficulty st)).

(** The trial-and-rollback loop; it returns the local [added_walls] with
    the object. *)
Fixpoint safe_walls_loop (st : MazeGenerator) (cands : list coord)
    (wall_count added_walls : Z) : result (MazeGenerator * Z) :=
  match cands with
  | [] => Ok (st, added_walls)
  | (x, y) :: rest =>
      if bool_decide (added_walls >= wall_count) then Ok (st, added_walls)
      else
        original ← grid_get (maze st) x y;
        g1 ← grid_set (maze st) x y Wall;
        let st1 := set_maze st g1 in
        ok ← _validate_maze st1;
        if ok : bool then safe_walls_loop st1 rest wall_count (added_walls + 1)
        else
          g2 ← grid_set (maze st1) x y original;
          safe_walls_loop (set_maze st1 g2) rest wall_count added_walls
  end.

(** The body of [_add_safe_walls], keeping the counter it computes. *)
Definition add_safe_walls_counted (st : MazeGenerator) (rs : Rand)
    : result (MazeGenerator * Z * Rand) :=
  cands ← candidate_positions st;
  let wall_count := wall_count_of st (length cands) in
  let '(shuffled, rs1) := shuffle cands rs in
  '(st1, added) ← safe_walls_loop st shuffled wall_count 0;
  Ok (st1, added, rs1).

Definition _add_safe_walls (st : MazeGenerator) (rs : Rand)
    : result (MazeGenerator * Rand) :=
  '(st1, _, rs1) ← add_safe_walls_counted st rs;
  Ok (st1, rs1).

(** ** [_generate_fallback_maze] *)

Fixpoint fallback_row (g : Grid) (i : Z) (js : list Z) : result Grid :=
  match js with
  | [] => Ok g
  | j :: js' =>
      if bool_decide (i `mod` 2 = 1) && bool_decide (j `mod` 2 = 1) then
        g1 ← grid_set g i j Open;
        fallback_row g1 i js'
      else fallback_row g i js'
  end.

Fixpoint fallback_rows (g : Grid) (rows : list Z) (js : list Z) : result Grid :=
  match rows with
  | [] => Ok g
  | i :: rows' =>
      g1 ← fallback_row g i js;
      fallback_rows g1 rows' js
  end.

Definition _generate_fallback_maze (st : MazeGenerator) : result MazeGenerator :=
  g1 ← fallback_rows (maze st) (py_range 1 (height st - 1)) (py_range 1 (width st - 1));
  g2 ← grid_set g1 (fst (start st)) (snd (start st)) PlayerStart;
  g3 ← grid_set g2 (fst (exit st)) (snd (exit st)) ExitDoor;
  Ok (set_maze st g3).

(** ** [generate] *)

(** One pass through the body of [for _ in range(max_attempts)]:
    [Some grid] when the body returns, [None] when the loop goes on. *)
Definition attempt (st : MazeGenerator) (rs : Rand)
    : result (option Grid * MazeGenerator * Rand) :=
  '(st1, rs1) ← _generate_base_maze st rs;
  ok1 ← _validate_maze st1;
  if ok1 : bool then
    '(st2, rs2) ← _add_safe_walls st1 rs1;
    ok2 ← _validate_maze st2;
    if ok2 : bool then Ok (Some (maze st2), st2, rs2)
    else Ok (None, st2, rs2)
  else Ok (None, st1, rs1).

(** The attempts loop with [n] iterations left and [done] performed; the
    result carries the number of randomized attempts performed. *)
Fixpoint generate_loop (n : nat) (done : nat) (st : MazeGenerator) (rs : Rand)
    : result (Grid * nat * MazeGenerator * Rand) :=
  match n with
  | O =>
      st' ← _generate_fallback_maze st;
      Ok (maze st', done, st', rs)
  | S n' =>
      '(r, st1, rs1) ← attempt st rs;
      match r with
      | Some g => Ok (g, S done, st1, rs1)
      | None => generate_loop n' (S done) st1 rs1
      end
  end.

Definition max_attempts : nat := 10.

Definition generate_run (st : MazeGenerator) (rs : Rand)
    : result (Grid * nat * MazeGenerator * Rand) :=
  generate_loop max_attempts 0 st rs.

(** [MazeGenerator(width, height, difficulty).generate()] *)
Definition generate (width height : Z) (difficulty : Q) (rs : Rand) : result Grid :=
  '(g, _, _, _) ← generate_run (__init__ width height difficulty) rs;
  Ok g.

(** ** Specification vocabulary *)

(** The marker at a coordinate of the grid, [None] outside of it. *)
Definition cell (g : Grid) (c : coord) : option Cell :=
  if bool_decide (0 <= c.1 ∧ 0 <= c.2)
  then g !! Z.to_nat c.1 ≫= fun row => row !! Z.to_nat c.2
  else None.

(** A grid of [h] rows of [w] cells. *)
Definition grid_wf (h w : Z) (g : Grid) : Prop :=
  length g = Z.to_nat h ∧ Forall (fun row => length row = Z.to_nat w) g.

Definition gen_wf (st : MazeGenerator) : Prop :=
  grid_wf (height st) (width st) (maze st).

(** Four-directional neighbours: one step up, down, left or right. *)
Definition adjacent (c c' : coord) : Prop :=
  Z.abs (c'.1 - c.1) + Z.abs (c'.2 - c.2) = 1.

(** A cell one may step onto: inside the grid and not a wall. *)
Definition passable (st : MazeGenerator) (c : coord) : Prop :=
  (0 <= c.1 < height st ∧ 0 <= c.2 < width st) ∧
  ∃ m, cell (maze st) c = Some m ∧ m ≠ Wall.

Definition step (st : MazeGenerator) (c c' : coord) : Prop :=
  adjacent c c' ∧ passable st c'.

(** [b] is reached from [a] by four-directional steps onto non-wall cells. *)
Definition reachable (st : MazeGenerator) (a b : coord) : Prop :=
  rtc (step st) a b.

Definition connected (st : MazeGenerator) : Prop :=
  reachable st (start st) (exit st).

(** A step between two cells that are both inside the grid and not walls. *)
Definition open_step (st : MazeGenerator) (c c' : coord) : Prop :=
  passable st c ∧ adjacent c c' ∧ passable st c'.

(** All coordinates of the grid, with the start cell. *)
Definition universe (st : MazeGenerator) : gset coord :=
  {[ start st ]} ∪
  list_to_set (i ← py_range 0 (height st); (fun j => (i, j)) <$> py_range 0 (width st)).

Definition count_walls (g : Grid) : nat :=
  sum_list ((fun row => length (filter (fun c => c = Wall) row)) <$> g).

Definition odd (x : Z) : Prop := x `mod` 2 = 1.

(** The largest odd number that is at most [n - 2]. *)
Definition Lmax (n : Z) : Z := 2 * ((n - 3) `div` 2) + 1.

(** The part of the grid the odd lattice spans. *)
Definition in_box (st : MazeGenerator) (c : coord) : Prop :=
  (1 <= c.1 <= Lmax (height st)) ∧ (1 <= c.2 <= Lmax (width st)).

Definition border (h w : Z) (c : coord) : Prop :=
  c.1 = 0 ∨ c.1 = h - 1 ∨ c.2 = 0 ∨ c.2 = w - 1.

(** The marker of the comb pattern at a coordinate. *)
Definition comb_cell (h w : Z) (c : coord) : Cell :=
  if bool_decide (c = (h - 2, w - 2)) then ExitDoor
  else if bool_decide (c = (1, 1)) then PlayerStart
  else if bool_decide ((0 < c.1 < h - 1 ∧ 0 < c.2 < w - 1) ∧ odd c.1 ∧ odd c.2) then Open
  else Wall.

(** The state and random source after [n] passes through the loop body of
    [generate] that all went on to the next pass; [None] if one returned. *)
Fixpoint failed_attempts (n : nat) (st : MazeGenerator) (rs : Rand)
    : result (option (MazeGenerator * Rand)) :=
  match n with
  | O => Ok (Some (st, rs))
  | S n' =>
      '(r, st1, rs1) ← attempt st rs;
      match r with
      | Some _ => Ok None
      | None => failed_attempts n' st1 rs1
      end
  end.

(** The shape [__init__] gives the object and no method changes. *)
Definition gen_shape (st : MazeGenerator) : Prop :=
  3 <= height st ∧ 3 <= width st ∧
  start st = (1, 1) ∧ exit st = (height st - 2, width st - 2).

(** Markers sit where they belong, and everything open lies in the span
    of the odd lattice or is the exit. *)
Definition bounded (st : MazeGenerator) : Prop :=
  ∀ c m, cell (maze st) c = Some m →
    (m = ExitDoor → c = exit st) ∧
    (m = PlayerStart → c = start st) ∧
    (m ≠ Wall → in_box st c ∨ c = exit st).

(** A frontier entry lies on the odd lattice, two cells from its parent. *)
Definition entry_ok (st : MazeGenerator) (e : FrontierEntry) : Prop :=
  let '(x, y, p) := e in
  (0 < x < height st - 1 ∧ 0 < y < width st - 1) ∧
  (0 < p.1 < height st - 1 ∧ 0 < p.2 < width st - 1) ∧
  odd x ∧ odd y ∧ odd p.1 ∧ odd p.2 ∧
  Z.abs (x - p.1) + Z.abs (y - p.2) = 2.

(** What a method may change in the object: the grid and the path only. *)
Definition same_shape (st st' : MazeGenerator) : Prop :=
  width st' = width st ∧ height st' = height st ∧
  difficulty st' = difficulty st ∧ start st' = start st ∧ exit st' = exit st.

(** The invariant of the carving loop. *)
Definition carve_inv (st : MazeGenerator) (frontier : list FrontierEntry) : Prop :=
  gen_wf st ∧ gen_shape st ∧ bounded st ∧
  cell (maze st) (start st) = Some PlayerStart ∧
  Forall (entry_ok st) frontier.

(** What holds of the object after every base carve and from then on. *)
Definition maze_inv (st : MazeGenerator) : Prop :=
  gen_wf st ∧ gen_shape st ∧ bounded st ∧
  cell (maze st) (exit st) = Some ExitDoor ∧
  (start st ≠ exit st → cell (maze st) (start st) = Some PlayerStart).

(** A small generator object used to exercise the statements: a 5 x 5
    grid whose corridors form a ring, so that some but not all obstacles
    can be placed. *)
Definition sample_gen : MazeGenerator :=
  mkGen 5 5 1
    [ [Wall; Wall;        Wall; Wall;     Wall];
      [Wall; PlayerStart; Open; Open;     Wall];
      [Wall; Open;        Wall; Open;     Wall];
      [Wall; Open;        Open; ExitDoor; Wall];
      [Wall; Wall;        Wall; Wall;     Wall] ]
    (1, 1) (3, 3) [(1, 3); (3, 1); (3, 3)].

(** The object ten failed attempts leave at width = height = 6, all draws
    of the random source being 0: the one [generate] hands to the
    fallback. *)
Definition failed_6x6 : MazeGenerator :=
  Eval vm_compute in
    match failed_attempts 10 (__init__ 6 6 0) [] with
    | Ok (Some (st, _)) => st
    | _ => __init__ 6 6 0
    end.

(** A cell of the odd lattice, strictly inside the border. *)
Definition lattice (st : MazeGenerator) (c : coord) : Prop :=
  (0 < c.1 < height st - 1 ∧ 0 < c.2 < width st - 1) ∧ odd c.1 ∧ odd c.2.



(** What makes the carve a spanning tree of the odd lattice: every opened
    lattice cell is reached from the start, the parent of every frontier
    entry is opened, and every lattice neighbour of an opened lattice cell
    is opened or waits in the frontier. *)
Definition tree_inv (st : MazeGenerator) (frontier : list FrontierEntry) : Prop :=
  (∀ c, lattice st c → passable st c → reachable st (start st) c) ∧
  (∀ x y p, (x, y, p) ∈ frontier → lattice st p ∧ passable st p) ∧
  (∀ c d, lattice st c → passable st c → d ∈ steps2 →
          interior st (c.1 + d.1) (c.2 + d.2) = true →
          passable st (c.1 + d.1, c.2 + d.2) ∨
          ∃ p, (c.1 + d.1, c.2 + d.2, p) ∈ frontier).

Definition wall_ind (m : Cell) : nat := if decide (m = Wall) then 1%nat else 0%nat.

Arguments grid_get : simpl never.
Arguments grid_set : simpl never.
Arguments py_pop : simpl never.
Arguments randint : simpl never.
Arguments _validate_maze : simpl never.
Arguments all_walls : simpl never.
Arguments cell : simpl never.

(** ** The sound manager: [SoundManager]

    The beeper is a device outside the program.  It is modelled by the
    list of outcomes of the calls made to it, [true] for a call that
    raises; a call beyond the list succeeds. *)

Record SoundManager : Type := mkSound { enabled : bool }.

Abbreviation Device := (list bool) (only parsing).

(** A value of the table [freq_duration]: one [(freq, duration)] pair or a
    list of them. *)
Inductive Tones : Type :=
| Single (freq duration : Z)
| Melody (tones : list (Z * Z)).

(** [freq_duration.get(sound_type, (500, 100))] *)
Definition freq_duration (sound_type : string) : Tones :=
  if String.eqb sound_type "move" then Single 2000 80
  else if String.eqb sound_type "wall" then Single 500 200
  else if String.eqb sound_type "win"
       then Melody [(800, 200); (1200, 200); (1600, 300)]
  else Single 500 100.

(** [_play_single]: the tone is handed to the beeper; if that raises, the
    manager is switched off.  The result carries the tone asked for. *)
Definition _play_single (sm : SoundManager) (freq duration : Z) (dev : Device)
    : SoundManager * list (Z * Z) * Device :=
  match dev with
  | [] => (sm, [(freq, duration)], [])
  | raises :: dev' =>
      (if raises : bool then mkSound false else sm, [(freq, duration)], dev')
  end.

(** [for f, d in sequence: self._play_single(f, d)] *)
Fixpoint play_melody (sm : SoundManager) (tones : list (Z * Z)) (dev : Device)
    : SoundManager * list (Z * Z) * Device :=
  match tones with
  | [] => (sm, [], dev)
  | (f, d) :: tones' =>
      let '(sm1, asked1, dev1) := _play_single sm f d dev in
      let '(sm2, asked2, dev2) := play_melody sm1 tones' dev1 in
      (sm2, asked1 ++ asked2, dev2)
  end.

(** [SoundManager.play]: the manager after the call, the tones it asked
    the beeper for, and the rest of the device. *)
Definition play (sm : SoundManager) (sound_type : string) (dev : Device)
    : SoundManager * list (Z * Z) * Device :=
  if negb (enabled sm) then (sm, [], dev)
  else
    match freq_duration sound_type with
    | Melody tones => play_melody sm tones dev
    | Single f d => _play_single sm f d dev
    end.

(** The tones a value of the table stands for, in playing order. *)
Definition tone_list (t : Tones) : list (Z * Z) :=
  match t with
  | Single f d => [(f, d)]
  | Melody tones => tones
  end.

(** A run of [play] calls, one per sound type. *)
Fixpoint play_all (sm : SoundManager) (sound_types : list string) (dev : Device)
    : SoundManager * list (Z * Z) * Device :=
  match sound_types with
  | [] => (sm, [], dev)
  | t :: rest =>
      let '(sm1, asked1, dev1) := play sm t dev in
      let '(sm2, asked2, dev2) := play_all sm1 rest dev1 in
      (sm2, asked1 ++ asked2, dev2)
  end.

(** ** The game session: [MazeGame]

    The calls [self.sound.play(...)] of the game are kept as the list of
    the sound types asked for, oldest first.  The save file is either
    absent (or unreadable) or holds a dictionary written by [save_game]. *)

Definition MAX_HISTORY : nat := 5.

(** The dictionary [save_game] pickles. *)
Record SaveData : Type := mkSave {
  saved_level : Z;
  saved_move_count : Z;
  saved_total_score : Z;
  saved_history : list Z
}.

Record MazeGame : Type := mkGame {
  level : Z;
  move_count : Z;
  total_score : Z;
  start_time : Q;
  history_scores : list Z;
  game_maze : Grid;          (* [self.maze] *)
  player_pos : coord;
  exit_pos : coord;
  sound_log : list string    (* the calls of [self.sound.play] *)
}.

Definition set_game_maze (game : MazeGame) (g : Grid) : MazeGame :=
  mkGame (level game) (move_count game) (total_score game) (start_time game)
         (history_scores game) g (player_pos game) (exit_pos game) (sound_log game).

Definition set_player_pos (game : MazeGame) (p : coord) : MazeGame :=
  mkGame (level game) (move_count game) (total_score game) (start_time game)
         (history_scores game) (game_maze game) p (exit_pos game) (sound_log game).

Definition set_exit_pos (game : MazeGame) (p : coord) : MazeGame :=
  mkGame (level game) (move_count game) (total_score game) (start_time game)
         (history_scores game) (game_maze game) (player_pos game) p (sound_log game).

Definition set_move_count (game : MazeGame) (n : Z) : MazeGame :=
  mkGame (level game) n (total_score game) (start_time game)
         (history_scores game) (game_maze game) (player_pos game) (exit_pos game)
         (sound_log game).

(** [self.sound.play(sound_type)] *)
Definition log_sound (game : MazeGame) (sound_type : string) : MazeGame :=
  mkGame (level game) (move_count game) (total_score game) (start_time game)
         (history_scores game) (game_maze game) (player_pos game) (exit_pos game)
         (sound_log game ++ [sound_type]).

(** [_load_history]: [data.get('history', [])[:self.MAX_HISTORY]], and [[]]
    when the file cannot be read. *)
Definition _load_history (file : option SaveData) : list Z :=
  match file with
  | Some data => take MAX_HISTORY (saved_history data)
  | None => []
  end.

(** [min(a, b)] of Python: [b] when [b < a], else [a]. *)
Definition py_min (a b : Q) : Q := if Qlt_le_dec b a then b else a.

(** [base_size = 9 + self.level * 2] *)
Definition base_size (level : Z) : Z := 9 + level * 2.

(** [difficulty = min(0.3 + self.level*0.02, 0.5)] *)
Definition level_difficulty (level : Z) : Q :=
  py_min (float_add (float_lit (3 # 10))
                    (float_mul (float_of_int level) (float_lit (2 # 100))))
         (float_lit (5 # 10)).

(** [for j, cell in enumerate(row)] of the scan for the two markers. *)
Fixpoint scan_row (i j : Z) (row : list Cell) (game : MazeGame) : MazeGame :=
  match row with
  | [] => game
  | c :: row' =>
      if bool_decide (c = PlayerStart) then scan_row i (j + 1) row' (set_player_pos game (i, j))
      else if bool_decide (c = ExitDoor) then scan_row i (j + 1) row' (set_exit_pos game (i, j))
      else scan_row i (j + 1) row' game
  end.

(** [for i, row in enumerate(self.maze)] *)
Fixpoint scan_rows (i : Z) (rows : list (list Cell)) (game : MazeGame) : MazeGame :=
  match rows with
  | [] => game
  | row :: rows' => scan_rows (i + 1) rows' (scan_row i 0 row game)
  end.

(** [MazeGame._generate_new_maze] *)
Definition _generate_new_maze (game : MazeGame) (rs : Rand) : result (MazeGame * Rand) :=
  let generator :=
    __init__ (base_size (level game)) (base_size (level game))
             (level_difficulty (level game)) in
  '(g, _, _, rs') ← generate_run generator rs;
  let game1 := set_game_maze game g in
  Ok (scan_rows 0 g game1, rs').

(** [MazeGame.__init__], at time [now], with the save file as it is. *)
Definition MazeGame_init (file : option SaveData) (now : Q)
    (level move_count total_score : Z) (rs : Rand) : result (MazeGame * Rand) :=
  _generate_new_maze
    (mkGame level move_count total_score now (_load_history file) [] (0, 0) (0, 0) [])
    rs.

(** [str.lower] on the bytes a key can be: an ASCII capital becomes the
    small letter, every other byte stays. *)
Definition lower_ascii (c : ascii) : ascii :=
  let n := nat_of_ascii c in
  if (65 <=? n)%nat && (n <=? 90)%nat then ascii_of_nat (n + 32) else c.

Fixpoint lower (s : string) : string :=
  match s with
  | EmptyString => EmptyString
  | String c s' => String (lower_ascii c) (lower s')
  end.

(** The [(dx, dy)] a key stands for; [(0, 0)] for any other key. *)
Definition key_delta (direction : string) : Z * Z :=
  if String.eqb direction "w" then (-1, 0)
  else if String.eqb direction "s" then (1, 0)
  else if String.eqb direction "a" then (0, -1)
  else if String.eqb direction "d" then (0, 1)
  else (0, 0).

(** [MazeGame._update_position] *)
Definition _update_position (game : MazeGame) (new_x new_y : Z) : result MazeGame :=
  g1 ← grid_set (game_maze game) (player_pos game).1 (player_pos game).2 Open;
  g2 ← grid_set g1 new_x new_y PlayerStart;
  Ok (set_game_maze (set_player_pos game (new_x, new_y)) g2).

(** [MazeGame.move_player] *)
Definition move_player (game : MazeGame) (direction : string)
    : result (bool * MazeGame) :=
  let '(dx, dy) := key_delta (lower direction) in
  let new_x := (player_pos game).1 + dx in
  let new_y := (player_pos game).2 + dy in
  if bool_decide (0 <= new_x < Z.of_nat (length (game_maze game))) then
    if bool_decide (0 <= new_y) then
      row0 ← py_get (game_maze game) 0;
      if bool_decide (new_y < Z.of_nat (length row0)) then
        target_cell ← grid_get (game_maze game) new_x new_y;
        if bool_decide (target_cell ≠ Wall) then
          game1 ← _update_position (log_sound game "move") new_x new_y;
          Ok (true, set_move_count game1 (move_count game1 + 1))
        else Ok (false, log_sound game "wall")
      else Ok (false, game)
    else Ok (false, game)
  else Ok (false, game).

(** [MazeGame.check_victory] *)
Definition check_victory (game : MazeGame) : bool * MazeGame :=
  if bool_decide (player_pos game = exit_pos game)
  then (true, log_sound game "win")
  else (false, game).

(** [MazeGame.calculate_score], called at time [now]. *)
Definition calculate_score (game : MazeGame) (now : Q) : Z :=
  let time_used := float_sub now (start_time game) in
  let time_score := Z.max 0 (1000 - py_int (float_mul time_used (float_of_int 10))) in
  let move_score := Z.max 0 (500 - move_count game * 5) in
  time_score + move_score.

(** [MazeGame.save_game]: the dictionary handed to [pickle.dump]. *)
Definition save_game (game : MazeGame) : SaveData :=
  mkSave (level game) (move_count game) (total_score game) (history_scores game).

(** [MazeGame.load_game]: [None] when the file cannot be read or the
    constructor raises. *)
Definition load_game (file : option SaveData) (now : Q) (rs : Rand)
    : option (MazeGame * Rand) :=
  match file with
  | None => None
  | Some data =>
      match MazeGame_init file now (saved_level data) (saved_move_count data)
                          (saved_total_score data) rs with
      | Ok r => Some r
      | Raise _ => None
      end
  end.

(** [l[-n:]] for [n > 0]: the last [n] elements. *)
Definition py_last (n : nat) {A} (l : list A) : list A := drop (length l - n) l.

(** [sorted(l, reverse=True)] on integers. *)
Definition sorted_reverse (l : list Z) : list Z := merge_sort Z.ge l.

(** The history update of [main] after a victory:
    [history_scores.append(total_score)] and then
    [sorted(history_scores[-MAX_HISTORY:], reverse=True)]. *)
Definition record_score (history : list Z) (total : Z) : list Z :=
  sorted_reverse (py_last MAX_HISTORY (history ++ [total])).

(** The victory branch of [main]: the score of the level is added at time
    [now], the total is appended to the history, which is cut to its last
    [MAX_HISTORY] entries and sorted; then [game] is bound to a new
    [MazeGame(game.level+1, 0, game.total_score)], built at time [now'] with
    the save file as it is on disk. *)
Definition next_level (game : MazeGame) (file : option SaveData) (now now' : Q)
    (rs : Rand) : result (MazeGame * Rand) :=
  let level_score := calculate_score game now in
  let game1 :=
    mkGame (level game) (move_count game) (total_score game + level_score)
           (start_time game) (history_scores game) (game_maze game)
           (player_pos game) (exit_pos game) (sound_log game) in
  let game2 :=
    mkGame (level game1) (move_count game1) (total_score game1)
           (start_time game1)
           (record_score (history_scores game1) (total_score game1))
           (game_maze game1) (player_pos game1) (exit_pos game1)
           (sound_log game1) in
  MazeGame_init file now' (level game2 + 1) 0 (total_score game2) rs.

(** The keys [w], [a], [s], [d] of [main] pressed one after the other, each
    handed to [move_player]. *)
Fixpoint play_keys (game : MazeGame) (keys : list string) : result MazeGame :=
  match keys with
  | [] => Ok game
  | key :: keys' =>
      '(_, game1) ← move_player game key;
      play_keys game1 keys'
  end.

(** *** Vocabulary for the game *)

(** A cell of the grid that is not a wall. *)
Definition walkable (g : Grid) (c : coord) : Prop :=
  ∃ m, cell g c = Some m ∧ m ≠ Wall.

Definition grid_step (g : Grid) (c c' : coord) : Prop :=
  adjacent c c' ∧ walkable g c'.

(** The grid is rectangular and the player marker sits on the player's
    position and nowhere else. *)
Definition game_ok (game : MazeGame) : Prop :=
  (∃ h w, grid_wf h w (game_maze game)) ∧
  ∀ c, cell (game_maze game) c = Some PlayerStart ↔ c = player_pos game.

(** [sample_gen] at difficulty 0. *)
Definition sample_gen_easy : MazeGenerator :=
  mkGen 5 5 0 (maze sample_gen) (1, 1) (3, 3) (_path sample_gen).

(** A small game used to exercise the statements: the ring grid of
    [sample_gen] with the player on its start. *)
Definition sample_game : MazeGame :=
  mkGame 0 0 0 0 [] (maze sample_gen) (1, 1) (3, 3) [].

(** A game on a single row without border, the player on its edge. *)
Definition edge_game : MazeGame :=
  mkGame 0 0 0 0 [] [[PlayerStart; Open; ExitDoor]] (0, 0) (0, 2) [].

(** ** Python lists and the grid *)

Section PyLists.
Context {A : Type}.
Implicit Types (l : list A) (i : Z) (a : A).

Lemma py_idx_in_range (n : nat) i :
  0 <= i < Z.of_nat n → py_idx n i = Ok (Z.to_nat i).
Proof. intros H. unfold py_idx. by rewrite bool_decide_eq_true_2. Qed.

Lemma py_get_in_range l i :
  0 <= i < Z.of_nat (length l) →
  ∃ a, py_get l i = Ok a ∧ l !! Z.to_nat i = Some a.
Proof.
  intros H. unfold py_get. rewrite py_idx_in_range by done. simpl.
  destruct (lookup_lt_is_Some_2 l (Z.to_nat i)) as [a Ha]; [lia|].
  exists a. by rewrite Ha.
Qed.

Lemma py_set_in_range l i a :
  0 <= i < Z.of_nat (length l) → py_set l i a = Ok (<[Z.to_nat i := a]> l).
Proof. intros H. unfold py_set. by rewrite py_idx_in_range. Qed.

Lemma py_pop_in_range l i :
  0 <= i < Z.of_nat (length l) →
  ∃ a, py_pop l i = Ok (a, take (Z.to_nat i) l ++ drop (S (Z.to_nat i)) l)
       ∧ l !! Z.to_nat i = Some a.
Proof.
  intros H. unfold py_pop. rewrite py_idx_in_range by done. simpl.
  destruct (lookup_lt_is_Some_2 l (Z.to_nat i)) as [a Ha]; [lia|].
  exists a. by rewrite Ha.
Qed.
End PyLists.

Lemma elem_of_py_range a b x : x ∈ py_range a b ↔ a <= x < b.
Proof. unfold py_range. rewrite elem_of_seqZ. lia. Qed.

Lemma cell_Some_bounds h w g c m :
  grid_wf h w g → cell g c = Some m → 0 <= c.1 < h ∧ 0 <= c.2 < w.
Proof.
  intros [Hh Hw] Hc. unfold cell in Hc. case_bool_decide as Hnn; [|done].
  destruct (g !! Z.to_nat c.1) as [row|] eqn:Hrow; [|done]. simpl in Hc.
  apply lookup_lt_Some in Hc.
  rewrite Forall_lookup in Hw. rewrite (Hw _ _ Hrow) in Hc.
  apply lookup_lt_Some in Hrow. lia.
Qed.

Lemma cell_is_Some h w g c :
  grid_wf h w g → 0 <= c.1 < h → 0 <= c.2 < w → is_Some (cell g c).
Proof.
  intros [Hh Hw] Hx Hy. unfold cell. rewrite bool_decide_eq_true_2 by lia.
  destruct (lookup_lt_is_Some_2 g (Z.to_nat c.1)) as [row Hrow]; [lia|].
  rewrite Hrow. simpl. apply lookup_lt_is_Some_2.
  rewrite Forall_lookup in Hw. rewrite (Hw _ _ Hrow). lia.
Qed.

Lemma grid_get_cell h w g x y :
  grid_wf h w g → 0 <= x < h → 0 <= y < w →
  ∃ m, grid_get g x y = Ok m ∧ cell g (x, y) = Some m.
Proof.
  intros [Hh Hw] Hx Hy. unfold grid_get, cell. simpl.
  destruct (py_get_in_range g x) as (row & -> & Hrow); [lia|]. simpl.
  rewrite Forall_lookup in Hw.
  destruct (py_get_in_range row y) as (m & -> & Hm); [rewrite (Hw _ _ Hrow); lia|].
  exists m. rewrite bool_decide_eq_true_2 by lia. rewrite Hrow. done.
Qed.

Lemma grid_set_cell h w g x y m :
  grid_wf h w g → 0 <= x < h → 0 <= y < w →
  ∃ g', grid_set g x y m = Ok g' ∧ grid_wf h w g' ∧
        cell g' (x, y) = Some m ∧
        ∀ c, c ≠ (x, y) → cell g' c = cell g c.
Proof.
  intros [Hh Hw] Hx Hy. unfold grid_set.
  destruct (py_get_in_range g x) as (row & -> & Hrow); [lia|]. simpl.
  pose proof Hw as Hw'. rewrite Forall_lookup in Hw'.
  pose proof (Hw' _ _ Hrow) as Hlen.
  rewrite py_set_in_range by lia. simpl.
  rewrite py_set_in_range by lia.
  eexists. split; [done|]. split; [|split].
  - split; [by rewrite length_insert|].
    apply Forall_insert; [done|]. by rewrite length_insert.
  - unfold cell. simpl. rewrite bool_decide_eq_true_2 by lia.
    rewrite list_lookup_insert_eq by lia. simpl.
    apply list_lookup_insert_eq. lia.
  - intros [cx cy] Hne. unfold cell. simpl.
    case_bool_decide as Hnn; [|done].
    destruct (decide (Z.to_nat x = Z.to_nat cx)) as [Heq|Hneq].
    + rewrite <- Heq. rewrite list_lookup_insert_eq by lia. rewrite Hrow. simpl.
      apply list_lookup_insert_ne. intros Heq'.
      apply Hne. f_equal; lia.
    + by rewrite list_lookup_insert_ne.
Qed.

Lemma grid_ext h w g1 g2 :
  grid_wf h w g1 → grid_wf h w g2 →
  (∀ c, cell g1 c = cell g2 c) → g1 = g2.
Proof.
  intros [Hh1 Hw1] [Hh2 Hw2] Hc. apply list_eq. intros i.
  destruct (g1 !! i) as [r1|] eqn:H1.
  - destruct (lookup_lt_is_Some_2 g2 i) as [r2 H2].
    { apply lookup_lt_Some in H1. lia. }
    rewrite H2. f_equal. apply list_eq. intros j.
    specialize (Hc (Z.of_nat i, Z.of_nat j)). unfold cell in Hc. simpl in Hc.
    rewrite bool_decide_eq_true_2 in Hc by lia.
    rewrite !Nat2Z.id, H1, H2 in Hc. done.
  - apply lookup_ge_None in H1. symmetry. apply lookup_ge_None. lia.
Qed.

Lemma all_walls_wf w h : grid_wf h w (all_walls w h).
Proof.
  split; [apply length_replicate|].
  apply Forall_replicate. apply length_replicate.
Qed.

Lemma all_walls_cell w h c m : cell (all_walls w h) c = Some m → m = Wall.
Proof.
  unfold cell, all_walls. case_bool_decide; [|done].
  intros Hb. apply bind_Some in Hb as (row & Hrow & Hm).
  apply lookup_replicate in Hrow as [-> _].
  by apply lookup_replicate in Hm as [-> _].
Qed.

(** ** The breadth-first search *)

Lemma in_bounds_true st x y :
  in_bounds st x y = true ↔ 0 <= x < height st ∧ 0 <= y < width st.
Proof.
  unfold in_bounds. rewrite andb_true_iff, !bool_decide_eq_true. done.
Qed.

Lemma adjacent_steps1 (c c' : coord) :
  adjacent c c' ↔ ∃ d, d ∈ steps1 ∧ c' = (c.1 + d.1, c.2 + d.2).
Proof.
  destruct c as [x y], c' as [x' y']. unfold adjacent, steps1. simpl. split.
  - intros Hadj.
    assert ((x' = x + -1 ∧ y' = y + 0) ∨ (x' = x + 1 ∧ y' = y + 0) ∨
            (x' = x + 0 ∧ y' = y + -1) ∨ (x' = x + 0 ∧ y' = y + 1))
      as [[-> ->]|[[-> ->]|[[-> ->]|[-> ->]]]] by lia.
    + exists (-1, 0). split; [|done]. rewrite !elem_of_cons. tauto.
    + exists (1, 0). split; [|done]. rewrite !elem_of_cons. tauto.
    + exists (0, -1). split; [|done]. rewrite !elem_of_cons. tauto.
    + exists (0, 1). split; [|done]. rewrite !elem_of_cons. tauto.
  - intros ([dx dy] & Hd & Heq). simpl in Heq.
    rewrite !elem_of_cons, elem_of_nil in Hd.
    destruct Hd as [Hd|[Hd|[Hd|[Hd|[]]]]]; simplify_eq; lia.
Qed.

Lemma bind_Ok {A B} (a : A) (f : A → result B) : Ok a ≫= f = f a.
Proof. reflexivity. Qed.

Lemma bfs_loop_unfold fuel st visited x y queue1 :
  bfs_loop (S fuel) st visited ((x, y) :: queue1) =
  if bool_decide ((x, y) = exit st) then Ok true
  else if bool_decide ((x, y) ∈ visited) then bfs_loop fuel st visited queue1
  else queue2 ← bfs_push st (visited ∪ {[ (x, y) ]}) x y steps1 queue1;
       bfs_loop fuel st (visited ∪ {[ (x, y) ]}) queue2.
Proof. reflexivity. Qed.

Section Search.
Variable st : MazeGenerator.
Hypothesis Hwf : gen_wf st.

Lemma bfs_push_spec visited x y ds queue :
  ∃ news,
    bfs_push st visited x y ds queue = Ok (queue ++ news) ∧
    (length news <= length ds)%nat ∧
    ∀ c, c ∈ news ↔
         (∃ d, d ∈ ds ∧ c = (x + d.1, y + d.2)) ∧ passable st c ∧ c ∉ visited.
Proof using Hwf.
  revert queue. induction ds as [|[dx dy] ds' IH]; intros queue.
  - exists []. simpl. rewrite app_nil_r. split; [done|]. split; [done|].
    intros c. split; [by intros ?%elem_of_nil|].
    intros [(d & Hd%elem_of_nil & _) _]. done.
  - simpl. destruct (in_bounds st (x + dx) (y + dy)) eqn:Hin.
    + apply in_bounds_true in Hin as [Hx Hy].
      destruct (grid_get_cell _ _ _ _ _ Hwf Hx Hy) as (m & -> & Hm). simpl.
      destruct (bool_decide (m ≠ Wall) && bool_decide ((x + dx, y + dy) ∉ visited))
        eqn:Htest.
      * apply andb_true_iff in Htest as [Hm' Hv].
        apply bool_decide_eq_true in Hm', Hv.
        destruct (IH (queue ++ [(x + dx, y + dy)])) as (news & -> & Hlen & Hnews).
        exists ((x + dx, y + dy) :: news). rewrite <- app_assoc. simpl.
        split; [done|]. split; [lia|].
        intros c. rewrite elem_of_cons, Hnews. split.
        -- intros [->|[(d & Hd & ->) Hrest]].
           ++ split; [exists (dx, dy); split; [left|done]|].
              split; [|done]. split; [done|]. by exists m.
           ++ split; [exists d; split; [by right|done]|done].
        -- intros [(d & Hd & ->) Hrest]. apply elem_of_cons in Hd as [->|Hd].
           ++ by left.
           ++ right. split; [by exists d|done].
      * destruct (IH queue) as (news & -> & Hlen & Hnews).
        exists news. split; [done|]. split; [lia|].
        intros c. rewrite Hnews. split.
        -- intros [(d & Hd & ->) Hrest].
           split; [exists d; split; [by right|done]|done].
        -- intros [(d & Hd & ->) [Hp Hv]]. apply elem_of_cons in Hd as [->|Hd].
           ++ exfalso. simpl in *. destruct Hp as [_ (m' & Hm1 & Hm2)].
              rewrite Hm in Hm1. simplify_eq.
              apply andb_false_iff in Htest as [Ht|Ht];
                apply bool_decide_eq_false in Ht; tauto.
           ++ split; [by exists d|done].
    + destruct (IH queue) as (news & -> & Hlen & Hnews).
      exists news. split; [done|]. split; [lia|].
      intros c. rewrite Hnews. split.
      * intros [(d & Hd & ->) Hrest].
        split; [exists d; split; [by right|done]|done].
      * intros [(d & Hd & ->) [Hp Hv]]. apply elem_of_cons in Hd as [->|Hd].
        -- exfalso. destruct Hp as [Hb _]. simpl in Hb.
           apply in_bounds_true in Hb. congruence.
        -- split; [by exists d|done].
Qed.

(** Whatever the search answers [True] for is reachable from the queue. *)
Lemma bfs_loop_sound (P : coord → Prop) fuel visited queue :
  (∀ c c', P c → step st c c' → P c') →
  (∀ c, c ∈ queue → P c) →
  bfs_loop fuel st visited queue = Ok true → P (exit st).
Proof using Hwf.
  intros Hclosed. revert visited queue.
  induction fuel as [|fuel IH]; intros visited queue Hq Hrun.
  - destruct queue as [|[x y] q1]; done.
  - destruct queue as [|[x y] q1]; [done|]. rewrite bfs_loop_unfold in Hrun.
    case_bool_decide as Hex.
    { rewrite <- Hex. apply Hq. left. }
    case_bool_decide as Hvis.
    { apply (IH visited q1); [|done]. intros c Hc. apply Hq. by right. }
    destruct (bfs_push_spec (visited ∪ {[(x, y)]}) x y steps1 q1)
      as (news & Hpush & _ & Hnews).
    rewrite Hpush, bind_Ok in Hrun.
    refine (IH _ _ _ Hrun).
    intros c [Hc|Hc]%elem_of_app.
    + apply Hq. by right.
    + apply Hnews in Hc as [(d & Hd & ->) [Hp _]].
      apply (Hclosed (x, y)); [apply Hq; left|].
      split; [|done]. apply adjacent_steps1. by exists d.
Qed.

Lemma closed_reach (S : gset coord) :
  (∀ a b, a ∈ S → step st a b → b ∈ S ∨ b ∈ []) →
  ∀ a b, reachable st a b → a ∈ S → b ∈ S.
Proof.
  intros Hcl a b Hreach. induction Hreach as [|a b c Hab _ IHr]; [done|].
  intros Ha. apply IHr. destruct (Hcl a b Ha Hab) as [|?%elem_of_nil]; done.
Qed.

(** When the search answers [False], nothing it saw leads to the exit. *)
Lemma bfs_loop_complete fuel visited queue :
  exit st ∉ visited →
  (∀ c c', c ∈ visited → step st c c' → c' ∈ visited ∨ c' ∈ queue) →
  bfs_loop fuel st visited queue = Ok false →
  ∀ c, c ∈ visited ∨ c ∈ queue → ¬ reachable st c (exit st).
Proof using Hwf.
  revert visited queue.
  induction fuel as [|fuel IH]; intros visited queue Hex Hcl Hrun.
  - destruct queue as [|[x y] q1]; [|done].
    intros c [Hc|Hc%elem_of_nil]; [|done]. intros Hreach.
    apply Hex. apply (closed_reach visited Hcl c); done.
  - destruct queue as [|[x y] q1].
    { intros c [Hc|Hc%elem_of_nil]; [|done]. intros Hreach.
      apply Hex. apply (closed_reach visited Hcl c); done. }
    rewrite bfs_loop_unfold in Hrun. case_bool_decide as Hexit; [done|].
    case_bool_decide as Hvis.
    + intros c Hc. apply (IH visited q1 Hex); [|done|].
      * intros a b Ha Hab. destruct (Hcl a b Ha Hab) as [|Hb]; [by left|].
        apply elem_of_cons in Hb as [->|Hb]; [by left|by right].
      * destruct Hc as [Hc|Hc]; [by left|].
        apply elem_of_cons in Hc as [->|Hc]; [by left|by right].
    + destruct (bfs_push_spec (visited ∪ {[(x, y)]}) x y steps1 q1)
        as (news & Hpush & _ & Hnews).
      rewrite Hpush, bind_Ok in Hrun.
      intros c Hc. refine (IH _ _ _ _ Hrun _ _).
      * intros [He|He%elem_of_singleton]%elem_of_union; [done|].
        by apply Hexit.
      * intros a b Ha Hab. apply elem_of_union in Ha as [Ha|Ha].
        -- destruct (Hcl a b Ha Hab) as [|Hb]; [left; apply elem_of_union; by left|].
           apply elem_of_cons in Hb as [->|Hb].
           { left. apply elem_of_union. right. by apply elem_of_singleton. }
           right. apply elem_of_app. by left.
        -- apply elem_of_singleton in Ha as ->.
           destruct (decide (b ∈ visited ∪ {[(x, y)]})) as [|Hnb]; [by left|].
           right. apply elem_of_app. right. apply Hnews.
           destruct Hab as [Hadj Hp]. apply adjacent_steps1 in Hadj. done.
      * destruct Hc as [Hc|Hc]; [left; apply elem_of_union; by left|].
        apply elem_of_cons in Hc as [->|Hc].
        { left. apply elem_of_union. right. by apply elem_of_singleton. }
        right. apply elem_of_app. by left.
Qed.
End Search.

(** *** Termination of the search *)

Lemma size_list_to_set_le (l : list coord) :
  (size (list_to_set l : gset coord) <= length l)%nat.
Proof.
  induction l as [|c l IH].
  - change (list_to_set [] : gset coord) with (∅ : gset coord).
    by rewrite size_empty.
  - change (list_to_set (c :: l) : gset coord)
      with ({[c]} ∪ list_to_set l : gset coord).
    rewrite size_union_alt, size_singleton. simpl.
    assert (size (list_to_set l ∖ {[c]} : gset coord) <= size (list_to_set l : gset coord))%nat.
    { apply subseteq_size. intros z Hz. by apply elem_of_difference in Hz as [? _]. }
    lia.
Qed.

Lemma length_grid_coords (rows cols : list Z) :
  length (i ← rows; (fun j => (i, j)) <$> cols) = (length rows * length cols)%nat.
Proof.
  induction rows as [|i rows IH]; [done|].
  rewrite bind_cons, length_app, length_fmap, IH. simpl. lia.
Qed.

Lemma universe_size st :
  (size (universe st) <= Z.to_nat (height st) * Z.to_nat (width st) + 1)%nat.
Proof.
  unfold universe. rewrite size_union_alt, size_singleton.
  set (X := list_to_set _).
  assert (size (X ∖ {[start st]}) <= size X)%nat as Hle.
  { apply subseteq_size. intros z Hz. by apply elem_of_difference in Hz as [? _]. }
  assert (size X <= Z.to_nat (height st) * Z.to_nat (width st))%nat as Hs.
  { subst X. etrans; [apply size_list_to_set_le|].
    rewrite length_grid_coords. unfold py_range.
    by rewrite !length_seqZ, !Z.sub_0_r. }
  lia.
Qed.

Lemma elem_of_universe st (c : coord) :
  0 <= c.1 < height st → 0 <= c.2 < width st → c ∈ universe st.
Proof.
  intros Hx Hy. destruct c as [x y]. unfold universe.
  apply elem_of_union. right.
  apply elem_of_list_to_set, list_elem_of_bind. exists x. split.
  - apply list_elem_of_fmap. exists y. split; [done|]. by apply elem_of_py_range.
  - by apply elem_of_py_range.
Qed.

Lemma size_difference_step (U visited : gset coord) c :
  c ∈ U → c ∉ visited →
  size (U ∖ visited) = S (size (U ∖ (visited ∪ {[c]}))).
Proof.
  intros HU Hv.
  assert (U ∖ visited = {[c]} ∪ U ∖ (visited ∪ {[c]})) as ->.
  { apply set_eq. intros z.
    rewrite elem_of_union, !elem_of_difference, elem_of_union, !elem_of_singleton.
    destruct (decide (z = c)) as [->|]; intuition congruence. }
  rewrite size_union, size_singleton; [done|].
  intros z Hz1 Hz2. apply elem_of_singleton in Hz1 as ->.
  apply elem_of_difference in Hz2 as [_ Hz2]. apply Hz2.
  apply elem_of_union. right. by apply elem_of_singleton.
Qed.

Section SearchTotal.
Variable st : MazeGenerator.
Hypothesis Hwf : gen_wf st.

Lemma bfs_loop_total fuel visited queue :
  (∀ c, c ∈ queue → c ∈ universe st) →
  (4 * size (universe st ∖ visited) + length queue <= fuel)%nat →
  ∃ b, bfs_loop fuel st visited queue = Ok b.
Proof using Hwf.
  revert visited queue.
  induction fuel as [|fuel IH]; intros visited queue Hq Hfuel.
  - destruct queue; [by exists false|simpl in Hfuel; lia].
  - destruct queue as [|[x y] q1]; [by exists false|].
    rewrite bfs_loop_unfold. simpl in Hfuel.
    case_bool_decide as Hex; [by exists true|].
    case_bool_decide as Hvis.
    + apply IH; [|lia]. intros c Hc. apply Hq. by right.
    + destruct (bfs_push_spec st Hwf (visited ∪ {[(x, y)]}) x y steps1 q1)
        as (news & -> & Hlen & Hnews).
      rewrite bind_Ok. apply IH.
      * intros c [Hc|Hc]%elem_of_app; [apply Hq; by right|].
        apply Hnews in Hc as (_ & [[Hx Hy] _] & _). by apply elem_of_universe.
      * rewrite (size_difference_step _ visited (x, y)) in Hfuel;
          [|apply Hq; left|done].
        rewrite length_app. simpl in Hlen. lia.
Qed.

(** The search always answers, and answers [True] exactly when the exit
    is reachable from the start. *)
Lemma validate_maze_spec :
  ∃ b, _validate_maze st = Ok b ∧ (b = true ↔ connected st).
Proof using Hwf.
  unfold _validate_maze, connected.
  destruct (bfs_loop_total (bfs_fuel st) ∅ [start st]) as [b Hb].
  { intros c ->%list_elem_of_singleton. unfold universe.
    apply elem_of_union. left. by apply elem_of_singleton. }
  { pose proof (universe_size st) as Hs.
    assert (size (universe st ∖ ∅) <= size (universe st))%nat.
    { apply subseteq_size. intros z Hz. by apply elem_of_difference in Hz as [? _]. }
    unfold bfs_fuel. simpl. lia. }
  exists b. split; [done|]. destruct b.
  - split; [intros _|done].
    apply (bfs_loop_sound st Hwf (reachable st (start st)) _ _ _) in Hb; [done| |].
    + intros c c' Hc Hstep. eapply rtc_r; done.
    + intros c ->%list_elem_of_singleton. apply rtc_refl.
  - split; [done|]. intros Hreach. exfalso.
    eapply (bfs_loop_complete st Hwf _ _ _ (not_elem_of_empty _)); [|done| |done].
    + intros c c' Hc. by apply not_elem_of_empty in Hc.
    + right. apply list_elem_of_singleton. done.
Qed.
End SearchTotal.

(** ** Python floats *)

Lemma rne_bounds x : Qfloor x <= rne x <= Qfloor x + 1.
Proof.
  unfold rne. destruct (Qcompare _ _); [destruct (Z.even _)|..]; lia.
Qed.

Lemma rne_mono x y : (x <= y)%Q → rne x <= rne y.
Proof.
  intros Hxy. pose proof (Qfloor_resp_le _ _ Hxy) as Hf.
  destruct (decide (Qfloor x = Qfloor y)) as [Heq|Hne].
  - unfold rne. rewrite <- Heq.
    destruct (Qcompare (x - inject_Z (Qfloor x)) (1 # 2)) eqn:Hx;
      destruct (Qcompare (y - inject_Z (Qfloor x)) (1 # 2)) eqn:Hy;
      try (destruct (Z.even (Qfloor x)); lia); try lia;
      exfalso;
      repeat match goal with
      | H : Qcompare _ _ = Eq |- _ => apply Qeq_alt in H
      | H : Qcompare ?a ?b = Lt |- _ => change (a < b)%Q in H
      | H : Qcompare _ _ = Gt |- _ => apply Qgt_alt in H
      end; lra.
  - pose proof (rne_bounds x). pose proof (rne_bounds y). lia.
Qed.

Lemma rne_Z k : rne (inject_Z k) = k.
Proof.
  unfold rne. rewrite Qfloor_Z.
  assert (Qcompare (inject_Z k - inject_Z k) (1 # 2) = Lt) as ->; [|done].
  change (inject_Z k - inject_Z k < 1 # 2)%Q. lra.
Qed.

Lemma rne_proper x y : (x == y)%Q → rne x = rne y.
Proof.
  intros H. apply Z.le_antisymm; apply rne_mono; rewrite H; apply Qle_refl.
Qed.

Lemma rne_ge k x : (inject_Z k <= x)%Q → k <= rne x.
Proof. intros H. rewrite <- (rne_Z k). by apply rne_mono. Qed.

Lemma rne_le k x : (x <= inject_Z k)%Q → rne x <= k.
Proof. intros H. rewrite <- (rne_Z k). by apply rne_mono. Qed.

(** Powers of two. *)

Lemma pow2_pos e : (0 < 2 ^ e)%Q.
Proof. by apply Qpower_0_lt. Qed.

Lemma pow2_add a b : (2 ^ (a + b) == 2 ^ a * 2 ^ b)%Q.
Proof. by apply Qpower_plus. Qed.

Lemma pow2_le a b : a <= b → (2 ^ a <= 2 ^ b)%Q.
Proof. intros H. by apply Qpower_le_compat_l. Qed.

Lemma pow2_lt a b : a < b → (2 ^ a < 2 ^ b)%Q.
Proof. intros H. by apply Qpower_lt_compat_l. Qed.

Lemma pow2_lt_inv a b : (2 ^ a < 2 ^ b)%Q → a < b.
Proof. intros H. by apply (Qpower_lt_compat_l_inv 2). Qed.

Lemma pow2_Z n : 0 <= n → (inject_Z (2 ^ n) == 2 ^ n)%Q.
Proof. intros H. by rewrite Zpower_Qpower. Qed.

Lemma floor_log2_spec x :
  (0 < x)%Q → (2 ^ floor_log2 x <= x)%Q ∧ (x < 2 ^ (floor_log2 x + 1))%Q.
Proof.
  intros Hx. destruct x as [a d]. unfold floor_log2. cbn [Qnum Qden].
  assert (0 < a) as Ha by (unfold Qlt in Hx; cbn in Hx; lia).
  pose proof (Z.log2_spec a Ha) as [Ha1 Ha2].
  pose proof (Z.log2_spec (Z.pos d) ltac:(lia)) as [Hd1 Hd2].
  pose proof (Z.log2_nonneg a) as Hla. pose proof (Z.log2_nonneg (Z.pos d)) as Hld.
  set (la := Z.log2 a) in *. set (ld := Z.log2 (Z.pos d)) in *.
  assert (a # d == inject_Z a / inject_Z (Z.pos d))%Q as Hq by apply Qmake_Qdiv.
  assert (0 < inject_Z (Z.pos d))%Q as HD by (unfold Qlt; cbn; lia).
  assert (2 ^ la <= inject_Z a)%Q as HA1 by (rewrite <- pow2_Z, <- Zle_Qle; lia).
  assert (inject_Z a < 2 ^ (la + 1))%Q as HA2
    by (rewrite <- pow2_Z by lia; rewrite <- Zlt_Qlt; lia).
  assert (2 ^ ld <= inject_Z (Z.pos d))%Q as HD1 by (rewrite <- pow2_Z, <- Zle_Qle; lia).
  assert (inject_Z (Z.pos d) < 2 ^ (ld + 1))%Q as HD2
    by (rewrite <- pow2_Z by lia; rewrite <- Zlt_Qlt; lia).
  assert ((a # d) * inject_Z (Z.pos d) == inject_Z a)%Q as Hmul.
  { rewrite Hq. field. lra. }
  pose proof (pow2_pos ld). pose proof (pow2_pos (la - ld)).
  pose proof (pow2_pos (la - ld - 1)). pose proof (pow2_pos (la - ld + 1)).
  assert (0 < a # d)%Q as Hpos by done.
  destruct (Qle_bool (2 ^ (la - ld)) (a # d)) eqn:Hb.
  - apply Qle_bool_iff in Hb. split; [done|].
    (* x * D = A < 2^(la+1) = 2^(l+1) * 2^ld <= 2^(l+1) * D *)
    assert (2 ^ (la + 1) == 2 ^ (la - ld + 1) * 2 ^ ld)%Q as He
      by (rewrite <- pow2_add; f_equiv; lia).
    apply Qnot_le_lt. intros Hc.
    assert (2 ^ (la - ld + 1) * inject_Z (Z.pos d) <= (a # d) * inject_Z (Z.pos d))%Q
      by (apply Qmult_le_compat_r; [done|lra]).
    assert (2 ^ (la - ld + 1) * 2 ^ ld <= 2 ^ (la - ld + 1) * inject_Z (Z.pos d))%Q
      by (apply Qmult_le_l; [done|done]).
    lra.
  - assert (¬ (2 ^ (la - ld) <= a # d)%Q) as Hn
      by (rewrite <- Qle_bool_iff, Hb; done).
    apply Qnot_le_lt in Hn.
    replace (la - ld - 1 + 1) with (la - ld) by lia. split; [|done].
    assert (2 ^ la == 2 ^ (la - ld - 1) * 2 ^ (ld + 1))%Q as He
      by (rewrite <- pow2_add; f_equiv; lia).
    apply Qnot_lt_le. intros Hc.
    assert ((a # d) * inject_Z (Z.pos d) <= 2 ^ (la - ld - 1) * inject_Z (Z.pos d))%Q
      by (apply Qmult_le_compat_r; lra).
    assert (2 ^ (la - ld - 1) * inject_Z (Z.pos d) < 2 ^ (la - ld - 1) * 2 ^ (ld + 1))%Q
      by (apply Qmult_lt_l; [done|done]).
    lra.
Qed.

Lemma floor_log2_unique x k :
  (2 ^ k <= x)%Q → (x < 2 ^ (k + 1))%Q → floor_log2 x = k.
Proof.
  intros H1 H2. pose proof (pow2_pos k).
  destruct (floor_log2_spec x) as [H3 H4]; [lra|].
  assert (floor_log2 x < k + 1) by (apply pow2_lt_inv; lra).
  assert (k < floor_log2 x + 1) by (apply pow2_lt_inv; lra). lia.
Qed.

Lemma floor_log2_mono x y : (0 < x)%Q → (x <= y)%Q → floor_log2 x <= floor_log2 y.
Proof.
  intros Hx Hxy.
  destruct (floor_log2_spec x) as [H1 H2]; [done|].
  destruct (floor_log2_spec y) as [H3 H4]; [lra|].
  assert (floor_log2 x < floor_log2 y + 1) by (apply pow2_lt_inv; lra). lia.
Qed.

Lemma ulp_exp_mono x y : (0 < x)%Q → (x <= y)%Q → ulp_exp x <= ulp_exp y.
Proof. intros Hx Hxy. unfold ulp_exp. pose proof (floor_log2_mono x y Hx Hxy). lia. Qed.

Lemma div_pow2_le x e k : (x <= 2 ^ (e + k))%Q → (x / 2 ^ e <= 2 ^ k)%Q.
Proof.
  intros H. pose proof (pow2_pos e). rewrite pow2_add in H.
  apply Qle_shift_div_r; [done|]. lra.
Qed.

Lemma div_pow2_ge x e k : (2 ^ (e + k) <= x)%Q → (2 ^ k <= x / 2 ^ e)%Q.
Proof.
  intros H. pose proof (pow2_pos e). rewrite pow2_add in H.
  apply Qle_shift_div_l; [done|]. lra.
Qed.

Lemma round_pos_upper x :
  (0 < x)%Q → (round_pos x <= 2 ^ (ulp_exp x + 53))%Q.
Proof.
  intros Hx. unfold round_pos. set (e := ulp_exp x).
  destruct (floor_log2_spec x Hx) as [_ H2].
  assert (x / 2 ^ e <= 2 ^ 53)%Q as Hs.
  { apply div_pow2_le. apply Qlt_le_weak. eapply Qlt_le_trans; [exact H2|].
    apply pow2_le. unfold e, ulp_exp. lia. }
  assert (rne (x / 2 ^ e) <= 2 ^ 53) as Hr.
  { apply rne_le. by rewrite pow2_Z. }
  pose proof (pow2_pos e). rewrite (Z.add_comm e), pow2_add.
  apply Qmult_le_compat_r; [|lra]. rewrite <- (pow2_Z 53) by lia. by rewrite <- Zle_Qle.
Qed.

Lemma round_pos_lower x :
  (0 < x)%Q → -1074 < ulp_exp x → (2 ^ (ulp_exp x + 52) <= round_pos x)%Q.
Proof.
  intros Hx He. unfold round_pos. set (e := ulp_exp x) in *.
  destruct (floor_log2_spec x Hx) as [H1 _].
  assert (2 ^ 52 <= x / 2 ^ e)%Q as Hs.
  { apply div_pow2_ge. eapply Qle_trans; [|exact H1].
    apply pow2_le. unfold e, ulp_exp in *. lia. }
  assert (2 ^ 52 <= rne (x / 2 ^ e)) as Hr.
  { apply rne_ge. by rewrite pow2_Z. }
  pose proof (pow2_pos e). rewrite (Z.add_comm e), pow2_add.
  apply Qmult_le_compat_r; [|lra]. rewrite <- (pow2_Z 52) by lia. by rewrite <- Zle_Qle.
Qed.

Lemma round_pos_nonneg x : (0 < x)%Q → (0 <= round_pos x)%Q.
Proof.
  intros Hx. unfold round_pos. pose proof (pow2_pos (ulp_exp x)).
  apply Qmult_le_0_compat; [|lra].
  change 0%Q with (inject_Z 0). rewrite <- Zle_Qle. apply rne_ge.
  apply Qle_shift_div_l; [done|]. change (inject_Z 0) with 0%Q. lra.
Qed.

Lemma round_pos_mono x y : (0 < x)%Q → (x <= y)%Q → (round_pos x <= round_pos y)%Q.
Proof.
  intros Hx Hxy. pose proof (ulp_exp_mono x y Hx Hxy) as He.
  destruct (decide (ulp_exp x = ulp_exp y)) as [Heq|Hne].
  - unfold round_pos. rewrite <- Heq. pose proof (pow2_pos (ulp_exp x)).
    apply Qmult_le_compat_r; [|lra]. rewrite <- Zle_Qle. apply rne_mono.
    apply Qmult_le_compat_r; [done|]. apply Qinv_le_0_compat. lra.
  - eapply Qle_trans; [by apply round_pos_upper|].
    eapply Qle_trans; [|apply round_pos_lower; [lra|unfold ulp_exp in *; lia]].
    apply pow2_le. lia.
Qed.

Lemma to_float_nonneg x : (0 <= x)%Q → (0 <= to_float x)%Q.
Proof.
  intros Hx. unfold to_float. destruct (Qcompare x 0) eqn:Hc.
  - apply Qle_refl.
  - change (x < 0)%Q in Hc. lra.
  - apply Qgt_alt in Hc. by apply round_pos_nonneg.
Qed.

Lemma to_float_nonpos x : (x <= 0)%Q → (to_float x <= 0)%Q.
Proof.
  intros Hx. unfold to_float. destruct (Qcompare x 0) eqn:Hc.
  - apply Qle_refl.
  - change (x < 0)%Q in Hc. pose proof (round_pos_nonneg (- x)) as H.
    assert (0 < - x)%Q as Hn by lra. specialize (H Hn). lra.
  - apply Qgt_alt in Hc. lra.
Qed.

Lemma to_float_mono x y : (x <= y)%Q → (to_float x <= to_float y)%Q.
Proof.
  intros Hxy.
  destruct (Qlt_le_dec 0 x) as [Hx|Hx].
  - unfold to_float.
    assert (Qcompare x 0 = Gt) as -> by (apply Qgt_alt; lra).
    assert (Qcompare y 0 = Gt) as -> by (apply Qgt_alt; lra).
    by apply round_pos_mono.
  - destruct (Qlt_le_dec y 0) as [Hy|Hy].
    + unfold to_float.
      assert (Qcompare x 0 = Lt) as -> by (change (x < 0)%Q; lra).
      assert (Qcompare y 0 = Lt) as -> by (change (y < 0)%Q; lra).
      pose proof (round_pos_mono (- y) (- x)) as H.
      assert (0 < - y)%Q as H1 by lra. assert (- y <= - x)%Q as H2 by lra.
      specialize (H H1 H2). lra.
    + pose proof (to_float_nonpos x Hx). pose proof (to_float_nonneg y Hy). lra.
Qed.

#[global] Instance to_float_proper : Proper (Qeq ==> Qeq) to_float.
Proof.
  intros x y H. apply Qle_antisym; apply to_float_mono; rewrite H; apply Qle_refl.
Qed.

Lemma floor_log2_Z k : 0 < k → floor_log2 (inject_Z k) = Z.log2 k.
Proof.
  intros Hk. pose proof (Z.log2_spec k Hk) as [H1 H2].
  pose proof (Z.log2_nonneg k).
  apply floor_log2_unique.
  - rewrite <- pow2_Z by done. by rewrite <- Zle_Qle.
  - rewrite <- pow2_Z by lia. rewrite <- Zlt_Qlt. lia.
Qed.

Lemma to_float_Z_pos k : 0 < k < 2 ^ 53 → (to_float (inject_Z k) == inject_Z k)%Q.
Proof.
  intros [Hk Hk2]. unfold to_float.
  assert (Qcompare (inject_Z k) 0 = Gt) as ->.
  { apply Qgt_alt. change 0%Q with (inject_Z 0). rewrite <- Zlt_Qlt. lia. }
  unfold round_pos, ulp_exp. rewrite floor_log2_Z by done.
  assert (Z.log2 k < 53) as Hl by (apply Z.log2_lt_pow2; lia).
  pose proof (Z.log2_nonneg k). rewrite Z.max_l by lia.
  set (e := Z.log2 k - 52).
  assert (inject_Z k / 2 ^ e == inject_Z (k * 2 ^ (- e)))%Q as Hs.
  { rewrite inject_Z_mult, pow2_Z by (unfold e; lia).
    rewrite (Qpower_opp 2 e). reflexivity. }
  rewrite (rne_proper _ _ Hs), rne_Z.
  rewrite inject_Z_mult, pow2_Z by (unfold e; lia).
  rewrite (Qpower_opp 2 e). pose proof (pow2_pos e). field. lra.
Qed.

Lemma to_float_Z k : 0 <= k <= 2 ^ 53 → (to_float (inject_Z k) == inject_Z k)%Q.
Proof.
  intros Hk. destruct (decide (k = 0)) as [->|H0]; [reflexivity|].
  destruct (decide (k = 2 ^ 53)) as [->|H1]; [vm_compute; reflexivity|].
  apply to_float_Z_pos. lia.
Qed.

(** On the samples, products, sums and differences are those of the
    Standard Library's specification of binary64 arithmetic. *)
Lemma float_ops_agree_on_samples :
  forallb (fun a => forallb (float_ops_agree a) float_samples) float_samples = true.
Proof. vm_compute. reflexivity. Qed.

(** [int()] *)

Lemma div_mono_frac a b c d :
  0 <= a → 0 < b → 0 < d → a * d <= c * b → a / b <= c / d.
Proof.
  intros Ha Hb Hd H. apply Z.div_le_lower_bound; [done|].
  pose proof (Z.mul_div_le a b Hb). pose proof (Z.div_pos a b Ha Hb). nia.
Qed.

Lemma quot_neg a b : a <= 0 → 0 < b → a ÷ b = - (- a / b).
Proof.
  intros Ha Hb. rewrite <- (Z.opp_involutive a) at 1.
  rewrite Z.quot_opp_l by lia. by rewrite Z.quot_div_nonneg by lia.
Qed.

Lemma py_int_mono q1 q2 : (q1 <= q2)%Q → py_int q1 <= py_int q2.
Proof.
  destruct q1 as [n1 d1], q2 as [n2 d2]. unfold py_int, Qle. cbn [Qnum Qden].
  intros H. destruct (Z.le_gt_cases 0 n1) as [H1|H1].
  - assert (0 <= n2) by nia.
    rewrite !Z.quot_div_nonneg by lia. apply div_mono_frac; lia.
  - destruct (Z.le_gt_cases 0 n2) as [H2|H2].
    + rewrite quot_neg by lia. rewrite (Z.quot_div_nonneg n2) by lia.
      pose proof (Z.div_pos (- n1) (Z.pos d1)). pose proof (Z.div_pos n2 (Z.pos d2)).
      lia.
    + rewrite !quot_neg by lia.
      enough (- n2 / Z.pos d2 <= - n1 / Z.pos d1) by lia.
      apply div_mono_frac; lia.
Qed.

Lemma py_int_nonneg q : (0 <= q)%Q → 0 <= py_int q.
Proof. intros H. apply (py_int_mono 0 q H). Qed.

Lemma py_int_nonpos q : (q <= 0)%Q → py_int q <= 0.
Proof. intros H. apply (py_int_mono q 0 H). Qed.

Lemma py_int_Z k : py_int (inject_Z k) = k.
Proof. unfold py_int. cbn [Qnum Qden inject_Z]. apply Z.quot_1_r. Qed.

Lemma py_int_proper x y : (x == y)%Q → py_int x = py_int y.
Proof.
  intros H. apply Z.le_antisymm; apply py_int_mono; rewrite H; apply Qle_refl.
Qed.

(** ** Counting walls *)

Lemma filter_insert_length (row : list Cell) j c m :
  row !! j = Some c →
  (length (filter (fun c => c = Wall) (<[j := m]> row)) + wall_ind c =
   length (filter (fun c => c = Wall) row) + wall_ind m)%nat.
Proof.
  revert j. induction row as [|a row IH]; intros [|j] Hj; simplify_eq/=.
  - unfold wall_ind. rewrite !filter_cons.
    destruct (decide (c = Wall)), (decide (m = Wall)); simpl; lia.
  - rewrite !filter_cons. specialize (IH _ Hj).
    destruct (decide (a = Wall)); simpl; lia.
Qed.

Lemma sum_list_insert (l : list nat) i a b :
  l !! i = Some a → (sum_list (<[i := b]> l) + a = sum_list l + b)%nat.
Proof.
  revert i. induction l as [|c l IH]; intros [|i] Hi; simplify_eq/=; [lia|].
  specialize (IH _ Hi). lia.
Qed.

Lemma grid_set_count h w g x y m m0 g' :
  grid_wf h w g → 0 <= x < h → 0 <= y < w →
  cell g (x, y) = Some m0 → grid_set g x y m = Ok g' →
  (count_walls g' + wall_ind m0 = count_walls g + wall_ind m)%nat.
Proof.
  intros [Hh Hw] Hx Hy Hc Hset. unfold grid_set in Hset.
  destruct (py_get_in_range g x) as (row & Hget & Hrow); [lia|].
  rewrite Hget, bind_Ok in Hset.
  rewrite Forall_lookup in Hw. pose proof (Hw _ _ Hrow) as Hlen.
  rewrite py_set_in_range, bind_Ok in Hset by lia.
  rewrite py_set_in_range in Hset by lia. simplify_eq.
  unfold cell in Hc. simpl in Hc. rewrite bool_decide_eq_true_2 in Hc by lia.
  rewrite Hrow in Hc. simpl in Hc.
  unfold count_walls. rewrite list_fmap_insert.
  pose proof (filter_insert_length row _ _ m Hc) as Hf.
  pose proof (sum_list_insert
    ((fun row => length (filter (fun c => c = Wall) row)) <$> g) (Z.to_nat x)
    (length (filter (fun c => c = Wall) row))
    (length (filter (fun c => c = Wall) (<[Z.to_nat y := m]> row)))) as Hs.
  rewrite list_lookup_fmap, Hrow in Hs. specialize (Hs eq_refl). lia.
Qed.

Lemma count_walls_le h w g :
  grid_wf h w g → (count_walls g <= Z.to_nat h * Z.to_nat w)%nat.
Proof.
  intros [Hh Hw]. unfold count_walls. rewrite <- Hh. clear Hh.
  induction Hw as [|row g Hrow _ IH]; csimpl; [lia|].
  pose proof (length_filter (fun c => c = Wall) row). lia.
Qed.

(** ** The random source and the frontier *)

Lemma randint_spec a b rs :
  a <= b → ∃ k rs', randint a b rs = Ok (k, rs') ∧ a <= k <= b.
Proof.
  intros Hab. unfold randint. rewrite bool_decide_eq_false_2 by lia.
  destruct rs as [|r rs]; simpl.
  - exists a, []. split; [f_equal; f_equal; lia|lia].
  - eexists _, _. split; [done|].
    pose proof (Nat.mod_upper_bound r (Z.to_nat (b - a + 1))). lia.
Qed.

Lemma py_pop_spec {A} (l : list A) k :
  0 <= k < Z.of_nat (length l) →
  ∃ a l', py_pop l k = Ok (a, l') ∧ a ∈ l ∧
          S (length l') = length l ∧ (∀ x, x ∈ l' → x ∈ l) ∧
          (∀ x, x ∈ l → x = a ∨ x ∈ l').
Proof.
  intros Hk. destruct (py_pop_in_range l k Hk) as (a & Hpop & Ha).
  eexists _, _. split; [done|]. split; [|split; [|split]].
  - by eapply list_elem_of_lookup_2.
  - rewrite length_app, length_take, length_drop. lia.
  - intros x [Hx|Hx]%elem_of_app.
    + by eapply subseteq_take.
    + by eapply subseteq_drop.
  - intros x Hx. rewrite <- (take_drop_middle l _ _ Ha) in Hx.
    apply elem_of_app in Hx as [Hx|Hx]; [right; apply elem_of_app; by left|].
    apply elem_of_cons in Hx as [->|Hx]; [by left|].
    right. apply elem_of_app. by right.
Qed.

Lemma odd_in_box st x y :
  odd x → odd y → 0 < x < height st - 1 → 0 < y < width st - 1 → in_box st (x, y).
Proof.
  unfold odd, in_box, Lmax. simpl. intros Hx Hy Hxr Hyr.
  Z.div_mod_to_equations. lia.
Qed.

Lemma in_box_interior st (c : coord) :
  in_box st c → 0 < c.1 < height st - 1 ∧ 0 < c.2 < width st - 1.
Proof.
  unfold in_box, Lmax. intros [Hx Hy]. Z.div_mod_to_equations. lia.
Qed.

(** ** The carving loop *)

Lemma carve_loop_unfold fuel st e frontier0 rs :
  carve_loop (S fuel) st (e :: frontier0) rs =
  ('(k, rs1) ← randint 0 (Z.of_nat (length (e :: frontier0)) - 1) rs;
   '(x, y, parent, frontier1) ← py_pop (e :: frontier0) k;
   c ← grid_get (maze st) x y;
   if bool_decide (c = Wall) then
     g1 ← grid_set (maze st) ((x + parent.1) `div` 2) ((y + parent.2) `div` 2) Open;
     g2 ← grid_set g1 x y Open;
     frontier2 ← grow_frontier (set_path (set_maze st g2) (_path st ++ [(x, y)]))
                   x y steps2 frontier1;
     carve_loop fuel (set_path (set_maze st g2) (_path st ++ [(x, y)])) frontier2 rs1
   else carve_loop fuel st frontier1 rs1).
Proof. reflexivity. Qed.

Lemma entry_mid st x y (p : coord) :
  entry_ok st (x, y, p) →
  (0 < (x + p.1) `div` 2 < height st - 1 ∧ 0 < (y + p.2) `div` 2 < width st - 1) ∧
  in_box st ((x + p.1) `div` 2, (y + p.2) `div` 2) ∧
  ((x + p.1) `div` 2, (y + p.2) `div` 2) ≠ (x, y) ∧
  ((x + p.1) `div` 2, (y + p.2) `div` 2) ≠ (1, 1).
Proof.
  destruct p as [px py]. unfold entry_ok, odd, in_box, Lmax. simpl.
  intros (Hi & Hp & Hx & Hy & Hpx & Hpy & Hd).
  assert ((x = px + 2 ∧ y = py) ∨ (x = px - 2 ∧ y = py) ∨
          (x = px ∧ y = py + 2) ∨ (x = px ∧ y = py - 2)) as Hcases.
  { clear Hi Hp. Z.div_mod_to_equations. lia. }
  repeat split; try (intros [= ? ?]);
    destruct Hcases as [[-> ->]|[[-> ->]|[[-> ->]|[-> ->]]]];
    Z.div_mod_to_equations; lia.
Qed.

Lemma grow_frontier_spec st x y ds frontier :
  gen_wf st → odd x → odd y →
  (0 < x < height st - 1 ∧ 0 < y < width st - 1) →
  (∀ d, d ∈ ds → d ∈ steps2) →
  ∃ news, grow_frontier st x y ds frontier = Ok (frontier ++ news) ∧
          (length news <= length ds)%nat ∧ Forall (entry_ok st) news.
Proof.
  intros Hwf Hx Hy Hint. revert frontier.
  induction ds as [|[dx dy] ds IH]; intros frontier Hds.
  - exists []. by rewrite app_nil_r.
  - simpl. assert (∀ d, d ∈ ds → d ∈ steps2) as Hds' by (intros d Hd; apply Hds; by right).
    destruct (interior st (x + dx) (y + dy)) eqn:Hin.
    + unfold interior in Hin. apply andb_true_iff in Hin as [Hi1 Hi2].
      apply bool_decide_eq_true in Hi1, Hi2.
      destruct (grid_get_cell _ _ (maze st) (x + dx) (y + dy) Hwf) as (m & -> & Hm);
        [lia..|].
      rewrite bind_Ok. case_bool_decide as Hwall.
      * destruct (IH (frontier ++ [(x + dx, y + dy, (x, y))]) Hds')
          as (news & -> & Hlen & Hnews).
        exists ((x + dx, y + dy, (x, y)) :: news). rewrite <- app_assoc.
        split; [done|]. split; [simpl; lia|].
        constructor; [|done]. unfold entry_ok. simpl.
        assert ((dx, dy) ∈ steps2) as Hd by (apply Hds; left).
        unfold steps2 in Hd. rewrite !elem_of_cons, elem_of_nil in Hd.
        unfold odd in *.
        destruct Hd as [Hd|[Hd|[Hd|[Hd|[]]]]]; simplify_eq;
          repeat split; try lia; Z.div_mod_to_equations; lia.
      * destruct (IH frontier Hds') as (news & -> & Hlen & Hnews).
        exists news. split; [done|]. split; [simpl; lia|done].
    + destruct (IH frontier Hds') as (news & -> & Hlen & Hnews).
      exists news. split; [done|]. split; [simpl; lia|done].
Qed.

Lemma entry_ok_same_shape st st' e :
  same_shape st st' → entry_ok st e → entry_ok st' e.
Proof.
  intros (Hw & Hh & _). destruct e as [[x y] p]. unfold entry_ok.
  by rewrite Hw, Hh.
Qed.

Lemma same_shape_refl st : same_shape st st.
Proof. by repeat split. Qed.

Lemma same_shape_trans st1 st2 st3 :
  same_shape st1 st2 → same_shape st2 st3 → same_shape st1 st3.
Proof.
  intros (?&?&?&?&?) (?&?&?&?&?). repeat split; congruence.
Qed.

(** One opened wall: the carving step on the grid. *)
Lemma carve_step st x y (p : coord) :
  carve_inv st [] → entry_ok st (x, y, p) →
  cell (maze st) (x, y) = Some Wall →
  ∃ g1 g2,
    grid_set (maze st) ((x + p.1) `div` 2) ((y + p.2) `div` 2) Open = Ok g1 ∧
    grid_set g1 x y Open = Ok g2 ∧
    carve_inv (set_path (set_maze st g2) (_path st ++ [(x, y)])) [] ∧
    (count_walls g2 < count_walls (maze st))%nat ∧
    cell g2 (x, y) = Some Open ∧
    cell g2 ((x + p.1) `div` 2, (y + p.2) `div` 2) = Some Open ∧
    (∀ c, c ≠ (x, y) → c ≠ ((x + p.1) `div` 2, (y + p.2) `div` 2) →
          cell g2 c = cell (maze st) c).
Proof.
  intros (Hwf & Hshape & Hb & Hstart & _) He Hwall.
  destruct (entry_mid _ _ _ _ He) as (Hmid & Hmbox & Hmne & Hm11).
  pose proof He as (Hi & _ & Hx & Hy & _).
  destruct (cell_is_Some _ _ (maze st) ((x + p.1) `div` 2, (y + p.2) `div` 2) Hwf)
    as [m0 Hm0]; [simpl; lia..|].
  destruct (grid_set_cell _ _ (maze st) ((x + p.1) `div` 2) ((y + p.2) `div` 2) Open Hwf)
    as (g1 & Hg1 & Hwf1 & Hc1 & Ho1); [lia..|].
  destruct (grid_set_cell _ _ g1 x y Open Hwf1) as (g2 & Hg2 & Hwf2 & Hc2 & Ho2); [lia..|].
  exists g1, g2. split; [done|]. split; [done|]. split.
  - split; [done|]. split; [done|]. split; [|split; [|done]].
    + intros c m Hc. simpl in Hc.
      destruct (decide (c = (x, y))) as [->|Hne].
      { rewrite Hc2 in Hc. simplify_eq. split; [done|]. split; [done|].
        intros _. left. apply odd_in_box; [done|done|apply Hi|apply Hi]. }
      rewrite Ho2 in Hc by done.
      destruct (decide (c = ((x + p.1) `div` 2, (y + p.2) `div` 2))) as [->|Hne'].
      { rewrite Hc1 in Hc. simplify_eq. split; [done|]. split; [done|].
        intros _. by left. }
      rewrite Ho1 in Hc by done. by apply Hb.
    + simpl. destruct Hshape as (_ & _ & Hs & _). rewrite Hs in *.
      rewrite Ho2, Ho1; [done|done|]. intros Heq. rewrite Heq in Hstart. congruence.
  - assert (count_walls g1 + wall_ind m0 = count_walls (maze st) + wall_ind Open)%nat as Hk1.
    { eapply grid_set_count; [exact Hwf| | |exact Hm0|exact Hg1]; lia. }
    assert (cell g1 (x, y) = Some Wall) as Hw1 by (rewrite Ho1; done).
    assert (count_walls g2 + wall_ind Wall = count_walls g1 + wall_ind Open)%nat as Hk2.
    { eapply grid_set_count; [exact Hwf1| | |exact Hw1|exact Hg2]; lia. }
    split; [unfold wall_ind in *; simpl in *; destruct (decide (m0 = Wall)); lia|].
    split; [done|]. split; [by rewrite Ho2|].
    intros c Hne Hne'. by rewrite Ho2, Ho1.
Qed.

Lemma carve_loop_spec fuel st frontier rs :
  carve_inv st frontier →
  (5 * count_walls (maze st) + length frontier <= fuel)%nat →
  ∃ st' rs', carve_loop fuel st frontier rs = Ok (st', rs') ∧
             carve_inv st' [] ∧ same_shape st st' ∧
             ((∀ c, c ∈ _path st → cell (maze st) c = Some Open) →
              ∀ c, c ∈ _path st' → cell (maze st') c = Some Open).
Proof.
  revert st frontier rs.
  induction fuel as [|fuel IH]; intros st frontier rs Hinv Hfuel.
  - destruct frontier; [|simpl in Hfuel; lia].
    exists st, rs. split; [done|]. split; [done|]. split; [apply same_shape_refl|done].
  - destruct frontier as [|e frontier0].
    { exists st, rs. split; [done|]. split; [done|].
      split; [apply same_shape_refl|done]. }
    rewrite carve_loop_unfold.
    destruct (randint_spec 0 (Z.of_nat (length (e :: frontier0)) - 1) rs)
      as (k & rs1 & -> & Hk); [simpl; lia|].
    rewrite bind_Ok. cbv beta iota.
    destruct (py_pop_spec (e :: frontier0) k)
      as ([[x y] p] & frontier1 & -> & He & Hlen & Hsub & _); [lia|].
    rewrite bind_Ok. cbv beta iota.
    destruct Hinv as (Hwf & Hshape & Hb & Hstart & Hfr).
    assert (entry_ok st (x, y, p)) as Hentry by (rewrite Forall_forall in Hfr; by apply Hfr).
    assert (Forall (entry_ok st) frontier1) as Hfr1.
    { rewrite Forall_forall in *. intros z Hz. by apply Hfr, Hsub. }
    pose proof Hentry as (Hi & _ & Hx & Hy & _).
    destruct (grid_get_cell _ _ (maze st) x y Hwf) as (c & -> & Hc); [lia..|].
    rewrite bind_Ok. case_bool_decide as Hwall.
    + subst c.
      destruct (carve_step st x y p)
        as (g1 & g2 & -> & Hg2 & Hinv2 & Hcount & Hxy & Hmid & Hrest); [done..|].
      assert (∀ c, cell (maze st) c = Some Open → cell g2 c = Some Open) as Hkeep.
      { intros c Hopen. destruct (decide (c = (x, y))) as [->|Hne]; [done|].
        destruct (decide (c = ((x + p.1) `div` 2, (y + p.2) `div` 2))) as [->|Hne'];
          [done|].
        by rewrite Hrest. }
      rewrite bind_Ok, Hg2, bind_Ok.
      set (st2 := set_path (set_maze st g2) (_path st ++ [(x, y)])) in *.
      assert (same_shape st st2) as Hsame by (by repeat split).
      destruct (grow_frontier_spec st2 x y steps2 frontier1) as (news & -> & Hnl & Hnews);
        [apply Hinv2|done|done|done|done|].
      rewrite bind_Ok.
      destruct (IH st2 (frontier1 ++ news) rs1)
        as (st' & rs' & -> & Hinv' & Hsame' & Hpath').
      * destruct Hinv2 as (Hwf2 & Hsh2 & Hb2 & Hst2 & _).
        split; [done|]. split; [done|]. split; [done|]. split; [done|].
        apply Forall_app. split; [|done].
        eapply Forall_impl; [done|]. intros z. by apply entry_ok_same_shape.
      * rewrite length_app. simpl in Hnl, Hfuel, Hcount, Hlen |- *. lia.
      * exists st', rs'. split; [done|]. split; [done|].
        split; [by eapply same_shape_trans|].
        intros Hopen. apply Hpath'. intros z [Hz|Hz]%elem_of_app.
        -- apply Hkeep. by apply Hopen.
        -- apply list_elem_of_singleton in Hz as ->. done.
    + apply IH; [by split_and!|]. simpl in Hfuel, Hlen. lia.
Qed.

(** ** [_generate_base_maze] *)

Lemma seed_frontier_spec st ds frontier :
  gen_shape st → (∀ d, d ∈ ds → d ∈ steps1) →
  ∃ news, seed_frontier st ds frontier = frontier ++ news ∧
          (length news <= length ds)%nat ∧ Forall (entry_ok st) news.
Proof.
  intros (Hh & Hw & Hs & _). revert frontier.
  induction ds as [|[dx dy] ds IH]; intros frontier Hds.
  - exists []. by rewrite app_nil_r.
  - simpl. assert (∀ d, d ∈ ds → d ∈ steps1) as Hds' by (intros d Hd; apply Hds; by right).
    destruct (interior st _ _) eqn:Hin.
    + unfold interior in Hin. apply andb_true_iff in Hin as [Hi1 Hi2].
      apply bool_decide_eq_true in Hi1, Hi2. rewrite Hs in *. simpl in *.
      destruct (IH (frontier ++ [(1 + dx * 2, 1 + dy * 2, (1, 1))]) Hds')
        as (news & -> & Hlen & Hnews).
      exists ((1 + dx * 2, 1 + dy * 2, (1, 1)) :: news). rewrite <- app_assoc.
      split; [done|]. split; [simpl; lia|].
      constructor; [|done]. unfold entry_ok. simpl.
      assert ((dx, dy) ∈ steps1) as Hd by (apply Hds; left).
      unfold steps1 in Hd. rewrite !elem_of_cons, elem_of_nil in Hd.
      unfold odd.
      destruct Hd as [Hd|[Hd|[Hd|[Hd|[]]]]]; simplify_eq;
        repeat split; try lia; done.
    + destruct (IH frontier Hds') as (news & -> & Hlen & Hnews).
      exists news. split; [done|]. split; [simpl; lia|done].
Qed.

Lemma Lmax_ge_1 n : 3 <= n → 1 <= Lmax n.
Proof. unfold Lmax. intros. Z.div_mod_to_equations. lia. Qed.

Lemma mark_exit st :
  gen_wf st → gen_shape st → bounded st →
  cell (maze st) (start st) = Some PlayerStart →
  ∃ g, grid_set (maze st) (exit st).1 (exit st).2 ExitDoor = Ok g ∧
       maze_inv (set_maze st g) ∧
       ∀ c, c ≠ exit st → cell g c = cell (maze st) c.
Proof.
  intros Hwf Hshape Hb Hstart. pose proof Hshape as (Hh & Hw & Hs & He).
  destruct (grid_set_cell _ _ (maze st) (exit st).1 (exit st).2 ExitDoor Hwf)
    as (g & Hg & Hwfg & Hcg & Hog); [rewrite He; simpl; lia..|].
  exists g. split; [done|]. rewrite <- surjective_pairing in Hcg, Hog.
  split; [|done].
  split; [done|]. split; [done|]. split; [|split; [done|]].
  - intros c m Hc. simpl in Hc |- *.
    destruct (decide (c = exit st)) as [->|Hne].
    + rewrite Hcg in Hc. simplify_eq. split; [done|]. split; [done|]. by right.
    + rewrite Hog in Hc by done. by apply Hb.
  - intros Hne. simpl. rewrite Hog by done. done.
Qed.

Lemma base_maze_spec st rs :
  gen_shape st →
  ∃ st' rs', _generate_base_maze st rs = Ok (st', rs') ∧
             maze_inv st' ∧ same_shape st st' ∧
             (_path st = [] →
              ∀ c, c ∈ _path st' → cell (maze st') c = Some Open ∨ c = exit st').
Proof.
  intros Hshape. pose proof Hshape as (Hh & Hw & Hs & He).
  unfold _generate_base_maze.
  set (st0 := set_maze st (all_walls (width st) (height st))).
  assert (gen_wf st0) as Hwf0 by apply all_walls_wf.
  destruct (grid_set_cell _ _ (maze st0) (start st0).1 (start st0).2 PlayerStart Hwf0)
    as (g1 & -> & Hwf1 & Hc1 & Ho1); [simpl; rewrite Hs; simpl; lia..|].
  rewrite bind_Ok. rewrite <- surjective_pairing in Hc1, Ho1.
  set (st1 := set_maze st0 g1).
  assert (gen_shape st1) as Hshape1 by done.
  destruct (seed_frontier_spec st1 steps1 [] Hshape1) as (news & Hseed & Hlen & Hnews);
    [done|].
  rewrite Hseed, app_nil_l.
  destruct (carve_loop_spec (carve_fuel st1) st1 news rs)
    as (st2 & rs2 & -> & Hinv2 & Hsame2 & Hpath2).
  { split; [done|]. split; [done|]. split; [|split; [done|done]].
    intros c m Hc. simpl in Hc.
    destruct (decide (c = start st)) as [->|Hne].
    - change (start st0) with (start st) in Hc1. rewrite Hc1 in Hc. simplify_eq.
      split; [done|]. split; [done|]. intros _. left. simpl. rewrite Hs.
      split; simpl; split; try lia; by apply Lmax_ge_1.
    - rewrite Ho1 in Hc by done. apply all_walls_cell in Hc as ->. done. }
  { pose proof (count_walls_le _ _ _ Hwf1) as Hcw. unfold carve_fuel.
    simpl in Hlen, Hcw |- *. lia. }
  rewrite bind_Ok. cbv beta iota.
  destruct Hinv2 as (Hwf2 & Hshape2 & Hb2 & Hstart2 & _).
  destruct (mark_exit st2 Hwf2 Hshape2 Hb2 Hstart2) as (g3 & -> & Hinv3 & Ho3).
  rewrite bind_Ok. eexists _, _. split; [done|]. split; [done|].
  split; [destruct Hsame2 as (?&?&?&?&?); by repeat split|].
  intros Hempty c Hc. simpl in Hc |- *.
  destruct (decide (c = exit st2)) as [|Hne]; [by right|]. left.
  rewrite Ho3 by done. apply Hpath2; [|done].
  intros z Hz. simpl in Hz. rewrite Hempty in Hz. by apply elem_of_nil in Hz.
Qed.

(** ** [_add_safe_walls] *)

Lemma candidates_row_spec st i js acc :
  gen_wf st → 0 <= i < height st → (∀ j, j ∈ js → 0 <= j < width st) →
  ∃ news, candidates_row st i js acc = Ok (acc ++ news) ∧
          ∀ c, c ∈ news → cell (maze st) c = Some Open.
Proof.
  intros Hwf Hi. revert acc. induction js as [|j js IH]; intros acc Hjs.
  - exists []. rewrite app_nil_r. split; [done|]. by intros c ?%elem_of_nil.
  - simpl. assert (∀ j, j ∈ js → 0 <= j < width st) as Hjs'
      by (intros k Hk; apply Hjs; by right).
    destruct (grid_get_cell _ _ (maze st) i j Hwf Hi) as (m & -> & Hm); [apply Hjs; left|].
    rewrite bind_Ok.
    destruct (bool_decide (m = Open) && bool_decide ((i, j) ∉ _path st)) eqn:Htest.
    + apply andb_true_iff in Htest as [->%bool_decide_eq_true _].
      destruct (IH (acc ++ [(i, j)]) Hjs') as (news & -> & Hnews).
      exists ((i, j) :: news). rewrite <- app_assoc. split; [done|].
      intros c [->|Hc]%elem_of_cons; [done|by apply Hnews].
    + destruct (IH acc Hjs') as (news & -> & Hnews). by exists news.
Qed.

Lemma candidates_rows_spec st rows js acc :
  gen_wf st → (∀ i, i ∈ rows → 0 <= i < height st) →
  (∀ j, j ∈ js → 0 <= j < width st) →
  ∃ news, candidates_rows st rows js acc = Ok (acc ++ news) ∧
          ∀ c, c ∈ news → cell (maze st) c = Some Open.
Proof.
  intros Hwf Hrows Hjs. revert acc Hrows.
  induction rows as [|i rows IH]; intros acc Hrows.
  - exists []. rewrite app_nil_r. split; [done|]. by intros c ?%elem_of_nil.
  - simpl.
    destruct (candidates_row_spec st i js acc Hwf) as (n1 & -> & Hn1);
      [apply Hrows; left|done|].
    rewrite bind_Ok.
    destruct (IH (acc ++ n1)) as (n2 & -> & Hn2); [intros k Hk; apply Hrows; by right|].
    exists (n1 ++ n2). rewrite app_assoc. split; [done|].
    intros c [Hc|Hc]%elem_of_app; auto.
Qed.

Lemma candidate_positions_spec st :
  gen_wf st →
  ∃ cands, candidate_positions st = Ok cands ∧
           ∀ c, c ∈ cands → cell (maze st) c = Some Open.
Proof.
  intros Hwf. unfold candidate_positions.
  destruct (candidates_rows_spec st (py_range 1 (height st - 1))
              (py_range 1 (width st - 1)) [] Hwf) as (news & -> & Hnews).
  - intros i Hi%elem_of_py_range. lia.
  - intros j Hj%elem_of_py_range. lia.
  - by exists news.
Qed.

(** *** The shuffle keeps the elements *)

Lemma elem_of_insert_inv {A} (l : list A) i a z :
  z ∈ <[i := a]> l → z = a ∨ z ∈ l.
Proof.
  revert i. induction l as [|b l IH]; intros [|i]; simpl.
  - by intros ?%elem_of_nil.
  - by intros ?%elem_of_nil.
  - intros [->|Hz]%elem_of_cons; [by left|right; by right].
  - intros [->|Hz]%elem_of_cons; [right; left|].
    destruct (IH _ Hz) as [|]; [by left|right; by right].
Qed.

Lemma swap_spec {A} (x : list A) i j :
  length (swap x i j) = length x ∧ ∀ z, z ∈ swap x i j → z ∈ x.
Proof.
  unfold swap. destruct (x !! i) as [xi|] eqn:Hi; [|done].
  destruct (x !! j) as [xj|] eqn:Hj; [|done].
  split; [by rewrite !length_insert|].
  intros z [->|[->|Hz]%elem_of_insert_inv]%elem_of_insert_inv; [| |done].
  - by eapply list_elem_of_lookup_2.
  - by eapply list_elem_of_lookup_2.
Qed.

Lemma shuffle_loop_spec {A} i (x : list A) rs :
  length (shuffle_loop i x rs).1 = length x ∧
  ∀ z, z ∈ (shuffle_loop i x rs).1 → z ∈ x.
Proof.
  revert x rs. induction i as [|i IH]; intros x rs; [done|].
  cbn [shuffle_loop]. destruct (randbelow (S (S i)) rs) as [j rs1].
  destruct (IH (swap x (S i) j) rs1) as [Hl Hm].
  destruct (swap_spec x (S i) j) as [Hl' Hm'].
  split; [congruence|]. intros z Hz. by apply Hm', Hm.
Qed.

Lemma shuffle_spec {A} (x : list A) rs :
  length (shuffle x rs).1 = length x ∧ ∀ z, z ∈ (shuffle x rs).1 → z ∈ x.
Proof. apply shuffle_loop_spec. Qed.

(** *** Trial and rollback *)

Lemma set_maze_id st : set_maze st (maze st) = st.
Proof. by destruct st. Qed.

Lemma grid_set_restore h w g x y m m0 g1 :
  grid_wf h w g → 0 <= x < h → 0 <= y < w →
  cell g (x, y) = Some m0 → grid_set g x y m = Ok g1 →
  grid_set g1 x y m0 = Ok g.
Proof.
  intros Hwf Hx Hy Hm0 Hg1.
  destruct (grid_set_cell _ _ g x y m Hwf Hx Hy) as (g1' & Hg1' & Hwf1 & Hc1 & Ho1).
  rewrite Hg1 in Hg1'. simplify_eq.
  destruct (grid_set_cell _ _ g1' x y m0 Hwf1 Hx Hy) as (g2 & -> & Hwf2 & Hc2 & Ho2).
  f_equal. apply (grid_ext h w); [done|done|].
  intros c. destruct (decide (c = (x, y))) as [->|Hne]; [congruence|].
  by rewrite Ho2, Ho1.
Qed.

Lemma safe_walls_loop_unfold st x y rest wall_count added_walls :
  safe_walls_loop st ((x, y) :: rest) wall_count added_walls =
  if bool_decide (added_walls >= wall_count) then Ok (st, added_walls)
  else
    original ← grid_get (maze st) x y;
    g1 ← grid_set (maze st) x y Wall;
    ok ← _validate_maze (set_maze st g1);
    if ok : bool then safe_walls_loop (set_maze st g1) rest wall_count (added_walls + 1)
    else
      g2 ← grid_set g1 x y original;
      safe_walls_loop (set_maze (set_maze st g1) g2) rest wall_count added_walls.
Proof. reflexivity. Qed.

Lemma safe_walls_loop_spec st cands wall_count added :
  gen_wf st →
  (∀ c, c ∈ cands → 0 <= c.1 < height st ∧ 0 <= c.2 < width st) →
  ∃ st' added',
    safe_walls_loop st cands wall_count added = Ok (st', added') ∧
    gen_wf st' ∧ same_shape st st' ∧ _path st' = _path st ∧
    (connected st → connected st') ∧
    (∀ c, cell (maze st') c = cell (maze st) c ∨
          (c ∈ cands ∧ cell (maze st') c = Some Wall)) ∧
    added <= added' <= added + Z.of_nat (length cands) ∧
    (added <= wall_count → added' <= wall_count).
Proof.
  revert st added. induction cands as [|[x y] rest IH]; intros st added Hwf Hc.
  - exists st, added. split; [done|]. split; [done|].
    split; [apply same_shape_refl|]. split; [done|]. split; [done|].
    split; [by left|]. simpl. lia.
  - rewrite safe_walls_loop_unfold. case_bool_decide as Hfull.
    { exists st, added. split; [done|]. split; [done|].
      split; [apply same_shape_refl|]. split; [done|]. split; [done|].
      split; [by left|]. simpl. lia. }
    destruct (Hc (x, y)) as [Hx Hy]; [left|]. simpl in Hx, Hy.
    assert (∀ c, c ∈ rest → 0 <= c.1 < height st ∧ 0 <= c.2 < width st) as Hc'
      by (intros c ?; apply Hc; by right).
    destruct (grid_get_cell _ _ (maze st) x y Hwf Hx Hy) as (m0 & -> & Hm0).
    rewrite bind_Ok.
    destruct (grid_set_cell _ _ (maze st) x y Wall Hwf Hx Hy)
      as (g1 & Hg1 & Hwf1 & Hc1 & Ho1).
    rewrite Hg1, bind_Ok.
    destruct (validate_maze_spec (set_maze st g1) Hwf1) as (ok & -> & Hok).
    rewrite bind_Ok. destruct ok.
    + destruct (IH (set_maze st g1) (added + 1) Hwf1 Hc')
        as (st' & added' & -> & Hwf' & Hsame & Hpath & Hconn & Hcells & Hcount & Hle).
      exists st', added'. split; [done|]. split; [done|]. split; [done|].
      split; [done|]. split; [intros _; apply Hconn; by apply Hok|].
      split; [|simpl; lia].
      intros c. destruct (Hcells c) as [Heq|[Hin Hw]].
      * destruct (decide (c = (x, y))) as [->|Hne].
        -- right. split; [left|]. simpl in Heq. congruence.
        -- left. rewrite Heq. simpl. by apply Ho1.
      * right. split; [by right|done].
    + rewrite (grid_set_restore _ _ _ _ _ _ _ _ Hwf Hx Hy Hm0 Hg1), bind_Ok.
      change (set_maze (set_maze st g1) (maze st)) with (set_maze st (maze st)).
      rewrite set_maze_id.
      destruct (IH st added Hwf Hc')
        as (st' & added' & -> & Hwf' & Hsame & Hpath & Hconn & Hcells & Hcount & Hle).
      exists st', added'. split; [done|]. split; [done|]. split; [done|].
      split; [done|]. split; [done|]. split; [|simpl; lia].
      intros c. destruct (Hcells c) as [Heq|[Hin Hw]]; [by left|].
      right. split; [by right|done].
Qed.

Lemma candidates_row_length st i js acc acc' :
  candidates_row st i js acc = Ok acc' → (length acc' <= length acc + length js)%nat.
Proof.
  revert acc. induction js as [|j js IH]; intros acc Hrun.
  - simpl in Hrun. simplify_eq. simpl. lia.
  - simpl in Hrun. destruct (grid_get (maze st) i j) as [c|e]; [|done].
    rewrite bind_Ok in Hrun.
    destruct (bool_decide (c = Open) && bool_decide ((i, j) ∉ _path st)).
    + apply IH in Hrun. rewrite length_app in Hrun. simpl in *. lia.
    + apply IH in Hrun. simpl. lia.
Qed.

Lemma candidates_rows_length st rows js acc acc' :
  candidates_rows st rows js acc = Ok acc' →
  (length acc' <= length acc + length rows * length js)%nat.
Proof.
  revert acc. induction rows as [|i rows IH]; intros acc Hrun.
  - simpl in Hrun. simplify_eq. simpl. lia.
  - simpl in Hrun. destruct (candidates_row st i js acc) as [acc1|e] eqn:Hrow; [|done].
    rewrite bind_Ok in Hrun. apply candidates_row_length in Hrow.
    apply IH in Hrun. simpl. lia.
Qed.

(** There are at most as many candidates as interior cells. *)
Lemma candidate_positions_length st cands :
  candidate_positions st = Ok cands →
  Z.of_nat (length cands) <= Z.max 0 (height st - 2) * Z.max 0 (width st - 2).
Proof.
  intros Hrun. apply candidates_rows_length in Hrun.
  unfold py_range in Hrun. rewrite !length_seqZ in Hrun. simpl in Hrun. nia.
Qed.

Lemma wall_count_nonneg st n : (0 <= difficulty st)%Q → 0 <= wall_count_of st n.
Proof.
  intros Hd. unfold wall_count_of, float_mul, float_of_int.
  apply py_int_nonneg, to_float_nonneg. apply Qmult_le_0_compat; [|done].
  apply to_float_nonneg. change 0%Q with (inject_Z 0). rewrite <- Zle_Qle. lia.
Qed.

(** The float product is the exact product rounded: the count is the
    floor of the exact product or one more. *)
Lemma wall_count_range st n :
  (0 <= difficulty st)%Q → (difficulty st <= 1)%Q → Z.of_nat n <= 2 ^ 53 - 1 →
  Qfloor (inject_Z (Z.of_nat n) * difficulty st) <= wall_count_of st n
    <= Qfloor (inject_Z (Z.of_nat n) * difficulty st) + 1 ∧
  wall_count_of st n <= Z.of_nat n.
Proof.
  intros Hd0 Hd1 Hn. unfold wall_count_of, float_mul, float_of_int.
  set (N := Z.of_nat n) in *. set (d := difficulty st) in *.
  assert (0 <= inject_Z N)%Q as HN
    by (change 0%Q with (inject_Z 0); rewrite <- Zle_Qle; lia).
  assert (to_float (inject_Z N) == inject_Z N)%Q as HfN by (apply to_float_Z; lia).
  assert (py_int (to_float (to_float (inject_Z N) * d)) =
          py_int (to_float (inject_Z N * d))) as ->.
  { apply py_int_proper. by rewrite HfN. }
  set (x := (inject_Z N * d)%Q). set (k := Qfloor x).
  pose proof (Qfloor_le x) as Hk1. pose proof (Qlt_floor x) as Hk2. fold k in Hk1, Hk2.
  assert (0 <= x)%Q as Hx0 by (unfold x; nra).
  assert (x <= inject_Z N)%Q as HxN by (unfold x; nra).
  assert (0 <= k) as Hk0.
  { change 0 with (Qfloor 0). by apply Qfloor_resp_le. }
  assert (k <= N) as HkN.
  { rewrite <- (Qfloor_Z N). by apply Qfloor_resp_le. }
  split; [split|].
  - rewrite <- (py_int_Z k) at 1. apply py_int_mono.
    rewrite <- (to_float_Z k) by lia. by apply to_float_mono.
  - rewrite <- (py_int_Z (k + 1)). apply py_int_mono.
    rewrite <- (to_float_Z (k + 1)) by lia. apply to_float_mono. lra.
  - rewrite <- (py_int_Z N). apply py_int_mono.
    rewrite <- HfN. by apply to_float_mono.
Qed.

Lemma add_safe_walls_counted_spec st rs :
  gen_wf st →
  ∃ cands st' added rs',
    candidate_positions st = Ok cands ∧
    add_safe_walls_counted st rs = Ok (st', added, rs') ∧
    gen_wf st' ∧ same_shape st st' ∧ _path st' = _path st ∧
    (connected st → connected st') ∧
    (∀ c, cell (maze st') c = cell (maze st) c ∨
          (cell (maze st) c = Some Open ∧ cell (maze st') c = Some Wall)) ∧
    0 <= added <= Z.of_nat (length cands) ∧
    (0 <= wall_count_of st (length cands) → added <= wall_count_of st (length cands)).
Proof.
  intros Hwf. unfold add_safe_walls_counted.
  destruct (candidate_positions_spec st Hwf) as (cands & Hcands & Hopen).
  rewrite Hcands, bind_Ok.
  destruct (shuffle_spec cands rs) as [Hlen Hmem].
  destruct (shuffle cands rs) as [shuffled rs1]. simpl in Hlen, Hmem.
  destruct (safe_walls_loop_spec st shuffled (wall_count_of st (length cands)) 0 Hwf)
    as (st' & added & -> & Hwf' & Hsame & Hpath & Hconn & Hcells & Hcount & Hle).
  { intros c Hc. eapply cell_Some_bounds; [exact Hwf|]. by apply Hopen, Hmem. }
  rewrite bind_Ok. exists cands, st', added, rs1.
  split; [done|]. split; [done|]. split; [done|]. split; [done|]. split; [done|].
  split; [done|]. split; [|split; [lia|done]].
  intros c. destruct (Hcells c) as [|[Hin Hw]]; [by left|].
  right. split; [|done]. by apply Hopen, Hmem.
Qed.

Lemma add_safe_walls_spec st rs :
  maze_inv st →
  ∃ st' rs', _add_safe_walls st rs = Ok (st', rs') ∧ maze_inv st' ∧
             same_shape st st' ∧ _path st' = _path st ∧
             (connected st → connected st').
Proof.
  intros (Hwf & Hshape & Hb & Hexit & Hstart).
  destruct (add_safe_walls_counted_spec st rs Hwf)
    as (cands & st' & added & rs' & _ & Hrun & Hwf' & Hsame & Hpath & Hconn & Hcells & _).
  unfold _add_safe_walls. rewrite Hrun, bind_Ok.
  exists st', rs'. split; [done|]. split; [|done].
  destruct Hsame as (Hw' & Hh' & Hd' & Hs' & He').
  split; [done|]. split.
  { destruct Hshape as (?&?&?&?). unfold gen_shape. by rewrite Hw', Hh', Hs', He'. }
  split; [|split].
  - intros c m Hc. unfold in_box. rewrite Hw', Hh', Hs', He'.
    destruct (Hcells c) as [Heq|[_ Hw]].
    + rewrite Heq in Hc. by apply Hb.
    + rewrite Hw in Hc. by simplify_eq.
  - rewrite He'. destruct (Hcells (exit st)) as [->|[Ho _]]; [done|congruence].
  - rewrite Hs', He'. intros Hne.
    destruct (Hcells (start st)) as [->|[Ho _]]; [by apply Hstart|].
    rewrite Hstart in Ho by done. done.
Qed.

(** ** [_generate_fallback_maze] *)

Lemma if_bool_decide_ext {A} (P Q : Prop) `{Decision P, Decision Q} (a b : A) :
  (P ↔ Q) →
  (if bool_decide P then a else b) = (if bool_decide Q then a else b).
Proof. intros HPQ. by rewrite (bool_decide_ext P Q HPQ). Qed.

Lemma fallback_row_spec h w g i js :
  grid_wf h w g → 0 <= i < h → (∀ j, j ∈ js → 0 <= j < w) →
  ∃ g', fallback_row g i js = Ok g' ∧ grid_wf h w g' ∧
        ∀ c : coord, cell g' c =
          if bool_decide (c.1 = i ∧ c.2 ∈ js ∧ odd c.1 ∧ odd c.2)
          then Some Open else cell g c.
Proof.
  intros Hwf Hi. revert g Hwf. induction js as [|j js IH]; intros g Hwf Hjs.
  - exists g. split; [done|]. split; [done|]. intros c.
    rewrite bool_decide_eq_false_2; [done|]. intros (_ & ?%elem_of_nil & _). done.
  - assert (∀ j, j ∈ js → 0 <= j < w) as Hjs' by (intros k Hk; apply Hjs; by right).
    simpl. destruct (bool_decide (i `mod` 2 = 1) && bool_decide (j `mod` 2 = 1)) eqn:Hodd.
    + apply andb_true_iff in Hodd as [Hoi%bool_decide_eq_true Hoj%bool_decide_eq_true].
      destruct (grid_set_cell _ _ g i j Open Hwf Hi) as (g1 & -> & Hwf1 & Hc1 & Ho1);
        [apply Hjs; left|].
      rewrite bind_Ok. destruct (IH g1 Hwf1 Hjs') as (g' & -> & Hwf' & Hcells).
      exists g'. split; [done|]. split; [done|]. intros c. rewrite Hcells.
      destruct (decide (c = (i, j))) as [->|Hne].
      * rewrite Hc1. simpl. rewrite (bool_decide_eq_true_2 (_ ∧ j ∈ j :: js ∧ _)).
        -- by case_bool_decide.
        -- split; [done|]. split; [left|done].
      * rewrite Ho1 by done. apply if_bool_decide_ext.
        rewrite elem_of_cons. destruct c as [cx cy]. simpl in *.
        split; [tauto|]. intros (-> & [->|?] & ?); [done|tauto].
    + destruct (IH g Hwf Hjs') as (g' & -> & Hwf' & Hcells).
      exists g'. split; [done|]. split; [done|]. intros c. rewrite Hcells.
      apply if_bool_decide_ext. rewrite elem_of_cons. split; [tauto|].
      intros (-> & [->|?] & Hoi & Hoj); [|tauto]. exfalso.
      apply andb_false_iff in Hodd as [Ho|Ho]; apply bool_decide_eq_false in Ho; done.
Qed.

Lemma fallback_rows_spec h w g rows js :
  grid_wf h w g → (∀ i, i ∈ rows → 0 <= i < h) → (∀ j, j ∈ js → 0 <= j < w) →
  ∃ g', fallback_rows g rows js = Ok g' ∧ grid_wf h w g' ∧
        ∀ c : coord, cell g' c =
          if bool_decide (c.1 ∈ rows ∧ c.2 ∈ js ∧ odd c.1 ∧ odd c.2)
          then Some Open else cell g c.
Proof.
  intros Hwf Hrows Hjs. revert g Hwf Hrows.
  induction rows as [|i rows IH]; intros g Hwf Hrows.
  - exists g. split; [done|]. split; [done|]. intros c.
    rewrite bool_decide_eq_false_2; [done|]. intros (?%elem_of_nil & _). done.
  - simpl. destruct (fallback_row_spec h w g i js Hwf) as (g1 & -> & Hwf1 & Hc1);
      [apply Hrows; left|done|].
    rewrite bind_Ok.
    destruct (IH g1 Hwf1) as (g' & -> & Hwf' & Hcells);
      [intros k Hk; apply Hrows; by right|].
    exists g'. split; [done|]. split; [done|]. intros c.
    rewrite Hcells, Hc1.
    repeat case_bool_decide; try done; exfalso;
      rewrite ?elem_of_cons in *; tauto.
Qed.

Lemma fallback_spec st :
  gen_wf st → gen_shape st →
  ∃ st', _generate_fallback_maze st = Ok st' ∧ gen_wf st' ∧
         same_shape st st' ∧ _path st' = _path st ∧
         ∀ c : coord, cell (maze st') c =
           if bool_decide (c = exit st) then Some ExitDoor
           else if bool_decide (c = start st) then Some PlayerStart
           else if bool_decide ((0 < c.1 < height st - 1 ∧ 0 < c.2 < width st - 1)
                                ∧ odd c.1 ∧ odd c.2)
                then Some Open
                else cell (maze st) c.
Proof.
  intros Hwf (Hh & Hw & Hs & He). unfold _generate_fallback_maze.
  destruct (fallback_rows_spec _ _ (maze st) (py_range 1 (height st - 1))
              (py_range 1 (width st - 1)) Hwf) as (g1 & -> & Hwf1 & Hc1).
  { intros i Hi%elem_of_py_range. lia. }
  { intros j Hj%elem_of_py_range. lia. }
  rewrite bind_Ok.
  destruct (grid_set_cell _ _ g1 (start st).1 (start st).2 PlayerStart Hwf1)
    as (g2 & -> & Hwf2 & Hc2 & Ho2); [rewrite Hs; simpl; lia..|].
  rewrite bind_Ok.
  destruct (grid_set_cell _ _ g2 (exit st).1 (exit st).2 ExitDoor Hwf2)
    as (g3 & -> & Hwf3 & Hc3 & Ho3); [rewrite He; simpl; lia..|].
  rewrite bind_Ok. rewrite <- surjective_pairing in Hc2, Ho2, Hc3, Ho3.
  eexists. split; [done|]. split; [done|]. split; [by repeat split|].
  split; [done|]. intros c. simpl.
  case_bool_decide as Hex; [by subst|]. rewrite Ho3 by done.
  case_bool_decide as Hst; [by subst|]. rewrite Ho2 by done.
  rewrite Hc1. apply if_bool_decide_ext. rewrite !elem_of_py_range.
  unfold odd. lia.
Qed.

Lemma fallback_maze_inv st :
  gen_wf st → gen_shape st → bounded st →
  ∃ st', _generate_fallback_maze st = Ok st' ∧ maze_inv st' ∧
         same_shape st st' ∧ _path st' = _path st.
Proof.
  intros Hwf Hshape Hb.
  destruct (fallback_spec st Hwf Hshape) as (st' & Hrun & Hwf' & Hsame & Hpath & Hcells).
  exists st'. split; [done|]. split; [|done].
  pose proof Hshape as (Hh & Hw & Hs & He).
  destruct Hsame as (Hw' & Hh' & Hd' & Hs' & He').
  split; [done|]. split; [unfold gen_shape; by rewrite Hw', Hh', Hs', He'|].
  split; [|split].
  - intros c m Hc. unfold in_box. rewrite Hw', Hh', Hs', He'.
    rewrite Hcells in Hc. case_bool_decide as Hex.
    { simplify_eq. split; [done|]. split; [done|]. by right. }
    case_bool_decide as Hst.
    { simplify_eq. split; [done|]. split; [done|]. intros _. left.
      rewrite Hs. simpl. split; (split; [lia|by apply Lmax_ge_1]). }
    case_bool_decide as Hodd.
    { simplify_eq. split; [done|]. split; [done|]. intros _. left.
      destruct c as [cx cy]. simpl in Hodd. destruct Hodd as ((? & ?) & ? & ?).
      by apply (odd_in_box st). }
    by apply Hb.
  - rewrite He', Hcells. by rewrite bool_decide_eq_true_2.
  - rewrite Hs', He'. intros Hne. rewrite Hcells.
    rewrite bool_decide_eq_false_2 by done. by rewrite bool_decide_eq_true_2.
Qed.

(** ** [generate] *)

Lemma attempt_spec st rs :
  gen_shape st →
  ∃ r st' rs',
    attempt st rs = Ok (r, st', rs') ∧ maze_inv st' ∧ same_shape st st' ∧
    match r with
    | Some g => g = maze st' ∧ connected st'
    | None => ¬ connected st'
    end.
Proof.
  intros Hshape. unfold attempt.
  destruct (base_maze_spec st rs Hshape) as (st1 & rs1 & -> & Hinv1 & Hsame1 & _).
  rewrite bind_Ok. cbv beta iota.
  destruct (validate_maze_spec st1 (proj1 Hinv1)) as (ok1 & -> & Hok1).
  rewrite bind_Ok. destruct ok1.
  - destruct (add_safe_walls_spec st1 rs1 Hinv1)
      as (st2 & rs2 & -> & Hinv2 & Hsame2 & _ & Hconn).
    rewrite bind_Ok. cbv beta iota.
    destruct (validate_maze_spec st2 (proj1 Hinv2)) as (ok2 & -> & Hok2).
    rewrite bind_Ok.
    assert (same_shape st st2) as Hsame by (by eapply same_shape_trans).
    destruct ok2.
    + eexists _, _, _. split; [done|]. split; [done|]. split; [done|].
      split; [done|]. by apply Hok2.
    + eexists _, _, _. split; [done|]. split; [done|]. split; [done|].
      intros Hc. by apply Hok2 in Hc.
  - eexists _, _, _. split; [done|]. split; [done|]. split; [done|].
    intros Hc. by apply Hok1 in Hc.
Qed.

Lemma generate_loop_spec n done st rs :
  gen_wf st → gen_shape st → bounded st →
  ∃ g k st' rs',
    generate_loop n done st rs = Ok (g, k, st', rs') ∧
    g = maze st' ∧ maze_inv st' ∧ same_shape st st' ∧
    (done <= k <= done + n)%nat ∧
    (k < done + n → connected st')%nat.
Proof.
  revert done st rs. induction n as [|n IH]; intros done st rs Hwf Hshape Hb.
  - simpl. destruct (fallback_maze_inv st Hwf Hshape Hb) as (st' & -> & Hinv & Hsame & _).
    rewrite bind_Ok. eexists _, _, _, _. split; [done|]. split; [done|].
    split; [done|]. split; [done|]. lia.
  - cbn [generate_loop].
    destruct (attempt_spec st rs Hshape) as (r & st1 & rs1 & -> & Hinv1 & Hsame1 & Hr).
    rewrite bind_Ok. cbv beta iota. destruct r as [g|].
    + destruct Hr as [-> Hconn]. eexists _, _, _, _. split; [done|]. split; [done|].
      split; [done|]. split; [done|]. split; [lia|done].
    + destruct Hinv1 as (Hwf1 & Hshape1 & Hb1 & Hrest).
      destruct (IH (S done) st1 rs1 Hwf1 Hshape1 Hb1)
        as (g & k & st' & rs' & -> & Hg & Hinv' & Hsame' & Hk & Hconn).
      eexists _, _, _, _. split; [done|]. split; [done|]. split; [done|].
      split; [by eapply same_shape_trans|]. split; [lia|].
      intros Hlt. apply Hconn. lia.
Qed.

Lemma init_ok w h d :
  3 <= w → 3 <= h →
  gen_wf (__init__ w h d) ∧ gen_shape (__init__ w h d) ∧ bounded (__init__ w h d).
Proof.
  intros Hw Hh. split; [apply all_walls_wf|]. split; [done|].
  intros c m Hc. simpl in Hc. apply all_walls_cell in Hc as ->. done.
Qed.

Lemma generate_spec w h d rs :
  3 <= w → 3 <= h →
  ∃ g k st' rs',
    generate_run (__init__ w h d) rs = Ok (g, k, st', rs') ∧
    generate w h d rs = Ok g ∧
    g = maze st' ∧ maze_inv st' ∧ width st' = w ∧ height st' = h ∧
    (k <= max_attempts)%nat ∧ (k < max_attempts → connected st')%nat.
Proof.
  intros Hw Hh. destruct (init_ok w h d Hw Hh) as (Hwf & Hshape & Hb).
  destruct (generate_loop_spec max_attempts 0 (__init__ w h d) rs Hwf Hshape Hb)
    as (g & k & st' & rs' & Hrun & Hg & Hinv & Hsame & Hk & Hconn).
  exists g, k, st', rs'. unfold generate, generate_run. rewrite Hrun.
  split; [done|]. split; [done|]. split; [done|]. split; [done|].
  destruct Hsame as (Hw' & Hh' & _). split; [done|]. split; [done|].
  split; [lia|]. intros Hlt. apply Hconn. lia.
Qed.

(** ** Even dimensions: the exit is walled in *)

Lemma reachable_last st a b : reachable st a b → a = b ∨ passable st b.
Proof.
  intros Hr. apply rtc_inv_r in Hr as [->|(c & _ & _ & Hp)]; [by left|by right].
Qed.

Lemma even_not_connected st :
  gen_wf st → gen_shape st → bounded st →
  height st `mod` 2 = 0 → width st `mod` 2 = 0 → ¬ connected st.
Proof.
  intros Hwf (Hh & Hw & Hs & He) Hb Heh Hew Hconn. unfold connected in Hconn.
  assert (Lmax (height st) = height st - 3) as HLh.
  { unfold Lmax. Z.div_mod_to_equations. lia. }
  assert (Lmax (width st) = width st - 3) as HLw.
  { unfold Lmax. Z.div_mod_to_equations. lia. }
  apply rtc_inv_r in Hconn as [Heq|(c & Hsc & Hadj & _)].
  { rewrite Hs, He in Heq. simplify_eq. Z.div_mod_to_equations. lia. }
  unfold adjacent in Hadj. rewrite He in Hadj. simpl in Hadj.
  apply reachable_last in Hsc as [<-|[_ (m & Hm & Hnw)]].
  - rewrite Hs in Hadj. simpl in Hadj. Z.div_mod_to_equations. lia.
  - destruct (Hb c m Hm) as (_ & _ & Hbox). destruct (Hbox Hnw) as [[Hx Hy]| ->].
    + rewrite HLh in Hx. rewrite HLw in Hy. lia.
    + rewrite He in Hadj. simpl in Hadj. lia.
Qed.

(** ** The path is only ever appended to *)

Lemma grow_frontier_path st p x y ds frontier :
  grow_frontier (set_path st p) x y ds frontier = grow_frontier st x y ds frontier.
Proof.
  revert frontier. induction ds as [|[dx dy] ds IH]; intros frontier; [done|].
  cbn [grow_frontier].
  change (interior (set_path st p)) with (interior st).
  change (maze (set_path st p)) with (maze st).
  destruct (interior st (x + dx) (y + dy)); [|apply IH].
  destruct (grid_get (maze st) (x + dx) (y + dy)) as [c|]; [|done].
  rewrite !bind_Ok. case_bool_decide; apply IH.
Qed.

Lemma seed_frontier_path st p ds frontier :
  seed_frontier (set_path st p) ds frontier = seed_frontier st ds frontier.
Proof.
  revert frontier. induction ds as [|[dx dy] ds IH]; intros frontier; [done|].
  cbn [seed_frontier].
  change (interior (set_path st p)) with (interior st).
  change (start (set_path st p)) with (start st).
  destruct (interior st _ _); apply IH.
Qed.

Lemma carve_loop_path fuel st p frontier rs :
  carve_loop fuel (set_path st p) frontier rs =
  '(st', rs') ← carve_loop fuel (set_path st []) frontier rs;
  Ok (set_path st' (p ++ _path st'), rs').
Proof.
  revert st p frontier rs. induction fuel as [|fuel IH]; intros st p frontier rs.
  - destruct frontier; [|done]. simpl. by rewrite app_nil_r.
  - destruct frontier as [|e frontier0]; [simpl; by rewrite app_nil_r|].
    rewrite !carve_loop_unfold.
    destruct (randint _ _ rs) as [[k rs1]|err]; [|done].
    rewrite !bind_Ok. cbv beta iota.
    destruct (py_pop _ k) as [[[[x y] parent] frontier1]|err]; [|done].
    rewrite !bind_Ok. cbv beta iota.
    change (maze (set_path st p)) with (maze st).
    change (maze (set_path st [])) with (maze st).
    destruct (grid_get (maze st) x y) as [c|err]; [|done].
    rewrite !bind_Ok. case_bool_decide; [|apply IH].
    destruct (grid_set (maze st) _ _ Open) as [g1|err]; [|done].
    rewrite !bind_Ok.
    destruct (grid_set g1 x y Open) as [g2|err]; [|done].
    rewrite !bind_Ok.
    change (set_path (set_maze (set_path st p) g2) (_path (set_path st p) ++ [(x, y)]))
      with (set_path (set_maze st g2) (p ++ [(x, y)])).
    change (set_path (set_maze (set_path st []) g2) (_path (set_path st []) ++ [(x, y)]))
      with (set_path (set_maze st g2) [(x, y)]).
    rewrite !grow_frontier_path.
    destruct (grow_frontier (set_maze st g2) x y steps2 frontier1) as [frontier2|err];
      [|done].
    rewrite !bind_Ok.
    rewrite (IH (set_maze st g2) (p ++ [(x, y)])).
    rewrite (IH (set_maze st g2) [(x, y)]).
    destruct (carve_loop fuel (set_path (set_maze st g2) []) frontier2 rs1)
      as [[st' rs']|err]; [|done].
    rewrite !bind_Ok. cbv beta iota. rewrite ?bind_Ok. simpl.
    by rewrite <- app_assoc.
Qed.

Lemma base_maze_path st rs :
  _generate_base_maze st rs =
  '(st', rs') ← _generate_base_maze (set_path st []) rs;
  Ok (set_path st' (_path st ++ _path st'), rs').
Proof.
  unfold _generate_base_maze.
  cbn [width height maze start exit _path set_path set_maze difficulty].
  destruct (grid_set _ _ _ PlayerStart) as [g1|err]; [|done].
  rewrite !bind_Ok.
  change (set_maze (set_maze st (all_walls (width st) (height st))) g1)
    with (set_path (set_maze st g1) (_path st)).
  change (set_maze (set_maze (set_path st []) (all_walls (width st) (height st))) g1)
    with (set_path (set_maze st g1) []).
  rewrite !seed_frontier_path.
  change (carve_fuel (set_path (set_maze st g1) (_path st)))
    with (carve_fuel (set_maze st g1)).
  change (carve_fuel (set_path (set_maze st g1) []))
    with (carve_fuel (set_maze st g1)).
  rewrite (carve_loop_path _ (set_maze st g1) (_path st)).
  destruct (carve_loop _ (set_path (set_maze st g1) []) _ rs) as [[st2 rs2]|err]; [|done].
  rewrite !bind_Ok. cbv beta iota. rewrite ?bind_Ok.
  change (maze (set_path st2 _)) with (maze st2).
  change (exit (set_path st2 _)) with (exit st2).
  destruct (grid_set (maze st2) _ _ ExitDoor) as [g3|err]; [|done].
  rewrite !bind_Ok. cbv beta iota. by rewrite ?bind_Ok.
Qed.

(** ** The carve spans the odd lattice *)

Lemma reachable_mono st st' a b :
  (∀ c, passable st c → passable st' c) →
  reachable st a b → reachable st' a b.
Proof.
  intros Hp Hr. induction Hr as [|a b c [Hadj Hb] _ IH]; [apply rtc_refl|].
  eapply rtc_l; [|exact IH]. split; [done|by apply Hp].
Qed.

Lemma interior_true st x y :
  interior st x y = true ↔ 0 < x < height st - 1 ∧ 0 < y < width st - 1.
Proof.
  unfold interior. by rewrite andb_true_iff, !bool_decide_eq_true.
Qed.

Lemma grow_frontier_covers st x y ds frontier frontier' :
  gen_wf st →
  grow_frontier st x y ds frontier = Ok frontier' →
  (∀ e, e ∈ frontier → e ∈ frontier') ∧
  (∀ e, e ∈ frontier' → e ∈ frontier ∨ e.2 = (x, y)) ∧
  (∀ d, d ∈ ds → interior st (x + d.1) (y + d.2) = true →
        passable st (x + d.1, y + d.2) ∨ (x + d.1, y + d.2, (x, y)) ∈ frontier').
Proof.
  intros Hwf. revert frontier.
  induction ds as [|[dx dy] ds IH]; intros frontier Hrun.
  - simpl in Hrun. simplify_eq. split; [done|]. split; [by left|].
    by intros d ?%elem_of_nil.
  - cbn [grow_frontier] in Hrun.
    destruct (interior st (x + dx) (y + dy)) eqn:Hin.
    + pose proof Hin as [Hix Hiy]%interior_true.
      destruct (grid_get_cell _ _ (maze st) (x + dx) (y + dy) Hwf) as (m & Hget & Hm);
        [lia..|].
      rewrite Hget, bind_Ok in Hrun. case_bool_decide as Hwall.
      * destruct (IH _ Hrun) as (Hsub & Hpar & Hcov).
        split; [|split].
        -- intros e He. apply Hsub, elem_of_app. by left.
        -- intros e He. destruct (Hpar e He) as [[?|Hnew]%elem_of_app|?];
             [by left| |by right].
           apply list_elem_of_singleton in Hnew as ->. by right.
        -- intros d [->|Hd]%elem_of_cons Hint; [|by apply Hcov].
           right. apply Hsub, elem_of_app. right. by apply list_elem_of_singleton.
      * destruct (IH _ Hrun) as (Hsub & Hpar & Hcov).
        split; [done|]. split; [done|].
        intros d [->|Hd]%elem_of_cons Hint; [|by apply Hcov].
        left. split; [simpl; lia|]. by exists m.
    + destruct (IH _ Hrun) as (Hsub & Hpar & Hcov).
      split; [done|]. split; [done|].
      intros d [->|Hd]%elem_of_cons Hint; [|by apply Hcov].
      simpl in Hint. congruence.
Qed.

Lemma seed_frontier_covers st ds frontier :
  (∀ e, e ∈ frontier → e ∈ seed_frontier st ds frontier) ∧
  (∀ e, e ∈ seed_frontier st ds frontier → e ∈ frontier ∨ e.2 = start st) ∧
  (∀ d, d ∈ ds →
        interior st ((start st).1 + d.1 * 2) ((start st).2 + d.2 * 2) = true →
        ((start st).1 + d.1 * 2, (start st).2 + d.2 * 2, start st)
          ∈ seed_frontier st ds frontier).
Proof.
  revert frontier. induction ds as [|[dx dy] ds IH]; intros frontier.
  - split; [done|]. split; [by left|]. by intros d ?%elem_of_nil.
  - cbn [seed_frontier].
    destruct (interior st _ _) eqn:Hin.
    + destruct (IH (frontier ++ [((start st).1 + dx * 2, (start st).2 + dy * 2, start st)]))
        as (Hsub & Hpar & Hcov).
      split; [|split].
      * intros e He. apply Hsub, elem_of_app. by left.
      * intros e He. destruct (Hpar e He) as [[?|Hnew]%elem_of_app|?];
          [by left| |by right].
        apply list_elem_of_singleton in Hnew as ->. by right.
      * intros d [->|Hd]%elem_of_cons Hint; [|by apply Hcov].
        apply Hsub, elem_of_app. right. by apply list_elem_of_singleton.
    + destruct (IH frontier) as (Hsub & Hpar & Hcov).
      split; [done|]. split; [done|].
      intros d [->|Hd]%elem_of_cons Hint; [|by apply Hcov].
      simpl in Hint. congruence.
Qed.

Lemma entry_mid_adjacent st x y (p : coord) :
  entry_ok st (x, y, p) →
  adjacent p ((x + p.1) `div` 2, (y + p.2) `div` 2) ∧
  adjacent ((x + p.1) `div` 2, (y + p.2) `div` 2) (x, y) ∧
  ¬ (odd ((x + p.1) `div` 2) ∧ odd ((y + p.2) `div` 2)).
Proof.
  destruct p as [px py]. unfold entry_ok, odd, adjacent. simpl.
  intros (Hi & Hp & Hx & Hy & Hpx & Hpy & Hd).
  assert ((x = px + 2 ∧ y = py) ∨ (x = px - 2 ∧ y = py) ∨
          (x = px ∧ y = py + 2) ∨ (x = px ∧ y = py - 2)) as Hcases.
  { clear Hi Hp. Z.div_mod_to_equations. lia. }
  destruct Hcases as [[-> ->]|[[-> ->]|[[-> ->]|[-> ->]]]];
    (split; [|split]); Z.div_mod_to_equations; lia.
Qed.

Lemma carve_loop_tree fuel st frontier rs st' rs' :
  carve_inv st frontier → tree_inv st frontier →
  carve_loop fuel st frontier rs = Ok (st', rs') → tree_inv st' [].
Proof.
  revert st frontier rs.
  induction fuel as [|fuel IH]; intros st frontier rs Hinv Htree Hrun.
  - destruct frontier; [|done]. simpl in Hrun. by simplify_eq.
  - destruct frontier as [|e frontier0]; [simpl in Hrun; by simplify_eq|].
    rewrite carve_loop_unfold in Hrun.
    destruct (randint_spec 0 (Z.of_nat (length (e :: frontier0)) - 1) rs)
      as (k & rs1 & Hk & Hkr); [simpl; lia|].
    rewrite Hk, bind_Ok in Hrun. cbv beta iota in Hrun.
    destruct (py_pop_spec (e :: frontier0) k)
      as ([[x y] p] & frontier1 & Hpop & He & Hlen & Hsub & Hsplit); [lia|].
    rewrite Hpop, bind_Ok in Hrun. cbv beta iota in Hrun.
    destruct Hinv as (Hwf & Hshape & Hb & Hstart & Hfr).
    destruct Htree as (HR & HP & HF).
    assert (entry_ok st (x, y, p)) as Hentry by (rewrite Forall_forall in Hfr; by apply Hfr).
    assert (Forall (entry_ok st) frontier1) as Hfr1.
    { rewrite Forall_forall in *. intros z Hz. by apply Hfr, Hsub. }
    pose proof Hentry as (Hi & _ & Hx & Hy & _).
    destruct (grid_get_cell _ _ (maze st) x y Hwf) as (c & Hget & Hc); [lia..|].
    rewrite Hget, bind_Ok in Hrun. case_bool_decide as Hwall.
    + subst c.
      destruct (carve_step st x y p)
        as (g1 & g2 & Hg1 & Hg2 & Hinv2 & _ & Hxy & Hmid & Hrest); [done..|].
      rewrite Hg1, bind_Ok, Hg2, bind_Ok in Hrun.
      set (st2 := set_path (set_maze st g2) (_path st ++ [(x, y)])) in *.
      destruct (grow_frontier_spec st2 x y steps2 frontier1) as (news & Hgrow & _ & Hnews);
        [apply Hinv2|done|done|done|done|].
      destruct (grow_frontier_covers st2 x y steps2 frontier1 _ (proj1 Hinv2) Hgrow)
        as (Hsub2 & Hpar2 & Hcov2).
      rewrite Hgrow, bind_Ok in Hrun.
      destruct (entry_mid_adjacent _ _ _ _ Hentry) as (Hadj1 & Hadj2 & Hnotlat).
      destruct (entry_mid _ _ _ _ Hentry) as (Hmidr & _).
      assert (passable st2 (x, y)) as Hpxy.
      { split; [simpl; lia|]. by exists Open. }
      assert (passable st2 ((x + p.1) `div` 2, (y + p.2) `div` 2)) as Hpmid.
      { split; [simpl; lia|]. by exists Open. }
      assert (∀ c, passable st c → passable st2 c) as Hmono.
      { intros c [Hbd (m & Hm & Hnw)].
        destruct (decide (c = (x, y))) as [->|Hne]; [done|].
        destruct (decide (c = ((x + p.1) `div` 2, (y + p.2) `div` 2))) as [->|Hne'];
          [done|].
        split; [done|]. exists m. split; [|done]. simpl. by rewrite Hrest. }
      assert (∀ c, lattice st c → c ≠ (x, y) → passable st2 c → passable st c) as Hback.
      { intros c (_ & Ho1 & Ho2) Hne [Hbd (m & Hm & Hnw)].
        split; [done|]. exists m. split; [|done]. simpl in Hm.
        rewrite Hrest in Hm; [done|done|]. intros ->. by apply Hnotlat. }
      apply (IH st2 (frontier1 ++ news) rs1); [| |done].
      * destruct Hinv2 as (Hwf2 & Hsh2 & Hb2 & Hst2 & _).
        split; [done|]. split; [done|]. split; [done|]. split; [done|].
        apply Forall_app. split; [|done].
        eapply Forall_impl; [done|]. intros z. by apply entry_ok_same_shape.
      * split; [|split].
        -- intros c Hlat Hpc. destruct (decide (c = (x, y))) as [->|Hne].
           ++ destruct (HP x y p He) as [Hlp Hpp].
              eapply rtc_r; [eapply rtc_r|].
              ** apply (reachable_mono st st2); [done|]. by apply HR.
              ** split; [exact Hadj1|exact Hpmid].
              ** split; [exact Hadj2|exact Hpxy].
           ++ apply (reachable_mono st st2); [done|]. apply HR; [done|].
              by apply Hback.
        -- intros a b q Hq.
           destruct (Hpar2 _ Hq) as [Hold|Hnew].
           ++ destruct (HP a b q (Hsub _ Hold)) as [Hlq Hpq].
              split; [done|]. by apply Hmono.
           ++ simpl in Hnew. subst q. split; [|done].
              split; [done|]. done.
        -- intros c d Hlat Hpc Hd Hint. destruct (decide (c = (x, y))) as [->|Hne].
           ++ simpl in Hint |- *.
              destruct (Hcov2 d Hd Hint) as [?|?]; [by left|right; by exists (x, y)].
           ++ destruct (HF c d Hlat (Hback c Hlat Hne Hpc) Hd Hint) as [Hpn|[q Hq]].
              ** left. by apply Hmono.
              ** destruct (Hsplit _ Hq) as [Heq|Hin].
                 --- left. simplify_eq. done.
                 --- right. exists q. by apply Hsub2.
    + apply (IH st frontier1 rs1); [by split_and!| |done].
      split; [done|]. split.
      * intros a b q Hq. apply (HP a b q). by apply Hsub.
      * intros c' d Hlat Hpc Hd Hint.
        destruct (HF c' d Hlat Hpc Hd Hint) as [Hpn|[q Hq]]; [by left|].
        destruct (Hsplit _ Hq) as [Heq|Hin].
        -- left. simplify_eq. split; [simpl; lia|]. by exists c.
        -- right. by exists q.
Qed.

Lemma lattice_all st :
  gen_shape st → tree_inv st [] → passable st (start st) →
  ∀ c, lattice st c → passable st c.
Proof.
  intros (Hh & Hw & Hs & He) (HR & HP & HF) Hps.
  assert (∀ d, d ∈ steps2 → ∀ c, lattice st c → passable st c →
               lattice st (c.1 + d.1, c.2 + d.2) →
               passable st (c.1 + d.1, c.2 + d.2)) as Hnext.
  { intros d Hd c Hlat Hpc Hlat'.
    destruct (HF c d Hlat Hpc Hd) as [?|[q Hq%elem_of_nil]]; [|done..].
    apply interior_true. apply Hlat'. }
  assert (∀ a : nat, lattice st (1 + 2 * Z.of_nat a, 1) →
                     passable st (1 + 2 * Z.of_nat a, 1)) as Hcol.
  { induction a as [|a IHa]; intros Hlat.
    - change (1 + 2 * Z.of_nat 0, 1) with (1, 1). by rewrite <- Hs.
    - replace (1 + 2 * Z.of_nat (S a)) with ((1 + 2 * Z.of_nat a) + 2) in * by lia.
      assert (lattice st (1 + 2 * Z.of_nat a, 1)) as Hlat'.
      { destruct Hlat as ((Hx & Hy) & Ho1 & Ho2). unfold lattice. cbn [fst snd] in *.
        split; [split; lia|]. split; [|done]. cbn [fst snd]. unfold odd in *.
        Z.div_mod_to_equations. lia. }
      apply (Hnext (2, 0)) with (c := (1 + 2 * Z.of_nat a, 1)).
      + unfold steps2. rewrite !elem_of_cons. tauto.
      + done.
      + by apply IHa.
      + cbn [fst snd]. by replace (1 + 0) with 1 by lia. }
  assert (∀ (b a : nat), lattice st (1 + 2 * Z.of_nat a, 1 + 2 * Z.of_nat b) →
                         passable st (1 + 2 * Z.of_nat a, 1 + 2 * Z.of_nat b)) as Hall.
  { induction b as [|b IHb]; intros a Hlat.
    - change (1 + 2 * Z.of_nat 0) with 1 in *. by apply Hcol.
    - replace (1 + 2 * Z.of_nat (S b)) with ((1 + 2 * Z.of_nat b) + 2) in * by lia.
      assert (lattice st (1 + 2 * Z.of_nat a, 1 + 2 * Z.of_nat b)) as Hlat'.
      { destruct Hlat as ((Hx & Hy) & Ho1 & Ho2). unfold lattice. cbn [fst snd] in *.
        split; [split; lia|]. split; [done|]. cbn [fst snd]. unfold odd in *.
        Z.div_mod_to_equations. lia. }
      assert ((0, 2) ∈ steps2) as Hd by (unfold steps2; rewrite !elem_of_cons; tauto).
      pose proof (Hnext (0, 2) Hd (1 + 2 * Z.of_nat a, 1 + 2 * Z.of_nat b)
                    Hlat' (IHb a Hlat')) as Hn.
      cbn [fst snd] in Hn. rewrite Z.add_0_r in Hn. by apply Hn. }
  intros [x y] Hlat. pose proof Hlat as ((Hx & Hy) & Ho1 & Ho2).
  cbn [fst snd] in Hx, Hy, Ho1, Ho2. unfold odd in Ho1, Ho2.
  assert (x = 1 + 2 * Z.of_nat (Z.to_nat ((x - 1) `div` 2))) as Hxa.
  { rewrite Z2Nat.id; Z.div_mod_to_equations; lia. }
  assert (y = 1 + 2 * Z.of_nat (Z.to_nat ((y - 1) `div` 2))) as Hyb.
  { rewrite Z2Nat.id; Z.div_mod_to_equations; lia. }
  rewrite Hxa, Hyb in Hlat |- *. by apply Hall.
Qed.

Lemma steps2_double d :
  d ∈ steps2 → ∃ d', d' ∈ steps1 ∧ d = (d'.1 * 2, d'.2 * 2).
Proof.
  unfold steps2, steps1. rewrite !elem_of_cons, elem_of_nil.
  intros [->|[->|[->|[->|[]]]]].
  - exists (-1, 0). rewrite !elem_of_cons. tauto.
  - exists (1, 0). rewrite !elem_of_cons. tauto.
  - exists (0, -1). rewrite !elem_of_cons. tauto.
  - exists (0, 1). rewrite !elem_of_cons. tauto.
Qed.

(** After the base carve every cell of the odd lattice is reached from the
    start. *)
Lemma base_maze_lattice st rs st' rs' :
  gen_shape st →
  _generate_base_maze st rs = Ok (st', rs') →
  ∀ c, lattice st' c → reachable st' (start st') c.
Proof.
  intros Hshape Hrun. pose proof Hshape as (Hh & Hw & Hs & He).
  unfold _generate_base_maze in Hrun.
  set (st0 := set_maze st (all_walls (width st) (height st))) in *.
  assert (gen_wf st0) as Hwf0 by apply all_walls_wf.
  destruct (grid_set_cell _ _ (maze st0) (start st0).1 (start st0).2 PlayerStart Hwf0)
    as (g1 & Hg1 & Hwf1 & Hc1 & Ho1); [simpl; rewrite Hs; simpl; lia..|].
  rewrite Hg1, bind_Ok in Hrun. rewrite <- surjective_pairing in Hc1, Ho1.
  set (st1 := set_maze st0 g1) in *.
  assert (gen_shape st1) as Hshape1 by done.
  destruct (seed_frontier_spec st1 steps1 [] Hshape1) as (news & Hseed & Hlen & Hnews);
    [done|].
  destruct (seed_frontier_covers st1 steps1 []) as (_ & Hpar & Hcov).
  assert (∀ c, passable st1 c → c = start st) as Honly.
  { intros c [_ (m & Hm & Hnw)]. destruct (decide (c = start st)) as [|Hne]; [done|].
    simpl in Hm. rewrite Ho1 in Hm by done. by apply all_walls_cell in Hm. }
  assert (passable st1 (start st)) as Hpstart.
  { split; [rewrite Hs; simpl; lia|]. by exists PlayerStart. }
  assert (lattice st1 (start st)) as Hlstart.
  { rewrite Hs. unfold lattice, odd. simpl. split; [lia|done]. }
  assert (carve_inv st1 (seed_frontier st1 steps1 [])) as Hinv1.
  { rewrite Hseed, app_nil_l.
    split; [done|]. split; [done|]. split; [|split; [done|done]].
    intros c m Hc. simpl in Hc.
    destruct (decide (c = start st)) as [->|Hne].
    - change (start st0) with (start st) in Hc1. rewrite Hc1 in Hc. simplify_eq.
      split; [done|]. split; [done|]. intros _. left. simpl. rewrite Hs.
      split; simpl; split; try lia; by apply Lmax_ge_1.
    - rewrite Ho1 in Hc by done. apply all_walls_cell in Hc as ->. done. }
  assert (tree_inv st1 (seed_frontier st1 steps1 [])) as Htree1.
  { split; [|split].
    - intros c _ Hc. rewrite (Honly c Hc). apply rtc_refl.
    - intros x y q Hq. destruct (Hpar _ Hq) as [?%elem_of_nil|Hq']; [done|].
      simpl in Hq'. by subst q.
    - intros c d _ Hc Hd Hint. rewrite (Honly c Hc) in Hint |- *.
      right. exists (start st).
      destruct (steps2_double d Hd) as (d' & Hd' & ->).
      apply (Hcov d' Hd'). exact Hint. }
  destruct (carve_loop_spec (carve_fuel st1) st1 (seed_frontier st1 steps1 []) rs)
    as (st2 & rs2 & Hcarve & Hinv2 & Hsame2 & _); [done| |].
  { pose proof (count_walls_le _ _ _ Hwf1) as Hcw. unfold carve_fuel.
    rewrite Hseed, app_nil_l. simpl in Hlen, Hcw |- *. lia. }
  rewrite Hcarve, bind_Ok in Hrun. cbv beta iota in Hrun.
  pose proof (carve_loop_tree _ _ _ _ _ _ Hinv1 Htree1 Hcarve) as Htree2.
  destruct Hinv2 as (Hwf2 & Hshape2 & Hb2 & Hstart2 & _).
  pose proof Hshape2 as (Hh2 & Hw2 & Hs2 & He2).
  destruct Hsame2 as (Hw' & Hh' & _). simpl in Hw', Hh'.
  assert (passable st2 (start st2)) as Hpstart2.
  { split; [rewrite Hs2; simpl; lia|]. by exists PlayerStart. }
  pose proof (lattice_all st2 Hshape2 Htree2 Hpstart2) as Hall.
  destruct Htree2 as (HR2 & _ & _).
  destruct (mark_exit st2 Hwf2 Hshape2 Hb2 Hstart2) as (g3 & Hg3 & Hinv3 & Ho3).
  rewrite Hg3, bind_Ok in Hrun. simplify_eq.
  set (st3 := set_maze st2 g3) in *.
  assert (passable st3 (exit st2)) as Hpexit.
  { split; [rewrite He2; simpl; lia|]. exists ExitDoor. split; [|done].
    apply Hinv3. }
  assert (∀ c, passable st2 c → passable st3 c) as Hmono.
  { intros c Hc. destruct (decide (c = exit st2)) as [->|Hne]; [done|].
    destruct Hc as [Hbd (m & Hm & Hnw)]. split; [done|]. exists m.
    split; [|done]. simpl. by rewrite Ho3. }
  assert (∀ c, lattice st2 c → reachable st3 (start st2) c) as Hreach.
  { intros c Hc. apply (reachable_mono st2 st3); [done|]. apply HR2; [done|].
    by apply Hall. }
  exact Hreach.
Qed.

(** Unless width and height are both even, the base carve alone connects
    the exit to the start. *)
Lemma base_maze_connected st rs st' rs' :
  gen_shape st →
  ¬ (height st `mod` 2 = 0 ∧ width st `mod` 2 = 0) →
  _generate_base_maze st rs = Ok (st', rs') → connected st'.
Proof.
  intros Hshape Hparity Hrun.
  pose proof (base_maze_lattice st rs st' rs' Hshape Hrun) as Hreach.
  destruct (base_maze_spec st rs Hshape) as (st2 & rs2 & Hrun2 & Hinv & Hsame & _).
  rewrite Hrun in Hrun2. simplify_eq.
  destruct Hinv as (Hwf & (Hh & Hw & Hs & He) & _ & Hexit & _).
  destruct Hsame as (Hw' & Hh' & _).
  assert (passable st2 (exit st2)) as Hpexit.
  { split; [rewrite He; simpl; lia|]. by exists ExitDoor. }
  unfold connected.
  destruct (decide (height st `mod` 2 = 0)) as [Heh|Hoh].
  - assert (width st `mod` 2 ≠ 0) as How by tauto.
    eapply rtc_r; [apply (Hreach (height st2 - 3, width st2 - 2))|].
    + unfold lattice, odd. simpl. rewrite Hw', Hh' in *.
      clear -Hh Hw Heh How. Z.div_mod_to_equations. lia.
    + split; [|done]. rewrite He. unfold adjacent. simpl. lia.
  - destruct (decide (width st `mod` 2 = 0)) as [Hew|How].
    + eapply rtc_r; [apply (Hreach (height st2 - 2, width st2 - 3))|].
      * unfold lattice, odd. simpl. rewrite Hw', Hh' in *.
        clear -Hh Hw Hew Hoh. Z.div_mod_to_equations. lia.
      * split; [|done]. rewrite He. unfold adjacent. simpl. lia.
    + apply Hreach. rewrite He. unfold lattice, odd. simpl. rewrite Hw', Hh' in *.
      clear -Hh Hw How Hoh. Z.div_mod_to_equations. lia.
Qed.

Lemma reachable_open_steps st a b :
  passable st a → (reachable st a b ↔ rtc (open_step st) a b).
Proof.
  intros Ha. split.
  - intros Hr. induction Hr as [|a b c [Hadj Hb] _ IH]; [apply rtc_refl|].
    eapply rtc_l; [|by apply IH]. done.
  - intros Hr. clear Ha. induction Hr as [|a b c (_ & Hadj & Hb) _ IH]; [apply rtc_refl|].
    eapply rtc_l; [|exact IH]. done.
Qed.

Lemma reachable_sym st a b :
  passable st a → reachable st a b → reachable st b a.
Proof.
  intros Ha Hr. apply (reachable_open_steps st a b Ha) in Hr.
  assert (rtc (open_step st) b a) as Hback.
  { induction Hr as [|a b c (Hpa & Hadj & Hpb) _ IH]; [apply rtc_refl|].
    eapply rtc_r; [by apply IH|]. split; [done|]. split; [|done].
    unfold adjacent in *. lia. }
  clear -Hback. induction Hback as [|b c a (_ & Hadj & Hc) _ IH]; [apply rtc_refl|].
  eapply rtc_l; [|exact IH]. done.
Qed.

Lemma maze_inv_start_passable st : maze_inv st → passable st (start st).
Proof.
  intros (Hwf & (Hh & Hw & Hs & He) & _ & Hexit & Hstart).
  split; [rewrite Hs; simpl; lia|].
  destruct (decide (start st = exit st)) as [Heq|Hne].
  - exists ExitDoor. by rewrite Heq.
  - exists PlayerStart. split; [by apply Hstart|done].
Qed.

(** Unless width and height are both even, one pass through the loop body
    of [generate] returns a connected grid. *)
Lemma attempt_succeeds st rs :
  gen_shape st →
  ¬ (height st `mod` 2 = 0 ∧ width st `mod` 2 = 0) →
  ∃ st' rs',
    attempt st rs = Ok (Some (maze st'), st', rs') ∧
    maze_inv st' ∧ same_shape st st' ∧ connected st'.
Proof.
  intros Hshape Hparity. unfold attempt.
  destruct (base_maze_spec st rs Hshape) as (st1 & rs1 & Hbase & Hinv1 & Hsame1 & _).
  pose proof (base_maze_connected st rs st1 rs1 Hshape Hparity Hbase) as Hconn1.
  rewrite Hbase, bind_Ok. cbv beta iota.
  destruct (validate_maze_spec st1 (proj1 Hinv1)) as (ok1 & -> & Hok1).
  rewrite bind_Ok. apply Hok1 in Hconn1 as Hone. subst ok1.
  destruct (add_safe_walls_spec st1 rs1 Hinv1)
    as (st2 & rs2 & -> & Hinv2 & Hsame2 & _ & Hconn).
  rewrite bind_Ok. cbv beta iota.
  destruct (validate_maze_spec st2 (proj1 Hinv2)) as (ok2 & -> & Hok2).
  rewrite bind_Ok. specialize (Hconn Hconn1). apply Hok2 in Hconn as Htwo. subst ok2.
  exists st2, rs2. split; [done|]. split; [done|].
  split; [by eapply same_shape_trans|done].
Qed.

(** Unless width and height are both even, [generate] returns after its
    first attempt, and start and exit of the grid it returns are reachable
    from each other. *)
Lemma generate_connected w h d rs :
  3 <= w → 3 <= h → ¬ (h `mod` 2 = 0 ∧ w `mod` 2 = 0) →
  ∃ g st' rs',
    generate_run (__init__ w h d) rs = Ok (g, 1%nat, st', rs') ∧
    generate w h d rs = Ok g ∧ g = maze st' ∧
    reachable st' (start st') (exit st') ∧
    reachable st' (exit st') (start st').
Proof.
  intros Hw Hh Hparity. destruct (init_ok w h d Hw Hh) as (_ & Hshape & _).
  destruct (attempt_succeeds (__init__ w h d) rs Hshape Hparity)
    as (st' & rs' & Hrun & Hinv & _ & Hconn).
  exists (maze st'), st', rs'.
  assert (generate_run (__init__ w h d) rs = Ok (maze st', 1%nat, st', rs')) as Hgen.
  { unfold generate_run, max_attempts. cbn [generate_loop]. by rewrite Hrun. }
  split; [done|]. split; [unfold generate; by rewrite Hgen|]. split; [done|].
  split; [done|]. apply reachable_sym; [|done]. by apply maze_inv_start_passable.
Qed.

Lemma generate_even w h d rs :
  3 <= w → 3 <= h → w `mod` 2 = 0 → h `mod` 2 = 0 →
  ∃ g k st' rs',
    generate_run (__init__ w h d) rs = Ok (g, k, st', rs') ∧
    generate w h d rs = Ok g ∧ g = maze st' ∧ k = max_attempts ∧
    ¬ connected st' ∧ _validate_maze st' = Ok false.
Proof.
  intros Hw Hh Hew Heh.
  destruct (generate_spec w h d rs Hw Hh)
    as (g & k & st' & rs' & Hrun & Hgen & Hg & Hinv & Hw' & Hh' & Hk & Hconn).
  assert (¬ connected st') as Hnc.
  { destruct Hinv as (Hwf & Hshape & Hb & _).
    apply even_not_connected; [done|done|done|by rewrite Hh'|by rewrite Hw']. }
  exists g, k, st', rs'. split; [done|]. split; [done|]. split; [done|].
  split; [|split; [done|]].
  - destruct (decide (k < max_attempts)%nat) as [Hlt|]; [|lia].
    by apply Hconn in Hlt.
  - destruct (validate_maze_spec st' (proj1 Hinv)) as ([|] & Hv & Hiff); [|done].
    exfalso. by apply Hnc, Hiff.
Qed.

(** ** What a carve records *)






(** ** When every attempt fails *)

Lemma generate_loop_failed n : ∀ done st rs st1 rs1,
  failed_attempts n st rs = Ok (Some (st1, rs1)) →
  generate_loop n done st rs =
    (st' ← _generate_fallback_maze st1; Ok (maze st', (done + n)%nat, st', rs1)).
Proof.
  induction n as [|n IH]; intros done st rs st1 rs1 Hfail.
  - simpl in Hfail. simplify_eq. simpl. by rewrite Nat.add_0_r.
  - cbn [failed_attempts generate_loop] in Hfail |- *.
    destruct (attempt st rs) as [[[r st2] rs2]|e]; [|done].
    destruct r as [g|]; [discriminate Hfail|].
    etrans; [exact (IH (S done) st2 rs2 st1 rs1 Hfail)|].
    by replace (S done + n)%nat with (done + S n)%nat by lia.
Qed.

Lemma generate_failed w h d rs st1 rs1 st' :
  failed_attempts max_attempts (__init__ w h d) rs = Ok (Some (st1, rs1)) →
  _generate_fallback_maze st1 = Ok st' →
  generate w h d rs = Ok (maze st').
Proof.
  intros Hfail Hfb. unfold generate, generate_run.
  rewrite (generate_loop_failed _ 0 _ _ _ _ Hfail), Hfb. done.
Qed.

(** ** The sample object *)

Lemma sample_gen_wf : gen_wf sample_gen.
Proof. split; [reflexivity|repeat constructor]. Defined.

Lemma sample_gen_shape : gen_shape sample_gen.
Proof. unfold gen_shape. simpl. repeat split; lia. Defined.

Lemma sample_gen_connected : reachable sample_gen (start sample_gen) (exit sample_gen).
Proof.
  destruct (validate_maze_spec sample_gen sample_gen_wf) as (b & Hb & Hiff).
  vm_compute in Hb. apply Hiff. congruence.
Defined.

(** * The claims of the specification *)

(** C1 does not hold of the code: for width = height = 10, every
    difficulty and every random source, all ten attempts of [generate]
    fail, the fallback grid is returned, and in it the exit (8, 8) is not
    reachable from the start (1, 1): the search itself answers [False] on
    the returned grid.  ([generate_even] shows the same for every even
    width and height, [generate_connected] that the first attempt succeeds
    whenever one of them is odd.) *)
Theorem generate_10x10_disconnected (d : Q) (rs : Rand) :
  ∃ g k st' rs',
    generate_run (__init__ 10 10 d) rs = Ok (g, k, st', rs') ∧
    generate 10 10 d rs = Ok g ∧ g = maze st' ∧ k = 10%nat ∧
    exit st' = (8, 8) ∧ start st' = (1, 1) ∧
    ¬ reachable st' (start st') (exit st') ∧
    _validate_maze st' = Ok false.
Proof.
  destruct (generate_even 10 10 d rs) as (g & k & st' & rs' & Hrun & Hgen & Hg & Hk & Hnc & Hv);
    [lia|lia|done|done|].
  exists g, k, st', rs'. split; [done|]. split; [done|]. split; [done|].
  split; [done|].
  destruct (generate_spec 10 10 d rs) as (g2 & k2 & st2 & rs2 & Hrun2 & _ & _ & Hinv & Hw & Hh & _);
    [lia|lia|].
  rewrite Hrun in Hrun2. simplify_eq.
  destruct Hinv as (_ & (_ & _ & Hs & He) & _). rewrite Hw, Hh in He.
  done.
Qed.

(** C2 does not hold of the code: the deterministic fallback does not
    produce a connected grid.  For width = height = 4, whatever the
    difficulty and the random source, ten attempts fail and the fallback
    runs on the state they leave; the exit of its grid is not reachable
    from the start.  Run on a freshly constructed 5 x 5 object it yields
    isolated open cells, again with the exit unreachable. *)
Theorem fallback_not_connected (d : Q) (rs : Rand) :
  (∃ st rs' st',
     failed_attempts 10 (__init__ 4 4 d) rs = Ok (Some (st, rs')) ∧
     _generate_fallback_maze st = Ok st' ∧
     generate 4 4 d rs = Ok (maze st') ∧
     ¬ reachable st' (start st') (exit st')) ∧
  (∃ st', _generate_fallback_maze (__init__ 5 5 d) = Ok st' ∧
          ¬ reachable st' (start st') (exit st')).
Proof.
  split.
  - eexists _, _, _. split; [vm_compute; reflexivity|].
    split; [vm_compute; reflexivity|]. split; [vm_compute; reflexivity|].
    match goal with |- ¬ reachable ?s _ _ =>
      destruct (validate_maze_spec s) as (b & Hb & Hiff)
    end.
    { split; [reflexivity|]. repeat constructor. }
    vm_compute in Hb. simplify_eq. intros Hc. by apply Hiff in Hc.
  - eexists. split; [vm_compute; reflexivity|].
    match goal with |- ¬ reachable ?s _ _ =>
      destruct (validate_maze_spec s) as (b & Hb & Hiff)
    end.
    { split; [reflexivity|]. repeat constructor. }
    vm_compute in Hb. simplify_eq. intros Hc. by apply Hiff in Hc.
Qed.

(** C3, in the form the code satisfies: the fallback writes the markers
    of the comb pattern over the grid it is given and resets nothing
    else.  Exit gets [ExitDoor]; Start gets [PlayerStart] unless it is
    the exit cell (width = height = 3); every other interior cell at odd
    row and odd column gets [Open]; and every cell where the comb has a
    wall keeps the marker it held.  So the result is the comb pattern
    exactly when each of these cells held a wall beforehand.  When the
    grid is the one ten failed attempts of [generate] have left, the
    result is the grid [generate] returns. *)
Theorem fallback_overlays_comb st :
  gen_wf st → gen_shape st →
  ∃ st',
    _generate_fallback_maze st = Ok st' ∧
    (∀ c : coord, cell (maze st') c =
       if bool_decide (comb_cell (height st) (width st) c = Wall)
       then cell (maze st) c
       else Some (comb_cell (height st) (width st) c)) ∧
    ((∀ c, 0 <= c.1 < height st → 0 <= c.2 < width st →
           cell (maze st') c = Some (comb_cell (height st) (width st) c)) ↔
     (∀ c, 0 <= c.1 < height st → 0 <= c.2 < width st →
           comb_cell (height st) (width st) c = Wall →
           cell (maze st) c = Some Wall)) ∧
    (∀ w h d rs rs0,
       failed_attempts max_attempts (__init__ w h d) rs = Ok (Some (st, rs0)) →
       generate w h d rs = Ok (maze st')).
Proof.
  intros Hwf Hshape.
  destruct (fallback_spec st Hwf Hshape) as (st' & Hrun & Hwf' & Hsame & _ & Hcells).
  destruct Hshape as (Hh & Hw & Hs & He).
  assert (∀ c : coord, cell (maze st') c =
            if bool_decide (comb_cell (height st) (width st) c = Wall)
            then cell (maze st) c
            else Some (comb_cell (height st) (width st) c)) as Hover.
  { intros c. rewrite Hcells. unfold comb_cell. rewrite Hs, He.
    repeat case_bool_decide; done. }
  exists st'. split; [done|]. split; [done|]. split.
  - split.
    + intros Hcomb c Hx Hy Hwall. specialize (Hcomb c Hx Hy).
      rewrite Hover, bool_decide_eq_true_2 in Hcomb by done. by rewrite Hcomb, Hwall.
    + intros Hwalls c Hx Hy. rewrite Hover. case_bool_decide as Hcomb; [|done].
      rewrite Hcomb. by apply Hwalls.
  - intros w h d rs rs0 Hfail. by eapply generate_failed.
Qed.

Lemma fallback_overlays_comb_witness :
  failed_attempts max_attempts (__init__ 6 6 0) [] = Ok (Some (failed_6x6, [])) ∧
  cell (maze failed_6x6) (1, 2) = Some Open ∧
  gen_wf failed_6x6 ∧ gen_shape failed_6x6 ∧
  ∃ st',
    _generate_fallback_maze failed_6x6 = Ok st' ∧
    (∀ c : coord, cell (maze st') c =
       if bool_decide (comb_cell (height failed_6x6) (width failed_6x6) c = Wall)
       then cell (maze failed_6x6) c
       else Some (comb_cell (height failed_6x6) (width failed_6x6) c)) ∧
    ((∀ c, 0 <= c.1 < height failed_6x6 → 0 <= c.2 < width failed_6x6 →
           cell (maze st') c =
             Some (comb_cell (height failed_6x6) (width failed_6x6) c)) ↔
     (∀ c, 0 <= c.1 < height failed_6x6 → 0 <= c.2 < width failed_6x6 →
           comb_cell (height failed_6x6) (width failed_6x6) c = Wall →
           cell (maze failed_6x6) c = Some Wall)) ∧
    (∀ w h d rs rs0,
       failed_attempts max_attempts (__init__ w h d) rs
         = Ok (Some (failed_6x6, rs0)) →
       generate w h d rs = Ok (maze st')).
Proof.
  assert (gen_wf failed_6x6) as Hwf by (split; [reflexivity|repeat constructor]).
  assert (gen_shape failed_6x6) as Hshape
    by (unfold gen_shape; simpl; repeat split; lia).
  split; [vm_compute; reflexivity|]. split; [vm_compute; reflexivity|].
  split; [exact Hwf|]. split; [exact Hshape|].
  exact (fallback_overlays_comb failed_6x6 Hwf Hshape).
Defined.

(** C3 fails as stated: for width = height = 6 the ten attempts fail and
    the fallback returns a grid that is not the comb pattern: the
    corridor cells the last carve opened are still open. *)
Lemma fallback_is_not_comb :
  ∃ st rs' st',
    failed_attempts 10 (__init__ 6 6 0) [] = Ok (Some (st, rs')) ∧
    _generate_fallback_maze st = Ok st' ∧
    generate 6 6 0 [] = Ok (maze st') ∧
    cell (maze st') (1, 2) = Some Open ∧
    comb_cell 6 6 (1, 2) = Wall.
Proof.
  eexists _, _, _. split; [vm_compute; reflexivity|].
  split; [vm_compute; reflexivity|]. split; [vm_compute; reflexivity|].
  split; vm_compute; reflexivity.
Qed.

(** C4: obstacle injection preserves connectivity.  On every well-formed
    grid in which the exit is reachable from the start, [_add_safe_walls]
    returns normally, for every difficulty and every random source, with
    the exit still reachable; the only cells it changes are open cells
    turned into walls (a tentative wall that breaks reachability is put
    back to what the cell held). *)
Theorem add_safe_walls_preserves_connectivity st rs :
  gen_wf st → reachable st (start st) (exit st) →
  ∃ st' rs',
    _add_safe_walls st rs = Ok (st', rs') ∧
    reachable st' (start st') (exit st') ∧
    (∀ c, cell (maze st') c = cell (maze st) c ∨
          (cell (maze st) c = Some Open ∧ cell (maze st') c = Some Wall)).
Proof.
  intros Hwf Hconn.
  destruct (add_safe_walls_counted_spec st rs Hwf)
    as (cands & st' & added & rs' & _ & Hrun & _ & _ & _ & Hkeep & Hcells & _).
  exists st', rs'. unfold _add_safe_walls. rewrite Hrun, bind_Ok.
  split; [done|]. split; [by apply Hkeep|done].
Qed.

Lemma add_safe_walls_preserves_connectivity_witness :
  gen_wf sample_gen ∧ reachable sample_gen (start sample_gen) (exit sample_gen) ∧
  ∃ st' rs',
    _add_safe_walls sample_gen [2; 0; 1]%nat = Ok (st', rs') ∧
    reachable st' (start st') (exit st') ∧
    (∀ c, cell (maze st') c = cell (maze sample_gen) c ∨
          (cell (maze sample_gen) c = Some Open ∧ cell (maze st') c = Some Wall)).
Proof.
  split; [exact sample_gen_wf|]. split; [exact sample_gen_connected|].
  exact (add_safe_walls_preserves_connectivity sample_gen [2; 0; 1]%nat
           sample_gen_wf sample_gen_connected).
Defined.

(** C5, in the form the code satisfies: for every width >= 3 and
    height >= 3 that are not both 3, every difficulty in [0, 1] and every
    random source, the grid [generate] returns holds [PlayerStart] at
    (1, 1) and nowhere else, and [ExitDoor] at (height-2, width-2) and
    nowhere else. *)
Theorem generate_markers w h d rs :
  3 <= w → 3 <= h → (w, h) ≠ (3, 3) → (0 <= d)%Q → (d <= 1)%Q →
  ∃ g, generate w h d rs = Ok g ∧
       (∀ c, cell g c = Some PlayerStart ↔ c = (1, 1)) ∧
       (∀ c, cell g c = Some ExitDoor ↔ c = (h - 2, w - 2)).
Proof.
  intros Hw Hh Hne _ _.
  destruct (generate_spec w h d rs Hw Hh)
    as (g & k & st' & rs' & _ & Hgen & -> & Hinv & Hw' & Hh' & _).
  destruct Hinv as (Hwf & (_ & _ & Hs & He) & Hb & Hexit & Hstart).
  rewrite Hw', Hh' in He.
  exists (maze st'). split; [done|]. split.
  - intros c. split.
    + intros Hc. destruct (Hb c _ Hc) as (_ & Hp & _). rewrite <- Hs. by apply Hp.
    + intros ->. rewrite <- Hs. apply Hstart. rewrite Hs, He.
      intros [= ? ?]. apply Hne. f_equal; lia.
  - intros c. split.
    + intros Hc. destruct (Hb c _ Hc) as (Hp & _). rewrite <- He. by apply Hp.
    + intros ->. by rewrite <- He.
Qed.

Lemma generate_markers_witness :
  3 <= 9 ∧ 3 <= 9 ∧ (9, 9) ≠ (3, 3) ∧ (0 <= 3 # 10)%Q ∧ (3 # 10 <= 1)%Q ∧
  ∃ g, generate 9 9 (3 # 10) [3; 1; 4; 1; 5; 9; 2; 6]%nat = Ok g ∧
       (∀ c, cell g c = Some PlayerStart ↔ c = (1, 1)) ∧
       (∀ c, cell g c = Some ExitDoor ↔ c = (9 - 2, 9 - 2)).
Proof.
  assert ((9, 9) ≠ (3, 3)) as Hne by (intros [= ?]).
  assert (0 <= 3 # 10)%Q as H0 by (vm_compute; discriminate).
  assert (3 # 10 <= 1)%Q as H1 by (vm_compute; discriminate).
  split; [lia|]. split; [lia|]. split; [exact Hne|].
  split; [exact H0|]. split; [exact H1|].
  exact (generate_markers 9 9 (3 # 10) [3; 1; 4; 1; 5; 9; 2; 6]%nat
           ltac:(lia) ltac:(lia) Hne H0 H1).
Defined.

(** C5 fails as stated: for width = height = 3 start and exit are the
    same cell, the exit marker overwrites the start marker, and the grid
    returned has no [PlayerStart] cell at all. *)
Lemma generate_3x3_no_player_start :
  ¬ ∃ g, generate 3 3 0 [] = Ok g ∧
         (∀ c, cell g c = Some PlayerStart ↔ c = (1, 1)) ∧
         (∀ c, cell g c = Some ExitDoor ↔ c = (3 - 2, 3 - 2)).
Proof.
  intros (g & Hg & Hp & _). vm_compute in Hg. simplify_eq.
  specialize (Hp (1, 1)). destruct Hp as [_ Hp]. specialize (Hp eq_refl).
  vm_compute in Hp. discriminate.
Qed.

(** C6: on a well-formed grid the search always answers, and it answers
    [True] exactly when the exit is reached from the start by steps to
    four-directional neighbours (Manhattan distance one, so no diagonal)
    that lie inside the grid and are not walls.  As in the code the start
    cell itself is not looked at; when it is not a wall, every cell of the
    path, the start included, is a non-wall cell.  When start and exit are
    the same cell the first dequeue answers [True]: one unit of fuel is
    enough and no neighbour is looked at. *)
Theorem validate_maze_iff_reachable st :
  gen_wf st →
  (∃ b, _validate_maze st = Ok b) ∧
  (_validate_maze st = Ok true ↔ reachable st (start st) (exit st)) ∧
  (passable st (start st) →
   (_validate_maze st = Ok true ↔ rtc (open_step st) (start st) (exit st))) ∧
  (start st = exit st →
   bfs_loop 1 st ∅ [start st] = Ok true ∧ _validate_maze st = Ok true).
Proof.
  intros Hwf. destruct (validate_maze_spec st Hwf) as (b & Hb & Hiff).
  assert (_validate_maze st = Ok true ↔ reachable st (start st) (exit st)) as Hmain.
  { rewrite Hb. split.
    - intros [= ->]. by apply Hiff.
    - intros Hc. f_equal. by apply Hiff. }
  split; [by exists b|]. split; [done|]. split.
  - intros Hp. rewrite Hmain. by apply reachable_open_steps.
  - intros Heq. split.
    + destruct (start st) as [x y] eqn:Hs. simpl.
      by rewrite bool_decide_eq_true_2.
    + apply Hmain. rewrite Heq. apply rtc_refl.
Qed.

Lemma validate_maze_iff_reachable_witness :
  gen_wf sample_gen ∧
  (∃ b, _validate_maze sample_gen = Ok b) ∧
  (_validate_maze sample_gen = Ok true ↔
   reachable sample_gen (start sample_gen) (exit sample_gen)) ∧
  (passable sample_gen (start sample_gen) →
   (_validate_maze sample_gen = Ok true ↔
    rtc (open_step sample_gen) (start sample_gen) (exit sample_gen))) ∧
  (start sample_gen = exit sample_gen →
   bfs_loop 1 sample_gen ∅ [start sample_gen] = Ok true ∧
   _validate_maze sample_gen = Ok true).
Proof.
  split; [exact sample_gen_wf|].
  exact (validate_maze_iff_reachable sample_gen sample_gen_wf).
Defined.

(** C7, in the form the code satisfies: for every difficulty in [0, 1],
    on every well-formed grid of at most 2^53 cells and for every random
    source, the number of obstacles [_add_safe_walls] counts as placed is
    at most the count it computes, [int(len(candidates) * difficulty)],
    a float product.  That count is floor(candidateCount * difficulty)
    or one more than it, the float product being the exact product
    rounded to the nearest float, and it is at most the number of
    candidates. *)
Theorem added_walls_bounded st rs :
  gen_wf st → (0 <= difficulty st)%Q → (difficulty st <= 1)%Q →
  height st * width st <= 2 ^ 53 →
  ∃ cands st' added rs',
    candidate_positions st = Ok cands ∧
    add_safe_walls_counted st rs = Ok (st', added, rs') ∧
    _add_safe_walls st rs = Ok (st', rs') ∧
    0 <= added <= wall_count_of st (length cands) ∧
    Qfloor (inject_Z (Z.of_nat (length cands)) * difficulty st)
      <= wall_count_of st (length cands)
      <= Qfloor (inject_Z (Z.of_nat (length cands)) * difficulty st) + 1 ∧
    wall_count_of st (length cands) <= Z.of_nat (length cands).
Proof.
  intros Hwf Hd0 Hd1 Hsize.
  destruct (add_safe_walls_counted_spec st rs Hwf)
    as (cands & st' & added & rs' & Hc & Hrun & _ & _ & _ & _ & _ & Hrange & Hle).
  pose proof (candidate_positions_length st cands Hc) as Hlen.
  pose proof (wall_count_nonneg st (length cands) Hd0) as Hnn.
  destruct (wall_count_range st (length cands) Hd0 Hd1) as [Hfloor Hwc]; [nia|].
  exists cands, st', added, rs'. split; [done|]. split; [done|].
  split; [unfold _add_safe_walls; by rewrite Hrun|].
  split; [split; [lia|by apply Hle]|]. done.
Qed.

Lemma added_walls_bounded_witness :
  gen_wf sample_gen ∧ (0 <= difficulty sample_gen)%Q ∧ (difficulty sample_gen <= 1)%Q ∧
  height sample_gen * width sample_gen <= 2 ^ 53 ∧
  ∃ cands st' added rs',
    candidate_positions sample_gen = Ok cands ∧
    add_safe_walls_counted sample_gen [2; 0; 1]%nat = Ok (st', added, rs') ∧
    _add_safe_walls sample_gen [2; 0; 1]%nat = Ok (st', rs') ∧
    0 <= added <= wall_count_of sample_gen (length cands) ∧
    Qfloor (inject_Z (Z.of_nat (length cands)) * difficulty sample_gen)
      <= wall_count_of sample_gen (length cands)
      <= Qfloor (inject_Z (Z.of_nat (length cands)) * difficulty sample_gen) + 1 ∧
    wall_count_of sample_gen (length cands) <= Z.of_nat (length cands).
Proof.
  assert (0 <= difficulty sample_gen)%Q as H0 by (vm_compute; discriminate).
  assert (difficulty sample_gen <= 1)%Q as H1 by (vm_compute; discriminate).
  assert (height sample_gen * width sample_gen <= 2 ^ 53) as Hs
    by (vm_compute; discriminate).
  split; [exact sample_gen_wf|]. split; [exact H0|]. split; [exact H1|].
  split; [exact Hs|].
  exact (added_walls_bounded sample_gen [2; 0; 1]%nat sample_gen_wf H0 H1 Hs).
Defined.

(** C7 fails when the product is read exactly: for width 15, height 7,
    the float 0.3 as difficulty and a random source whose draws are all
    0, the first base carve leaves 20 candidates; the float product
    20 * 0.3 is 6.0 while the exact product of 20 and the float 0.3 is
    less than 6; six obstacles are counted as placed, one more than the
    floor 5 of the exact product, and the grid [generate] returns holds
    six walls more than the carve. *)
Lemma added_walls_exceed_exact_floor :
  ∃ st1 rs1 cands st2 rs2,
    _generate_base_maze (__init__ 15 7 (float_lit (3 # 10))) [] = Ok (st1, rs1) ∧
    candidate_positions st1 = Ok cands ∧ length cands = 20%nat ∧
    add_safe_walls_counted st1 rs1 = Ok (st2, 6, rs2) ∧
    generate 15 7 (float_lit (3 # 10)) [] = Ok (maze st2) ∧
    (count_walls (maze st2) = count_walls (maze st1) + 6)%nat ∧
    (0 <= float_lit (3 # 10))%Q ∧ (float_lit (3 # 10) <= 1)%Q ∧
    (float_lit (3 # 10) == 5404319552844595 # 18014398509481984)%Q ∧
    wall_count_of st1 20 = 6 ∧
    Qfloor (inject_Z 20 * float_lit (3 # 10)) = 5.
Proof.
  eexists _, _, _, _, _. split; [vm_compute; reflexivity|].
  split; [vm_compute; reflexivity|]. split; [reflexivity|].
  split; [vm_compute; reflexivity|]. split; [vm_compute; reflexivity|].
  split; [vm_compute; reflexivity|]. split; [vm_compute; discriminate|].
  split; [vm_compute; discriminate|]. split; [vm_compute; reflexivity|].
  split; vm_compute; reflexivity.
Qed.

(** C8: for every width >= 3 and height >= 3, every difficulty in [0, 1]
    and every random source, [generate] returns normally (no exception,
    and neither loop runs out of fuel), after at most 10 randomized
    attempts, and the grid it returns has [height] rows of [width]
    cells. *)
Theorem generate_total w h d rs :
  3 <= w → 3 <= h → (0 <= d)%Q → (d <= 1)%Q →
  ∃ g k st' rs',
    generate_run (__init__ w h d) rs = Ok (g, k, st', rs') ∧
    generate w h d rs = Ok g ∧
    (k <= 10)%nat ∧ grid_wf h w g.
Proof.
  intros Hw Hh _ _.
  destruct (generate_spec w h d rs Hw Hh)
    as (g & k & st' & rs' & Hrun & Hgen & -> & Hinv & Hw' & Hh' & Hk & _).
  exists (maze st'), k, st', rs'. split; [done|]. split; [done|]. split; [done|].
  destruct Hinv as (Hwf & _). unfold gen_wf in Hwf. by rewrite Hw', Hh' in Hwf.
Qed.

Lemma generate_total_witness :
  3 <= 9 ∧ 3 <= 11 ∧ (0 <= 1 # 2)%Q ∧ (1 # 2 <= 1)%Q ∧
  ∃ g k st' rs',
    generate_run (__init__ 9 11 (1 # 2)) [7; 2; 5]%nat = Ok (g, k, st', rs') ∧
    generate 9 11 (1 # 2) [7; 2; 5]%nat = Ok g ∧
    (k <= 10)%nat ∧ grid_wf 11 9 g.
Proof.
  assert (0 <= 1 # 2)%Q as H0 by (vm_compute; discriminate).
  assert (1 # 2 <= 1)%Q as H1 by (vm_compute; discriminate).
  split; [lia|]. split; [lia|]. split; [exact H0|]. split; [exact H1|].
  exact (generate_total 9 11 (1 # 2) [7; 2; 5]%nat ltac:(lia) ltac:(lia) H0 H1).
Defined.




(** C10: for every width >= 3 and height >= 3, every difficulty in [0, 1]
    and every random source, every border cell of the grid [generate]
    returns is a wall; said the other way round, every marker other than
    [Wall] sits on a strictly interior cell. *)
Theorem generate_border_walls w h d rs :
  3 <= w → 3 <= h → (0 <= d)%Q → (d <= 1)%Q →
  ∃ g, generate w h d rs = Ok g ∧
       (∀ c, 0 <= c.1 < h → 0 <= c.2 < w → border h w c → cell g c = Some Wall) ∧
       (∀ c m, cell g c = Some m → m ≠ Wall → 0 < c.1 < h - 1 ∧ 0 < c.2 < w - 1).
Proof.
  intros Hw Hh _ _.
  destruct (generate_spec w h d rs Hw Hh)
    as (g & k & st' & rs' & _ & Hgen & -> & Hinv & Hw' & Hh' & _).
  destruct Hinv as (Hwf & (_ & _ & Hs & He) & Hb & _).
  assert (∀ c m, cell (maze st') c = Some m → m ≠ Wall →
                 0 < c.1 < h - 1 ∧ 0 < c.2 < w - 1) as Hinterior.
  { intros c m Hm Hnw. destruct (Hb c m Hm) as (_ & _ & Hbox).
    destruct (Hbox Hnw) as [Hin| ->].
    - apply in_box_interior in Hin. lia.
    - rewrite He. simpl. lia. }
  exists (maze st'). split; [done|]. split; [|done]. intros c Hx Hy Hborder.
  destruct (cell_is_Some _ _ (maze st') c Hwf) as [m Hm]; [lia..|].
  rewrite Hm. f_equal. destruct (decide (m = Wall)) as [|Hnw]; [done|]. exfalso.
  specialize (Hinterior c m Hm Hnw). unfold border in Hborder. lia.
Qed.

Lemma generate_border_walls_witness :
  3 <= 9 ∧ 3 <= 9 ∧ (0 <= 3 # 10)%Q ∧ (3 # 10 <= 1)%Q ∧
  ∃ g, generate 9 9 (3 # 10) [3; 1; 4; 1; 5]%nat = Ok g ∧
       (∀ c, 0 <= c.1 < 9 → 0 <= c.2 < 9 → border 9 9 c → cell g c = Some Wall) ∧
       (∀ c m, cell g c = Some m → m ≠ Wall → 0 < c.1 < 9 - 1 ∧ 0 < c.2 < 9 - 1).
Proof.
  assert (0 <= 3 # 10)%Q as H0 by (vm_compute; discriminate).
  assert (3 # 10 <= 1)%Q as H1 by (vm_compute; discriminate).
  split; [lia|]. split; [lia|]. split; [exact H0|]. split; [exact H1|].
  exact (generate_border_walls 9 9 (3 # 10) [3; 1; 4; 1; 5]%nat
           ltac:(lia) ltac:(lia) H0 H1).
Defined.

(** * Further properties of the generator *)

Lemma candidates_row_iff st i js acc :
  gen_wf st → 0 <= i < height st → (∀ j, j ∈ js → 0 <= j < width st) →
  ∃ news, candidates_row st i js acc = Ok (acc ++ news) ∧
          ∀ c : coord, c ∈ news ↔
            c.1 = i ∧ c.2 ∈ js ∧ cell (maze st) c = Some Open ∧ c ∉ _path st.
Proof.
  intros Hwf Hi. revert acc. induction js as [|j js IH]; intros acc Hjs.
  - exists []. rewrite app_nil_r. split; [done|]. intros c. split.
    + by intros ?%elem_of_nil.
    + by intros (_ & ?%elem_of_nil & _).
  - simpl. assert (∀ j, j ∈ js → 0 <= j < width st) as Hjs'
      by (intros k Hk; apply Hjs; by right).
    destruct (grid_get_cell _ _ (maze st) i j Hwf Hi) as (m & -> & Hm); [apply Hjs; left|].
    rewrite bind_Ok.
    destruct (bool_decide (m = Open) && bool_decide ((i, j) ∉ _path st)) eqn:Htest.
    + apply andb_true_iff in Htest as [->%bool_decide_eq_true Hnp%bool_decide_eq_true].
      destruct (IH (acc ++ [(i, j)]) Hjs') as (news & -> & Hnews).
      exists ((i, j) :: news). rewrite <- app_assoc. split; [done|].
      intros c. rewrite !elem_of_cons, Hnews. split.
      * intros [->|(? & ? & ? & ?)]; [simpl; by auto|by auto].
      * intros (Hc1 & [Hc2|Hc2] & Hopen & Hp); [|by auto].
        left. destruct c as [cx cy]. simpl in *. by subst.
    + destruct (IH acc Hjs') as (news & -> & Hnews). exists news. split; [done|].
      intros c. rewrite Hnews, elem_of_cons. split; [tauto|].
      intros (Hc1 & [Hc2|Hc2] & Hopen & Hp); [|by auto]. exfalso.
      destruct c as [cx cy]. simpl in *. subst. rewrite Hm in Hopen. simplify_eq.
      apply andb_false_iff in Htest as [Ht|Ht]; apply bool_decide_eq_false in Ht; done.
Qed.

Lemma candidates_rows_iff st rows js acc :
  gen_wf st → (∀ i, i ∈ rows → 0 <= i < height st) →
  (∀ j, j ∈ js → 0 <= j < width st) →
  ∃ news, candidates_rows st rows js acc = Ok (acc ++ news) ∧
          ∀ c : coord, c ∈ news ↔
            c.1 ∈ rows ∧ c.2 ∈ js ∧ cell (maze st) c = Some Open ∧ c ∉ _path st.
Proof.
  intros Hwf Hrows Hjs. revert acc Hrows.
  induction rows as [|i rows IH]; intros acc Hrows.
  - exists []. rewrite app_nil_r. split; [done|]. intros c. split.
    + by intros ?%elem_of_nil.
    + by intros (?%elem_of_nil & _).
  - simpl.
    destruct (candidates_row_iff st i js acc Hwf) as (n1 & -> & Hn1);
      [apply Hrows; left|done|].
    rewrite bind_Ok.
    destruct (IH (acc ++ n1)) as (n2 & -> & Hn2); [intros k Hk; apply Hrows; by right|].
    exists (n1 ++ n2). rewrite app_assoc. split; [done|].
    intros c. rewrite elem_of_app, Hn1, Hn2, elem_of_cons. tauto.
Qed.

Lemma candidate_positions_iff st :
  gen_wf st →
  ∃ cands, candidate_positions st = Ok cands ∧
           ∀ c : coord, c ∈ cands ↔
             (0 < c.1 < height st - 1 ∧ 0 < c.2 < width st - 1) ∧
             cell (maze st) c = Some Open ∧ c ∉ _path st.
Proof.
  intros Hwf. unfold candidate_positions.
  destruct (candidates_rows_iff st (py_range 1 (height st - 1))
              (py_range 1 (width st - 1)) [] Hwf) as (news & -> & Hnews).
  - intros i Hi%elem_of_py_range. lia.
  - intros j Hj%elem_of_py_range. lia.
  - exists news. split; [done|]. intros c.
    rewrite Hnews, !elem_of_py_range. intuition lia.
Qed.

Lemma add_safe_walls_touches st rs :
  gen_wf st →
  ∃ st' rs',
    _add_safe_walls st rs = Ok (st', rs') ∧ _path st' = _path st ∧
    ∀ c, cell (maze st') c = cell (maze st) c ∨
         ((0 < c.1 < height st - 1 ∧ 0 < c.2 < width st - 1) ∧
          cell (maze st) c = Some Open ∧ (c ∉ _path st) ∧
          cell (maze st') c = Some Wall).
Proof.
  intros Hwf. unfold _add_safe_walls, add_safe_walls_counted.
  destruct (candidate_positions_iff st Hwf) as (cands & -> & Hcands).
  rewrite bind_Ok.
  destruct (shuffle_spec cands rs) as [_ Hmem].
  destruct (shuffle cands rs) as [shuffled rs1]. simpl in Hmem.
  destruct (safe_walls_loop_spec st shuffled (wall_count_of st (length cands)) 0 Hwf)
    as (st' & added & -> & _ & _ & Hpath & _ & Hcells & _).
  { intros c Hc. eapply cell_Some_bounds; [exact Hwf|].
    apply Hmem, Hcands in Hc. apply Hc. }
  rewrite !bind_Ok. exists st', rs1. split; [done|]. split; [done|].
  intros c. destruct (Hcells c) as [|[Hin Hw]]; [by left|].
  right. apply Hmem, Hcands in Hin. tauto.
Qed.

Lemma safe_walls_loop_full st cands wall_count added :
  wall_count <= added → safe_walls_loop st cands wall_count added = Ok (st, added).
Proof.
  intros Hle. destruct cands as [|[x y] rest]; [done|].
  rewrite safe_walls_loop_unfold. rewrite bool_decide_eq_true_2; [done|lia].
Qed.

Lemma wall_count_nonpos st n : (difficulty st <= 0)%Q → wall_count_of st n <= 0.
Proof.
  intros Hd. unfold wall_count_of, float_mul, float_of_int.
  apply py_int_nonpos, to_float_nonpos.
  assert (0 <= to_float (inject_Z (Z.of_nat n)))%Q as Hn.
  { apply to_float_nonneg. change 0%Q with (inject_Z 0). rewrite <- Zle_Qle. lia. }
  nra.
Qed.

Lemma add_safe_walls_nonpos st rs :
  gen_wf st → (difficulty st <= 0)%Q →
  ∃ rs', _add_safe_walls st rs = Ok (st, rs').
Proof.
  intros Hwf Hd. unfold _add_safe_walls, add_safe_walls_counted.
  destruct (candidate_positions_spec st Hwf) as (cands & -> & _).
  rewrite bind_Ok. destruct (shuffle cands rs) as [shuffled rs1].
  rewrite safe_walls_loop_full by (by apply wall_count_nonpos).
  rewrite !bind_Ok. by exists rs1.
Qed.

(** * The game session *)

(** ** The scan for the markers *)

Lemma cell_lookup (g : list (list Cell)) (a b : nat) :
  cell g (Z.of_nat a, Z.of_nat b) = g !! a ≫= fun row => row !! b.
Proof.
  unfold cell. simpl. rewrite bool_decide_eq_true_2 by lia. by rewrite !Nat2Z.id.
Qed.

Lemma scan_row_fields i j row game :
  level (scan_row i j row game) = level game ∧
  move_count (scan_row i j row game) = move_count game ∧
  total_score (scan_row i j row game) = total_score game ∧
  start_time (scan_row i j row game) = start_time game ∧
  history_scores (scan_row i j row game) = history_scores game ∧
  game_maze (scan_row i j row game) = game_maze game ∧
  sound_log (scan_row i j row game) = sound_log game.
Proof.
  revert j game. induction row as [|c row IH]; intros j game; [done|].
  simpl. repeat case_bool_decide.
  - apply (IH (j + 1) (set_player_pos game (i, j))).
  - apply (IH (j + 1) (set_exit_pos game (i, j))).
  - apply IH.
Qed.

Lemma scan_rows_fields i rows game :
  level (scan_rows i rows game) = level game ∧
  move_count (scan_rows i rows game) = move_count game ∧
  total_score (scan_rows i rows game) = total_score game ∧
  start_time (scan_rows i rows game) = start_time game ∧
  history_scores (scan_rows i rows game) = history_scores game ∧
  game_maze (scan_rows i rows game) = game_maze game ∧
  sound_log (scan_rows i rows game) = sound_log game.
Proof.
  revert i game. induction rows as [|row rows IH]; intros i game; [done|].
  simpl. destruct (IH (i + 1) (scan_row i 0 row game)) as (-> & -> & -> & -> & -> & -> & ->).
  apply scan_row_fields.
Qed.

Lemma scan_row_player i j row game (p : coord) :
  (∀ k : nat, row !! k = Some PlayerStart → p = (i, j + Z.of_nat k)) →
  (player_pos game = p ∨ ∃ k, row !! k = Some PlayerStart) →
  player_pos (scan_row i j row game) = p.
Proof.
  revert j game. induction row as [|c row IH]; intros j game Hall Hsome.
  - destruct Hsome as [|[k Hk]]; done.
  - assert (∀ k : nat, row !! k = Some PlayerStart → p = (i, j + 1 + Z.of_nat k)) as Hall'.
    { intros k Hk. rewrite (Hall (S k) Hk). f_equal. lia. }
    simpl. case_bool_decide as Hc; [|case_bool_decide as Hd].
    + apply IH; [done|]. left. simpl. rewrite (Hall 0%nat); [f_equal; lia|by subst].
    + apply IH; [done|]. destruct Hsome as [|[[|k] Hk]]; [by left|by simplify_eq/=|].
      right. by exists k.
    + apply IH; [done|]. destruct Hsome as [|[[|k] Hk]]; [by left|by simplify_eq/=|].
      right. by exists k.
Qed.

Lemma scan_row_exit i j row game (p : coord) :
  (∀ k : nat, row !! k = Some ExitDoor → p = (i, j + Z.of_nat k)) →
  (exit_pos game = p ∨ ∃ k, row !! k = Some ExitDoor) →
  exit_pos (scan_row i j row game) = p.
Proof.
  revert j game. induction row as [|c row IH]; intros j game Hall Hsome.
  - destruct Hsome as [|[k Hk]]; done.
  - assert (∀ k : nat, row !! k = Some ExitDoor → p = (i, j + 1 + Z.of_nat k)) as Hall'.
    { intros k Hk. rewrite (Hall (S k) Hk). f_equal. lia. }
    simpl. case_bool_decide as Hc; [|case_bool_decide as Hd].
    + apply IH; [done|]. destruct Hsome as [|[[|k] Hk]]; [by left|by simplify_eq/=|].
      right. by exists k.
    + apply IH; [done|]. left. simpl. rewrite (Hall 0%nat); [f_equal; lia|by subst].
    + apply IH; [done|]. destruct Hsome as [|[[|k] Hk]]; [by left|by simplify_eq/=|].
      right. by exists k.
Qed.

Lemma scan_rows_player i rows game (p : coord) :
  (∀ (a b : nat) row, rows !! a = Some row → row !! b = Some PlayerStart →
                      p = (i + Z.of_nat a, Z.of_nat b)) →
  (player_pos game = p ∨
   ∃ a b row, rows !! a = Some row ∧ row !! b = Some PlayerStart) →
  player_pos (scan_rows i rows game) = p.
Proof.
  revert i game. induction rows as [|row rows IH]; intros i game Hall Hsome.
  - destruct Hsome as [|(a & b & r & Ha & _)]; done.
  - simpl. apply IH.
    + intros a b r Ha Hb. rewrite (Hall (S a) b r Ha Hb). f_equal. lia.
    + destruct (decide (PlayerStart ∈ row)) as [Hex%list_elem_of_lookup|Hno'].
      2: assert (¬ ∃ k, row !! k = Some PlayerStart) as Hno
           by (intros [k Hk]; apply Hno', list_elem_of_lookup; by exists k).
      * left. apply scan_row_player; [|by right].
        intros k Hk. rewrite (Hall 0%nat k row eq_refl Hk). f_equal; lia.
      * destruct Hsome as [Hp|([|a] & b & r & Ha & Hb)].
        -- left. apply scan_row_player; [|by left]. intros k Hk. destruct Hno. by exists k.
        -- simplify_eq/=. destruct Hno. by exists b.
        -- right. by exists a, b, r.
Qed.

Lemma scan_rows_exit i rows game (p : coord) :
  (∀ (a b : nat) row, rows !! a = Some row → row !! b = Some ExitDoor →
                      p = (i + Z.of_nat a, Z.of_nat b)) →
  (exit_pos game = p ∨
   ∃ a b row, rows !! a = Some row ∧ row !! b = Some ExitDoor) →
  exit_pos (scan_rows i rows game) = p.
Proof.
  revert i game. induction rows as [|row rows IH]; intros i game Hall Hsome.
  - destruct Hsome as [|(a & b & r & Ha & _)]; done.
  - simpl. apply IH.
    + intros a b r Ha Hb. rewrite (Hall (S a) b r Ha Hb). f_equal. lia.
    + destruct (decide (ExitDoor ∈ row)) as [Hex%list_elem_of_lookup|Hno'].
      2: assert (¬ ∃ k, row !! k = Some ExitDoor) as Hno
           by (intros [k Hk]; apply Hno', list_elem_of_lookup; by exists k).
      * left. apply scan_row_exit; [|by right].
        intros k Hk. rewrite (Hall 0%nat k row eq_refl Hk). f_equal; lia.
      * destruct Hsome as [Hp|([|a] & b & r & Ha & Hb)].
        -- left. apply scan_row_exit; [|by left]. intros k Hk. destruct Hno. by exists k.
        -- simplify_eq/=. destruct Hno. by exists b.
        -- right. by exists a, b, r.
Qed.

Lemma scan_rows_markers (g : list (list Cell)) game (p q : coord) :
  (∀ c, cell g c = Some PlayerStart ↔ c = p) →
  (∀ c, cell g c = Some ExitDoor ↔ c = q) →
  player_pos (scan_rows 0 g game) = p ∧ exit_pos (scan_rows 0 g game) = q.
Proof.
  intros Hp Hq.
  assert (∀ m (c : coord), cell g c = Some m →
            ∃ a b row, g !! a = Some row ∧ row !! b = Some m) as Hfind.
  { intros m [x y] Hc. unfold cell in Hc. simpl in Hc. case_bool_decide; [|done].
    apply bind_Some in Hc as (row & Hrow & Hm). by exists (Z.to_nat x), (Z.to_nat y), row. }
  split.
  - apply scan_rows_player.
    + intros a b row Ha Hb. symmetry. rewrite Z.add_0_l. apply Hp.
      rewrite cell_lookup, Ha. done.
    + right. apply (Hfind PlayerStart p). by apply Hp.
  - apply scan_rows_exit.
    + intros a b row Ha Hb. symmetry. rewrite Z.add_0_l. apply Hq.
      rewrite cell_lookup, Ha. done.
    + right. apply (Hfind ExitDoor q). by apply Hq.
Qed.

Lemma maze_inv_markers st :
  maze_inv st → start st ≠ exit st →
  (∀ c, cell (maze st) c = Some PlayerStart ↔ c = start st) ∧
  (∀ c, cell (maze st) c = Some ExitDoor ↔ c = exit st).
Proof.
  intros (Hwf & _ & Hb & Hexit & Hstart) Hne. split; intros c; split.
  - intros Hc. destruct (Hb c _ Hc) as (_ & Hp & _). by apply Hp.
  - intros ->. by apply Hstart.
  - intros Hc. destruct (Hb c _ Hc) as (Hp & _). by apply Hp.
  - by intros ->.
Qed.

Lemma reachable_grid_step st a b :
  reachable st a b → rtc (grid_step (maze st)) a b.
Proof.
  intros Hr. induction Hr as [|a b c [Hadj [_ Hw]] _ IH]; [apply rtc_refl|].
  eapply rtc_l; [|exact IH]. done.
Qed.

Lemma generate_run_odd w h d rs :
  3 <= w → 3 <= h → ¬ (h `mod` 2 = 0 ∧ w `mod` 2 = 0) →
  ∃ st' rs',
    generate_run (__init__ w h d) rs = Ok (maze st', 1%nat, st', rs') ∧
    maze_inv st' ∧ width st' = w ∧ height st' = h ∧ connected st'.
Proof.
  intros Hw Hh Hparity. destruct (init_ok w h d Hw Hh) as (_ & Hshape & _).
  destruct (attempt_succeeds (__init__ w h d) rs Hshape Hparity)
    as (st' & rs' & Hrun & Hinv & (Hw' & Hh' & _) & Hconn).
  exists st', rs'. split; [|done].
  unfold generate_run, max_attempts. cbn [generate_loop]. by rewrite Hrun.
Qed.

Lemma level_difficulty_range level :
  0 <= level →
  (float_lit (3 # 10) <= level_difficulty level)%Q ∧
  (level_difficulty level <= float_lit (5 # 10))%Q.
Proof.
  intros Hl. unfold level_difficulty.
  set (a := float_add _ _). set (b := float_lit (5 # 10)).
  assert (float_lit (3 # 10) <= a)%Q as Ha.
  { unfold a, float_add, float_mul, float_of_int, float_lit.
    assert (to_float (to_float (3 # 10)) == to_float (3 # 10))%Q as Hid
      by (vm_compute; reflexivity).
    rewrite <- Hid at 1. apply to_float_mono.
    assert (0 <= to_float (to_float (inject_Z level) * to_float (2 # 100)))%Q.
    { apply to_float_nonneg. apply Qmult_le_0_compat.
      - apply to_float_nonneg. change 0%Q with (inject_Z 0). rewrite <- Zle_Qle. lia.
      - apply to_float_nonneg. done. }
    lra. }
  assert (float_lit (3 # 10) <= b)%Q as Hb by (vm_compute; discriminate).
  unfold py_min. destruct (Qlt_le_dec b a) as [Hlt|Hle].
  - split; [done|apply Qle_refl].
  - split; done.
Qed.

(** What the constructor of the game builds, for a level that is not
    negative. *)
Lemma MazeGame_init_spec file now lvl mc ts rs :
  0 <= lvl →
  ∃ game rs',
    MazeGame_init file now lvl mc ts rs = Ok (game, rs') ∧
    level game = lvl ∧ move_count game = mc ∧ total_score game = ts ∧
    start_time game = now ∧ history_scores game = _load_history file ∧
    sound_log game = [] ∧
    grid_wf (base_size lvl) (base_size lvl) (game_maze game) ∧
    player_pos game = (1, 1) ∧
    exit_pos game = (base_size lvl - 2, base_size lvl - 2) ∧
    game_ok game ∧
    (∀ c, cell (game_maze game) c = Some ExitDoor ↔ c = exit_pos game) ∧
    rtc (grid_step (game_maze game)) (player_pos game) (exit_pos game).
Proof.
  intros Hl. unfold MazeGame_init, _generate_new_maze. cbn [level].
  assert (3 <= base_size lvl) as Hn by (unfold base_size; lia).
  destruct (generate_run_odd (base_size lvl) (base_size lvl) (level_difficulty lvl) rs)
    as (st' & rs' & -> & Hinv & Hw' & Hh' & Hconn); [done|done| |].
  { unfold base_size. intros [Hm _]. Z.div_mod_to_equations. lia. }
  rewrite bind_Ok. cbv beta iota.
  set (game0 := set_game_maze _ (maze st')).
  pose proof Hinv as (Hwf & (_ & _ & Hs & He) & _).
  rewrite Hw', Hh' in He.
  destruct (maze_inv_markers st' Hinv) as [Hps Hex].
  { rewrite Hs, He. unfold base_size. intros [= ? ?]. lia. }
  destruct (scan_rows_markers (maze st') game0 (start st') (exit st') Hps Hex)
    as [Hpp Hep].
  destruct (scan_rows_fields 0 (maze st') game0) as (Hf1 & Hf2 & Hf3 & Hf4 & Hf5 & Hf6 & Hf7).
  eexists _, _. split; [done|].
  rewrite Hf1, Hf2, Hf3, Hf4, Hf5, Hf7, Hf6, Hpp, Hep. simpl.
  split; [done|]. split; [done|]. split; [done|]. split; [done|]. split; [done|].
  split; [done|].
  split; [unfold gen_wf in Hwf; by rewrite Hw', Hh' in Hwf|].
  split; [done|]. split; [done|]. split; [|split; [done|]].
  - unfold game_ok. rewrite Hf6, Hpp. split; [by exists (height st'), (width st')|done].
  - by apply reachable_grid_step.
Qed.

(** ** [move_player] *)

(** The three outcomes of a key, by what lies on the target cell. *)
Lemma move_player_cases h w game direction :
  grid_wf h w (game_maze game) →
  cell (game_maze game) (player_pos game) = Some PlayerStart →
  let d := key_delta (lower direction) in
  let t := ((player_pos game).1 + d.1, (player_pos game).2 + d.2) in
  (cell (game_maze game) t = None → move_player game direction = Ok (false, game)) ∧
  (cell (game_maze game) t = Some Wall →
   move_player game direction = Ok (false, log_sound game "wall")) ∧
  (∀ m, cell (game_maze game) t = Some m → m ≠ Wall →
     ∃ g',
       move_player game direction =
         Ok (true, mkGame (level game) (move_count game + 1) (total_score game)
                          (start_time game) (history_scores game) g' t
                          (exit_pos game) (sound_log game ++ ["move"%string])) ∧
       grid_wf h w g' ∧
       cell g' t = Some PlayerStart ∧
       (t ≠ player_pos game → cell g' (player_pos game) = Some Open) ∧
       ∀ c, c ≠ t → c ≠ player_pos game → cell g' c = cell (game_maze game) c).
Proof.
  intros Hwf Hpp.
  pose proof (cell_Some_bounds _ _ _ _ _ Hwf Hpp) as [Hpx Hpy].
  pose proof Hwf as [Hlen Hrows]. rewrite Forall_lookup in Hrows.
  unfold move_player. destruct (key_delta (lower direction)) as [dx dy]. simpl.
  set (tx := (player_pos game).1 + dx). set (ty := (player_pos game).2 + dy).
  assert (Z.of_nat (length (game_maze game)) = h) as Hh by lia.
  destruct (py_get_in_range (game_maze game) 0) as (row0 & Hget0 & Hrow0); [lia|].
  assert (Z.of_nat (length row0) = w) as Hw.
  { rewrite (Hrows _ _ Hrow0). lia. }
  destruct (decide (0 <= tx < h ∧ 0 <= ty < w)) as [[Hx Hy]|Hout].
  - rewrite bool_decide_eq_true_2 by lia. rewrite bool_decide_eq_true_2 by lia.
    rewrite Hget0, bind_Ok. rewrite bool_decide_eq_true_2 by lia.
    destruct (grid_get_cell _ _ (game_maze game) tx ty Hwf Hx Hy) as (m & -> & Hm).
    rewrite bind_Ok. split; [intros Hn; congruence|]. split.
    + intros Hwall. rewrite Hm in Hwall. simplify_eq.
      by rewrite bool_decide_eq_false_2 by (intros Hc; by apply Hc).
    + intros m' Hm' Hnw. rewrite Hm in Hm'. simplify_eq.
      rewrite bool_decide_eq_true_2 by done.
      unfold _update_position. cbn [game_maze player_pos log_sound].
      destruct (grid_set_cell _ _ (game_maze game) (player_pos game).1
                  (player_pos game).2 Open Hwf Hpx Hpy) as (g1 & -> & Hwf1 & Hc1 & Ho1).
      rewrite bind_Ok. rewrite <- surjective_pairing in Hc1, Ho1.
      destruct (grid_set_cell _ _ g1 tx ty PlayerStart Hwf1 Hx Hy)
        as (g2 & -> & Hwf2 & Hc2 & Ho2).
      rewrite !bind_Ok. exists g2. split; [done|]. split; [done|]. split; [done|].
      split.
      * intros Hne. rewrite Ho2 by done. done.
      * intros c Hc Hc'. rewrite Ho2, Ho1; done.
  - assert (cell (game_maze game) (tx, ty) = None) as Hnone.
    { destruct (cell (game_maze game) (tx, ty)) as [m|] eqn:Hm; [|done].
      apply (cell_Some_bounds _ _ _ _ _ Hwf) in Hm. simpl in Hm. tauto. }
    rewrite Hnone. split; [intros _|split; [done|intros m; done]].
    case_bool_decide as H1; [|done]. case_bool_decide as H2; [|done].
    rewrite Hget0, bind_Ok. case_bool_decide as H3; [|done]. lia.
Qed.

Lemma walkable_cell g c m : cell g c = Some m → m ≠ Wall → walkable g c.
Proof. intros Hc Hm. by exists m. Qed.

Lemma key_delta_cases direction :
  let d := key_delta direction in
  (direction = "w"%string ∧ d = (-1, 0)) ∨ (direction = "s"%string ∧ d = (1, 0)) ∨
  (direction = "a"%string ∧ d = (0, -1)) ∨ (direction = "d"%string ∧ d = (0, 1)) ∨
  ((direction ∉ ["w"; "s"; "a"; "d"]%string) ∧ d = (0, 0)).
Proof.
  unfold key_delta.
  destruct (String.eqb_spec direction "w") as [->|Hw]; [by left|].
  destruct (String.eqb_spec direction "s") as [->|Hs]; [by right; left|].
  destruct (String.eqb_spec direction "a") as [->|Ha]; [by right; right; left|].
  destruct (String.eqb_spec direction "d") as [->|Hd]; [by right; right; right; left|].
  right; right; right; right. split; [|done].
  rewrite !elem_of_cons, elem_of_nil. tauto.
Qed.

(** What one call of [move_player] keeps and what it may change. *)
Lemma move_player_ok game direction :
  game_ok game →
  ∃ b game',
    move_player game direction = Ok (b, game') ∧
    game_ok game' ∧
    (∀ h w, grid_wf h w (game_maze game) → grid_wf h w (game_maze game')) ∧
    (∀ c, walkable (game_maze game') c ↔ walkable (game_maze game) c) ∧
    (∀ c, cell (game_maze game') c = Some Wall ↔ cell (game_maze game) c = Some Wall) ∧
    level game' = level game ∧ total_score game' = total_score game ∧
    start_time game' = start_time game ∧
    history_scores game' = history_scores game ∧
    exit_pos game' = exit_pos game ∧
    move_count game' = (if b then move_count game + 1 else move_count game) ∧
    (if b then
       player_pos game' =
         ((player_pos game).1 + (key_delta (lower direction)).1,
          (player_pos game).2 + (key_delta (lower direction)).2) ∧
       walkable (game_maze game) (player_pos game')
     else player_pos game' = player_pos game ∧ game_maze game' = game_maze game).
Proof.
  intros [(h & w & Hwf) Hpl].
  assert (cell (game_maze game) (player_pos game) = Some PlayerStart) as Hpp
    by by apply Hpl.
  destruct (move_player_cases h w game direction Hwf Hpp) as (Hnone & Hwall & Hmove).
  cbv zeta in Hnone, Hwall, Hmove.
  set (t := ((player_pos game).1 + (key_delta (lower direction)).1,
             (player_pos game).2 + (key_delta (lower direction)).2)) in *.
  destruct (cell (game_maze game) t) as [m|] eqn:Ht.
  - destruct (decide (m = Wall)) as [->|Hm].
    + exists false, (log_sound game "wall"). rewrite Hwall by done.
      split; [done|]. split; [split; [by exists h, w|done]|].
      by repeat (split; [done|]).
    + destruct (Hmove m eq_refl Hm) as (g' & -> & Hwf' & Hct & Hcp & Hco).
      eexists true, _. split; [done|]. cbn [game_maze player_pos level move_count
        total_score start_time history_scores exit_pos].
      assert (∀ c, cell g' c = Some PlayerStart ↔ c = t) as Hpl'.
      { intros c. destruct (decide (c = t)) as [->|Hne]; [done|].
        destruct (decide (c = player_pos game)) as [->|Hne'].
        - rewrite Hcp by done. split; [done|]. intros Heq. by destruct Hne.
        - rewrite Hco by done. rewrite Hpl. tauto. }
      assert (∀ c, cell g' c = Some Wall ↔ cell (game_maze game) c = Some Wall) as Hw.
      { intros c. destruct (decide (c = t)) as [->|Hne].
        - rewrite Hct, Ht. split; intros; simplify_eq.
        - destruct (decide (c = player_pos game)) as [->|Hne'].
          + rewrite Hcp by done. rewrite Hpp. split; intros; simplify_eq.
          + by rewrite Hco. }
      assert (∀ c, walkable g' c ↔ walkable (game_maze game) c) as Hwk.
      { intros c. destruct (decide (c = t)) as [->|Hne].
        - split; intros _; [by exists m|by exists PlayerStart].
        - destruct (decide (c = player_pos game)) as [->|Hne'].
          + split; intros _; [by exists PlayerStart|].
            exists Open. by rewrite Hcp.
          + unfold walkable. by rewrite Hco. }
      split; [split; [by exists h, w|done]|].
      split.
      { intros h' w' Hwf2.
        assert (h' = h ∨ True) as _ by tauto.
        destruct Hwf as [Hl Hr], Hwf' as [Hl' Hr'], Hwf2 as [Hl2 Hr2].
        split; [congruence|].
        rewrite Forall_lookup in *. intros i row Hrow.
        destruct (lookup_lt_is_Some_2 (game_maze game) i) as [row0 Hrow0].
        { rewrite Hl, <- Hl'. by eapply lookup_lt_Some. }
        rewrite (Hr' _ _ Hrow), <- (Hr _ _ Hrow0). by eapply Hr2. }
      do 8 (split; [done|]). split; [done|]. by exists m.
  - exists false, game. rewrite Hnone by done.
    split; [done|]. split; [split; [by exists h, w|done]|].
    by repeat (split; [done|]).
Qed.

(** A key that is none of [w], [a], [s], [d] is taken as a step on the spot. *)
Lemma move_player_other_key game direction :
  game_ok game →
  lower direction ∉ ["w"; "s"; "a"; "d"]%string →
  move_player game direction =
    Ok (true, set_move_count (log_sound game "move") (move_count game + 1)).
Proof.
  intros [(h & w & Hwf) Hpl] Hkey.
  assert (cell (game_maze game) (player_pos game) = Some PlayerStart) as Hpp
    by by apply Hpl.
  destruct (move_player_cases h w game direction Hwf Hpp) as (_ & _ & Hmove).
  cbv zeta in Hmove.
  destruct (key_delta_cases (lower direction))
    as [[He _]|[[He _]|[[He _]|[[He _]|[_ Hd]]]]];
    try (exfalso; apply Hkey; rewrite He, !elem_of_cons; tauto).
  cbv zeta in Hd. rewrite Hd in Hmove. cbn [fst snd] in Hmove.
  rewrite !Z.add_0_r, <- surjective_pairing in Hmove.
  destruct (Hmove PlayerStart Hpp ltac:(done)) as (g' & -> & Hwf' & Hct & _ & Hco).
  assert (g' = game_maze game) as ->.
  { apply (grid_ext h w); [done..|]. intros c.
    destruct (decide (c = player_pos game)) as [->|Hne]; [congruence|by apply Hco]. }
  done.
Qed.

Lemma move_player_true game direction :
  game_ok game →
  walkable (game_maze game)
    ((player_pos game).1 + (key_delta (lower direction)).1,
     (player_pos game).2 + (key_delta (lower direction)).2) →
  ∃ game', move_player game direction = Ok (true, game').
Proof.
  intros [(h & w & Hwf) Hpl] (m & Hm & Hnw).
  assert (cell (game_maze game) (player_pos game) = Some PlayerStart) as Hpp
    by by apply Hpl.
  destruct (move_player_cases h w game direction Hwf Hpp) as (_ & _ & Hmove).
  destruct (Hmove m Hm Hnw) as (g' & -> & _). by eexists.
Qed.

(** ** A run of keys: [play_keys] *)

Lemma grid_step_walkable g g' :
  (∀ c, walkable g' c ↔ walkable g c) →
  ∀ a b, rtc (grid_step g') a b → rtc (grid_step g) a b.
Proof.
  intros Hw a b. apply rtc_subrel. intros x y [Hadj Hy]. split; [done|by apply Hw].
Qed.

Lemma play_keys_ok keys : ∀ game,
  game_ok game →
  ∃ game',
    play_keys game keys = Ok game' ∧
    game_ok game' ∧
    (∀ h w, grid_wf h w (game_maze game) → grid_wf h w (game_maze game')) ∧
    (∀ c, walkable (game_maze game') c ↔ walkable (game_maze game) c) ∧
    (∀ c, cell (game_maze game') c = Some Wall ↔ cell (game_maze game) c = Some Wall) ∧
    level game' = level game ∧ total_score game' = total_score game ∧
    start_time game' = start_time game ∧
    history_scores game' = history_scores game ∧
    exit_pos game' = exit_pos game ∧
    move_count game <= move_count game' <= move_count game + Z.of_nat (length keys) ∧
    rtc (grid_step (game_maze game)) (player_pos game) (player_pos game').
Proof.
  induction keys as [|key keys IH]; intros game Hok.
  - exists game. simpl. split; [done|]. split; [done|].
    do 8 (split; [done|]). split; [lia|done].
  - destruct (move_player_ok game key Hok)
      as (b & game1 & Hmp & Hok1 & Hwf1 & Hwk1 & Hw1 & Hl1 & Ht1 & Hs1 & Hh1 & He1 & Hm1 & Hp1).
    destruct (IH game1 Hok1)
      as (game' & Hrun & Hok' & Hwf' & Hwk' & Hw' & Hl' & Ht' & Hs' & Hh' & He' & Hm' & Hr').
    exists game'. cbn [play_keys]. rewrite Hmp, bind_Ok.
    split; [done|]. split; [done|].
    split; [intros h w Hwf; by apply Hwf', Hwf1|].
    split; [intros c; by rewrite Hwk', Hwk1|].
    split; [intros c; by rewrite Hw', Hw1|].
    do 5 (split; [congruence|]).
    split.
    + rewrite Hm1 in Hm'. cbn [length]. destruct b; lia.
    + etrans; [|by eapply grid_step_walkable].
      destruct b.
      * destruct Hp1 as [Hpos Hwalk].
        destruct (key_delta_cases (lower key))
          as [[_ Hd]|[[_ Hd]|[[_ Hd]|[[_ Hd]|[_ Hd]]]]];
          cbv zeta in Hd; rewrite Hd in Hpos; cbn [fst snd] in Hpos.
        5: { rewrite !Z.add_0_r, <- surjective_pairing in Hpos. by rewrite Hpos. }
        all: apply rtc_once; split; [|done]; rewrite Hpos;
          unfold adjacent; cbn [fst snd]; lia.
      * destruct Hp1 as [-> _]. done.
Qed.

Lemma adjacent_key c c' :
  adjacent c c' →
  ∃ key, key ∈ ["w"; "s"; "a"; "d"]%string ∧
         c' = (c.1 + (key_delta (lower key)).1, c.2 + (key_delta (lower key)).2).
Proof.
  destruct c as [x y], c' as [x' y']. unfold adjacent. cbn [fst snd]. intros Hadj.
  assert ((x' = x - 1 ∧ y' = y) ∨ (x' = x + 1 ∧ y' = y) ∨
          (x' = x ∧ y' = y - 1) ∨ (x' = x ∧ y' = y + 1)) as Hc by lia.
  destruct Hc as [[-> ->]|[[-> ->]|[[-> ->]|[-> ->]]]].
  - exists "w"%string. rewrite !elem_of_cons. split; [tauto|].
    change (key_delta (lower "w")) with (-1, 0). cbn [fst snd]. f_equal; lia.
  - exists "s"%string. rewrite !elem_of_cons. split; [tauto|].
    change (key_delta (lower "s")) with (1, 0). cbn [fst snd]. f_equal; lia.
  - exists "a"%string. rewrite !elem_of_cons. split; [tauto|].
    change (key_delta (lower "a")) with (0, -1). cbn [fst snd]. f_equal; lia.
  - exists "d"%string. rewrite !elem_of_cons. split; [tauto|].
    change (key_delta (lower "d")) with (0, 1). cbn [fst snd]. f_equal; lia.
Qed.

Lemma play_keys_reach g0 c target :
  rtc (grid_step g0) c target →
  ∀ game, game_ok game →
    (∀ c, walkable (game_maze game) c ↔ walkable g0 c) →
    player_pos game = c →
    ∃ keys game',
      Forall (fun key => key ∈ ["w"; "s"; "a"; "d"]%string) keys ∧
      play_keys game keys = Ok game' ∧
      player_pos game' = target ∧
      move_count game' = move_count game + Z.of_nat (length keys).
Proof.
  induction 1 as [c|c c' target [Hadj Hwalk] Hrtc IH]; intros game Hok Hwk Hpos.
  - exists [], game. split; [done|]. split; [done|]. split; [done|]. simpl. lia.
  - destruct (adjacent_key _ _ Hadj) as (key & Hkey & Hc').
    rewrite <- Hpos in Hc'.
    destruct (move_player_true game key Hok) as [game1 Hmp].
    { rewrite <- Hc'. by apply Hwk. }
    destruct (move_player_ok game key Hok)
      as (b & game1' & Hmp' & Hok1 & _ & Hwk1 & _ & _ & _ & _ & _ & _ & Hm1 & Hp1).
    rewrite Hmp in Hmp'. simplify_eq. destruct Hp1 as [Hp1 _].
    destruct (IH game1' Hok1) as (keys & game' & Hall & Hrun & Htarget & Hmc).
    { intros x. by rewrite Hwk1. }
    { congruence. }
    exists (key :: keys), game'. split; [by constructor|].
    cbn [play_keys]. rewrite Hmp, bind_Ok. split; [done|]. split; [done|].
    rewrite Hmc, Hm1. cbn [length]. lia.
Qed.

(** ** The score: [calculate_score] *)

Lemma elapsed_nonneg s now :
  (s <= now)%Q → (0 <= float_mul (float_sub now s) (float_of_int 10))%Q.
Proof.
  intros H. unfold float_mul, float_sub, float_of_int.
  apply to_float_nonneg. apply Qmult_le_0_compat.
  - apply to_float_nonneg. lra.
  - by apply to_float_nonneg.
Qed.

Lemma elapsed_mono s now1 now2 :
  (now1 <= now2)%Q →
  (float_mul (float_sub now1 s) (float_of_int 10)
   <= float_mul (float_sub now2 s) (float_of_int 10))%Q.
Proof.
  intros H. unfold float_mul, float_sub, float_of_int.
  apply to_float_mono. apply Qmult_le_compat_r.
  - apply to_float_mono. lra.
  - by apply to_float_nonneg.
Qed.

Lemma calculate_score_range game now :
  0 <= calculate_score game now ∧
  ((start_time game <= now)%Q → 0 <= move_count game →
   calculate_score game now <= 1500).
Proof.
  unfold calculate_score. split; [lia|]. intros Ht Hm.
  pose proof (py_int_nonneg _ (elapsed_nonneg _ _ Ht)). lia.
Qed.

Lemma calculate_score_antitone g1 g2 now1 now2 :
  start_time g1 = start_time g2 →
  move_count g1 <= move_count g2 → (now1 <= now2)%Q →
  calculate_score g2 now2 <= calculate_score g1 now1.
Proof.
  intros Hs Hm Ht. unfold calculate_score. rewrite Hs.
  pose proof (py_int_mono _ _ (elapsed_mono (start_time g2) _ _ Ht)). lia.
Qed.

Lemma calculate_score_zero game now :
  (start_time game + inject_Z 100 <= now)%Q → 100 <= move_count game →
  calculate_score game now = 0.
Proof.
  intros Ht Hm. unfold calculate_score.
  assert (inject_Z 1000 <=
          float_mul (float_sub now (start_time game)) (float_of_int 10))%Q as Hq.
  { unfold float_mul, float_sub, float_of_int.
    rewrite <- (to_float_Z 1000) by lia. apply to_float_mono.
    assert (inject_Z 100 <= to_float (now - start_time game))%Q as H1.
    { rewrite <- (to_float_Z 100) by lia. apply to_float_mono. lra. }
    assert (to_float (inject_Z 10) == inject_Z 10)%Q as -> by (apply to_float_Z; lia).
    assert (inject_Z 1000 == inject_Z 100 * inject_Z 10)%Q as -> by reflexivity.
    apply Qmult_le_compat_r; [done|done]. }
  apply py_int_mono in Hq. rewrite py_int_Z in Hq. lia.
Qed.

(** ** The history of scores *)

#[local] Instance Zge_total : Total Z.ge.
Proof. intros x y. lia. Qed.

#[local] Instance Zge_trans : Transitive Z.ge.
Proof. intros x y z. lia. Qed.

Lemma py_last_app_singleton n (l : list Z) a :
  (0 < n)%nat → py_last n (l ++ [a]) = py_last (n - 1) l ++ [a].
Proof.
  intros Hn. unfold py_last. rewrite length_app. cbn [length].
  rewrite drop_app_le by lia. f_equal. f_equal. lia.
Qed.

Lemma record_score_spec history total :
  record_score history total ≡ₚ py_last (MAX_HISTORY - 1) history ++ [total] ∧
  StronglySorted Z.ge (record_score history total) ∧
  length (record_score history total) = ((length history + 1) `min` MAX_HISTORY)%nat.
Proof.
  unfold record_score, sorted_reverse.
  assert (merge_sort Z.ge (py_last MAX_HISTORY (history ++ [total]))
          ≡ₚ py_last (MAX_HISTORY - 1) history ++ [total]) as Hperm.
  { rewrite merge_sort_Permutation. by rewrite py_last_app_singleton by (unfold MAX_HISTORY; lia). }
  split; [done|]. split; [apply StronglySorted_merge_sort; apply _|].
  rewrite Hperm. rewrite length_app. unfold py_last. rewrite length_drop.
  unfold MAX_HISTORY. cbn [length]. lia.
Qed.

Lemma sorted_head_max (best : Z) rest :
  StronglySorted Z.ge (best :: rest) → ∀ y, y ∈ best :: rest → y <= best.
Proof.
  intros Hs y Hy. apply StronglySorted_inv in Hs as [_ Hall].
  apply elem_of_cons in Hy as [->|Hy]; [lia|].
  rewrite Forall_forall in Hall. specialize (Hall y Hy). lia.
Qed.

(** ** Saving and loading *)

Lemma grid_set_small w h c :
  h <= 1 ∨ w <= 1 → grid_set (all_walls w h) 1 1 c = Raise IndexError.
Proof.
  intros Hs. unfold grid_set, all_walls, py_get, py_set, py_idx.
  rewrite length_replicate.
  destruct (decide (h <= 1)) as [Hh|Hh].
  - rewrite bool_decide_eq_false_2 by lia. by rewrite bool_decide_eq_false_2 by lia.
  - rewrite bool_decide_eq_true_2 by lia. rewrite bind_Ok.
    rewrite lookup_replicate_2 by lia. rewrite bind_Ok, length_replicate.
    rewrite bool_decide_eq_false_2 by lia. by rewrite bool_decide_eq_false_2 by lia.
Qed.

Lemma generate_run_small w h d rs :
  h <= 1 ∨ w <= 1 → generate_run (__init__ w h d) rs = Raise IndexError.
Proof.
  intros Hs. unfold generate_run, max_attempts. cbn [generate_loop].
  unfold attempt, _generate_base_maze.
  cbn [__init__ set_maze maze start width height fst snd].
  by rewrite grid_set_small.
Qed.

(** ** The sound manager *)

Lemma play_melody_spec tones : ∀ sm dev,
  play_melody sm tones dev =
    (if existsb id (take (length tones) dev) then mkSound false else sm,
     tones, drop (length tones) dev).
Proof.
  induction tones as [|[f d] tones IH]; intros sm dev; [done|].
  cbn [play_melody]. unfold _play_single.
  destruct dev as [|raises dev'].
  - rewrite IH. by rewrite take_nil, drop_nil.
  - rewrite IH. cbn [length take drop existsb id app].
    destruct raises; cbn [orb]; [|done]. by destruct (existsb id _).
Qed.

Lemma play_spec sm sound_type dev :
  enabled sm = true →
  let tones := tone_list (freq_duration sound_type) in
  play sm sound_type dev =
    (if existsb id (take (length tones) dev) then mkSound false else sm,
     tones, drop (length tones) dev).
Proof.
  intros He. unfold play. rewrite He. cbn [negb].
  destruct (freq_duration sound_type) as [f d|tones]; cbn [tone_list].
  - unfold _play_single. destruct dev as [|[] dev']; done.
  - apply play_melody_spec.
Qed.

Lemma play_all_disabled sound_types : ∀ sm dev,
  enabled sm = false → play_all sm sound_types dev = (sm, [], dev).
Proof.
  induction sound_types as [|t rest IH]; intros sm dev He; [done|].
  cbn [play_all]. unfold play. rewrite He. cbn [negb]. by rewrite IH.
Qed.

Lemma play_all_latch sound_types : ∀ sm dev sm' asked dev',
  play_all sm sound_types dev = (sm', asked, dev') →
  enabled sm' = true → enabled sm = true ∧ sm' = sm.
Proof.
  induction sound_types as [|t rest IH]; intros sm dev sm' asked dev' Hrun He.
  - cbn in Hrun. by simplify_eq.
  - cbn [play_all] in Hrun.
    destruct (play sm t dev) as [[sm1 asked1] dev1] eqn:Hp.
    destruct (play_all sm1 rest dev1) as [[sm2 asked2] dev2] eqn:Hr. simplify_eq.
    destruct (IH _ _ _ _ _ Hr He) as [He1 ->].
    destruct (enabled sm) eqn:Hen.
    + split; [done|]. rewrite play_spec in Hp by done. cbv zeta in Hp.
      destruct (existsb id _); by simplify_eq.
    + unfold play in Hp. rewrite Hen in Hp. cbn in Hp. simplify_eq. congruence.
Qed.

(** ** Further facts used below *)

Lemma generate_nonpos_carve w h d rs :
  3 <= w → 3 <= h → ¬ (h `mod` 2 = 0 ∧ w `mod` 2 = 0) → (d <= 0)%Q →
  ∃ st1 rs1 rs2,
    _generate_base_maze (__init__ w h d) rs = Ok (st1, rs1) ∧
    _add_safe_walls st1 rs1 = Ok (st1, rs2) ∧
    generate_run (__init__ w h d) rs = Ok (maze st1, 1%nat, st1, rs2) ∧
    generate w h d rs = Ok (maze st1).
Proof.
  intros Hw Hh Hparity Hd. destruct (init_ok w h d Hw Hh) as (_ & Hshape & _).
  destruct (base_maze_spec (__init__ w h d) rs Hshape)
    as (st1 & rs1 & Hbase & Hinv1 & Hsame1 & _).
  pose proof (base_maze_connected _ rs st1 rs1 Hshape Hparity Hbase) as Hconn1.
  destruct (validate_maze_spec st1 (proj1 Hinv1)) as (ok1 & Hv & Hok1).
  apply Hok1 in Hconn1 as Hone. subst ok1.
  destruct (add_safe_walls_nonpos st1 rs1 (proj1 Hinv1)) as [rs2 Hadd].
  { destruct Hsame1 as (_ & _ & -> & _). done. }
  exists st1, rs1, rs2. split; [done|]. split; [done|].
  assert (generate_run (__init__ w h d) rs = Ok (maze st1, 1%nat, st1, rs2)) as Hgen.
  { unfold generate_run, max_attempts. cbn [generate_loop]. unfold attempt.
    rewrite Hbase, bind_Ok. cbv beta iota. rewrite Hv, bind_Ok.
    rewrite Hadd, bind_Ok. cbv beta iota. by rewrite Hv, bind_Ok. }
  split; [done|]. unfold generate. by rewrite Hgen.
Qed.

Lemma level_difficulty_cap level :
  10 <= level → (level_difficulty level == float_lit (5 # 10))%Q.
Proof.
  intros Hl. unfold level_difficulty.
  set (a := float_add _ _). set (b := float_lit (5 # 10)).
  assert (b <= a)%Q as Ha.
  { unfold a, b, float_add, float_mul, float_of_int, float_lit.
    assert (to_float (5 # 10) == to_float (to_float (3 # 10) +
              to_float (to_float (inject_Z 10) * to_float (2 # 100))))%Q as ->
      by (vm_compute; reflexivity).
    apply to_float_mono. apply Qplus_le_r. apply to_float_mono.
    apply Qmult_le_compat_r.
    - apply to_float_mono. rewrite <- Zle_Qle. lia.
    - apply to_float_nonneg. done. }
  unfold py_min. destruct (Qlt_le_dec b a) as [Hlt|Hle]; [reflexivity|].
  by apply Qle_antisym.
Qed.

Lemma sample_game_ok : game_ok sample_game.
Proof.
  split; [exists 5, 5; exact sample_gen_wf|].
  intros [x y]. split.
  - intros Hc. pose proof (cell_Some_bounds _ _ _ _ _ sample_gen_wf Hc) as [Hx Hy].
    cbn [fst snd height width sample_gen] in Hx, Hy.
    assert (x = 0 ∨ x = 1 ∨ x = 2 ∨ x = 3 ∨ x = 4) as Hxs by lia.
    assert (y = 0 ∨ y = 1 ∨ y = 2 ∨ y = 3 ∨ y = 4) as Hys by lia.
    destruct Hxs as [->|[->|[->|[->| ->]]]];
      destruct Hys as [->|[->|[->|[->| ->]]]];
      vm_compute in Hc; first [congruence|reflexivity].
  - intros ->. vm_compute. reflexivity.
Defined.

Lemma edge_game_ok : game_ok edge_game.
Proof.
  assert (grid_wf 1 3 (game_maze edge_game)) as Hwf
    by (split; [reflexivity|repeat constructor]).
  split; [by exists 1, 3|].
  intros [x y]. split.
  - intros Hc. pose proof (cell_Some_bounds _ _ _ _ _ Hwf Hc) as [Hx Hy].
    cbn [fst snd] in Hx, Hy.
    assert (x = 0) as -> by lia.
    assert (y = 0 ∨ y = 1 ∨ y = 2) as Hys by lia.
    destruct Hys as [->|[->| ->]]; vm_compute in Hc; first [congruence|reflexivity].
  - intros ->. vm_compute. reflexivity.
Defined.

(** * Further properties of the code *)

(** ** The generator *)

(** X1: when the width and the height are at least 3 and not both even,
    the first attempt of [generate] succeeds for every difficulty and
    every random source: the fallback is not used, the exit is reached
    from the start and the start from the exit in the returned grid, and
    the search of [_validate_maze] answers [True] on it. *)
Theorem generate_odd_first_attempt w h d rs :
  3 <= w → 3 <= h → ¬ (h `mod` 2 = 0 ∧ w `mod` 2 = 0) →
  ∃ g st' rs',
    generate_run (__init__ w h d) rs = Ok (g, 1%nat, st', rs') ∧
    generate w h d rs = Ok g ∧ g = maze st' ∧
    reachable st' (start st') (exit st') ∧
    reachable st' (exit st') (start st') ∧
    _validate_maze st' = Ok true.
Proof.
  intros Hw Hh Hparity.
  destruct (generate_run_odd w h d rs Hw Hh Hparity)
    as (st' & rs' & Hrun & Hinv & _ & _ & Hconn).
  exists (maze st'), st', rs'. split; [done|].
  split; [unfold generate; by rewrite Hrun|]. split; [done|]. split; [done|].
  split; [apply reachable_sym; [by apply maze_inv_start_passable|done]|].
  destruct (validate_maze_spec st' (proj1 Hinv)) as (b & Hb & Hiff).
  apply Hiff in Hconn. by subst b.
Qed.

Lemma generate_odd_first_attempt_witness :
  3 <= 9 ∧ 3 <= 11 ∧ ¬ (11 `mod` 2 = 0 ∧ 9 `mod` 2 = 0) ∧
  ∃ g st' rs',
    generate_run (__init__ 9 11 (1 # 2)) [7; 2; 5]%nat = Ok (g, 1%nat, st', rs') ∧
    generate 9 11 (1 # 2) [7; 2; 5]%nat = Ok g ∧ g = maze st' ∧
    reachable st' (start st') (exit st') ∧
    reachable st' (exit st') (start st') ∧
    _validate_maze st' = Ok true.
Proof.
  assert (¬ (11 `mod` 2 = 0 ∧ 9 `mod` 2 = 0)) as Hp
    by (intros [H _]; vm_compute in H; discriminate).
  split; [lia|]. split; [lia|]. split; [exact Hp|].
  exact (generate_odd_first_attempt 9 11 (1 # 2) [7; 2; 5]%nat
           ltac:(lia) ltac:(lia) Hp).
Defined.

(** X2: when the width and the height are both even (and at least 3),
    [generate] fails on each of its ten attempts, for every difficulty and
    every random source, and returns the fallback grid, in which the exit
    is not reached from the start: [_validate_maze] answers [False] on the
    grid returned. *)
Theorem generate_even_uses_fallback w h d rs :
  3 <= w → 3 <= h → w `mod` 2 = 0 → h `mod` 2 = 0 →
  ∃ g k st' rs',
    generate_run (__init__ w h d) rs = Ok (g, k, st', rs') ∧
    generate w h d rs = Ok g ∧ g = maze st' ∧ k = max_attempts ∧
    ¬ connected st' ∧ _validate_maze st' = Ok false.
Proof. intros Hw Hh Hwe Hhe. by apply generate_even. Qed.

Lemma generate_even_uses_fallback_witness :
  3 <= 4 ∧ 3 <= 6 ∧ 4 `mod` 2 = 0 ∧ 6 `mod` 2 = 0 ∧
  ∃ g k st' rs',
    generate_run (__init__ 4 6 (1 # 2)) [3; 1]%nat = Ok (g, k, st', rs') ∧
    generate 4 6 (1 # 2) [3; 1]%nat = Ok g ∧ g = maze st' ∧ k = max_attempts ∧
    ¬ connected st' ∧ _validate_maze st' = Ok false.
Proof.
  split; [lia|]. split; [lia|]. split; [reflexivity|]. split; [reflexivity|].
  exact (generate_even_uses_fallback 4 6 (1 # 2) [3; 1]%nat
           ltac:(lia) ltac:(lia) eq_refl eq_refl).
Defined.

(** X3: the base carve always returns and opens the whole odd lattice:
    after [_generate_base_maze], every cell with odd row and odd column
    strictly inside the border is not a wall and is reached from the
    start by four-directional steps over cells that are not walls. *)
Theorem base_carve_spans_lattice st rs :
  gen_shape st →
  ∃ st' rs',
    _generate_base_maze st rs = Ok (st', rs') ∧
    ∀ c, lattice st' c → passable st' c ∧ reachable st' (start st') c.
Proof.
  intros Hshape.
  destruct (base_maze_spec st rs Hshape) as (st' & rs' & Hrun & Hinv & _).
  exists st', rs'. split; [done|]. intros c Hc.
  pose proof (base_maze_lattice st rs st' rs' Hshape Hrun c Hc) as Hreach.
  split; [|done].
  apply rtc_inv_r in Hreach as [<-|(y & _ & _ & Hp)]; [|done].
  by apply maze_inv_start_passable.
Qed.

Lemma base_carve_spans_lattice_witness :
  gen_shape sample_gen ∧
  ∃ st' rs',
    _generate_base_maze sample_gen [2; 0; 1]%nat = Ok (st', rs') ∧
    ∀ c, lattice st' c → passable st' c ∧ reachable st' (start st') c.
Proof.
  split; [exact sample_gen_shape|].
  exact (base_carve_spans_lattice sample_gen [2; 0; 1]%nat sample_gen_shape).
Defined.

(** X4: with a difficulty of zero or less, [_add_safe_walls] places no
    obstacle: the object it leaves is the one it was given (only the
    random source has advanced, by the shuffle). *)
Theorem add_safe_walls_zero_difficulty st rs :
  gen_wf st → (difficulty st <= 0)%Q →
  ∃ rs', _add_safe_walls st rs = Ok (st, rs').
Proof. intros Hwf Hd. by apply add_safe_walls_nonpos. Qed.

Lemma add_safe_walls_zero_difficulty_witness :
  gen_wf sample_gen_easy ∧ (difficulty sample_gen_easy <= 0)%Q ∧
  ∃ rs', _add_safe_walls sample_gen_easy [1; 0]%nat = Ok (sample_gen_easy, rs').
Proof.
  assert (gen_wf sample_gen_easy) as Hwf by (split; [reflexivity|repeat constructor]).
  assert (difficulty sample_gen_easy <= 0)%Q as Hd by (vm_compute; discriminate).
  split; [exact Hwf|]. split; [exact Hd|].
  exact (add_safe_walls_zero_difficulty sample_gen_easy [1; 0]%nat Hwf Hd).
Defined.

(** X5: with a difficulty of zero or less and a width and height (at
    least 3) that are not both even, the grid [generate] returns is the
    one its first base carve produced: obstacle injection changes
    nothing and the first attempt is accepted. *)
Theorem generate_zero_difficulty_is_carve w h d rs :
  3 <= w → 3 <= h → ¬ (h `mod` 2 = 0 ∧ w `mod` 2 = 0) → (d <= 0)%Q →
  ∃ st1 rs1,
    _generate_base_maze (__init__ w h d) rs = Ok (st1, rs1) ∧
    generate w h d rs = Ok (maze st1).
Proof.
  intros Hw Hh Hparity Hd.
  destruct (generate_nonpos_carve w h d rs Hw Hh Hparity Hd)
    as (st1 & rs1 & rs2 & Hbase & _ & _ & Hgen).
  by exists st1, rs1.
Qed.

Lemma generate_zero_difficulty_is_carve_witness :
  3 <= 9 ∧ 3 <= 9 ∧ ¬ (9 `mod` 2 = 0 ∧ 9 `mod` 2 = 0) ∧ (0 <= 0)%Q ∧
  ∃ st1 rs1,
    _generate_base_maze (__init__ 9 9 0) [5; 3; 8]%nat = Ok (st1, rs1) ∧
    generate 9 9 0 [5; 3; 8]%nat = Ok (maze st1).
Proof.
  assert (¬ (9 `mod` 2 = 0 ∧ 9 `mod` 2 = 0)) as Hp
    by (intros [H _]; vm_compute in H; discriminate).
  assert (0 <= 0)%Q as Hd by (vm_compute; discriminate).
  split; [lia|]. split; [lia|]. split; [exact Hp|]. split; [exact Hd|].
  exact (generate_zero_difficulty_is_carve 9 9 0 [5; 3; 8]%nat
           ltac:(lia) ltac:(lia) Hp Hd).
Defined.

(** X6: [_add_safe_walls] writes only on candidates: every cell of the
    grid is left as it was, or it was an [Open] cell strictly inside the
    border that is not in the [_path] list and it now holds [Wall]; the
    [_path] list itself is not changed. *)
Theorem add_safe_walls_only_candidates st rs :
  gen_wf st →
  ∃ st' rs',
    _add_safe_walls st rs = Ok (st', rs') ∧ _path st' = _path st ∧
    ∀ c, cell (maze st') c = cell (maze st) c ∨
         ((0 < c.1 < height st - 1 ∧ 0 < c.2 < width st - 1) ∧
          cell (maze st) c = Some Open ∧ (c ∉ _path st) ∧
          cell (maze st') c = Some Wall).
Proof. intros Hwf. by apply add_safe_walls_touches. Qed.

Lemma add_safe_walls_only_candidates_witness :
  gen_wf sample_gen ∧
  ∃ st' rs',
    _add_safe_walls sample_gen [2; 0; 1]%nat = Ok (st', rs') ∧
    _path st' = _path sample_gen ∧
    ∀ c, cell (maze st') c = cell (maze sample_gen) c ∨
         ((0 < c.1 < height sample_gen - 1 ∧ 0 < c.2 < width sample_gen - 1) ∧
          cell (maze sample_gen) c = Some Open ∧ (c ∉ _path sample_gen) ∧
          cell (maze st') c = Some Wall).
Proof.
  split; [exact sample_gen_wf|].
  exact (add_safe_walls_only_candidates sample_gen [2; 0; 1]%nat sample_gen_wf).
Defined.

(** X7: for a width or a height of 1 or less, [generate] raises
    [IndexError]: the first write, of the player marker on (1, 1), falls
    outside the grid, and nothing catches it. *)
Theorem generate_small_raises w h d rs :
  h <= 1 ∨ w <= 1 → generate w h d rs = Raise IndexError.
Proof. intros Hs. unfold generate. by rewrite generate_run_small. Qed.

Lemma generate_small_raises_witness :
  (1 <= 1 ∨ 7 <= 1) ∧ generate 7 1 (1 # 2) [3]%nat = Raise IndexError.
Proof.
  assert (1 <= 1 ∨ 7 <= 1) as Hs by (left; lia).
  split; [exact Hs|]. exact (generate_small_raises 7 1 (1 # 2) [3]%nat Hs).
Defined.

(** ** The game session *)

(** X8: the parameters [_generate_new_maze] hands to the generator at a
    level that is not negative: the size [9 + 2 * level] is odd and at
    least 9; the difficulty, computed in floating point, lies between the
    float 0.3 (which is 5404319552844595 / 2^54, a little less than
    3/10) and 0.5; it is the float 0.3 at level 0 and 0.5 from level 10
    on. *)
Theorem level_parameters lvl :
  0 <= lvl →
  9 <= base_size lvl ∧ base_size lvl `mod` 2 = 1 ∧
  (float_lit (3 # 10) <= level_difficulty lvl)%Q ∧
  (level_difficulty lvl <= 5 # 10)%Q ∧
  (10 <= lvl → (level_difficulty lvl == 5 # 10)%Q) ∧
  (level_difficulty 0 == float_lit (3 # 10))%Q ∧
  (float_lit (3 # 10) == 5404319552844595 # 18014398509481984)%Q ∧
  (float_lit (3 # 10) < 3 # 10)%Q.
Proof.
  intros Hl. unfold base_size. split; [lia|].
  split; [rewrite Z.add_comm, Z.mul_comm, Z.add_mod by lia;
          rewrite (Z.mul_comm 2), Z.mod_mul by lia; reflexivity|].
  destruct (level_difficulty_range lvl Hl) as [Hlo Hhi].
  assert (float_lit (5 # 10) == 5 # 10)%Q as Hhalf by (vm_compute; reflexivity).
  split; [done|]. split; [by rewrite <- Hhalf|].
  split; [intros H10; rewrite <- Hhalf; by apply level_difficulty_cap|].
  split; [vm_compute; reflexivity|]. split; [vm_compute; reflexivity|].
  vm_compute; reflexivity.
Qed.

Lemma level_parameters_witness :
  0 <= 12 ∧
  9 <= base_size 12 ∧ base_size 12 `mod` 2 = 1 ∧
  (float_lit (3 # 10) <= level_difficulty 12)%Q ∧
  (level_difficulty 12 <= 5 # 10)%Q ∧
  (10 <= 12 → (level_difficulty 12 == 5 # 10)%Q) ∧
  (level_difficulty 0 == float_lit (3 # 10))%Q ∧
  (float_lit (3 # 10) == 5404319552844595 # 18014398509481984)%Q ∧
  (float_lit (3 # 10) < 3 # 10)%Q.
Proof. split; [lia|]. exact (level_parameters 12 ltac:(lia)). Defined.

(** X9: a new game at a level that is not negative: the constructor
    returns normally for every save file, clock and random source; the
    fields are the arguments, the history is what [_load_history] reads;
    the grid is square of side [9 + 2 * level]; the scan finds the player
    on (1, 1) and the exit on (side - 2, side - 2), each marker sits on
    that cell only; the exit is reached from the player by steps over
    cells that are not walls; and [check_victory] answers [False]. *)
Theorem new_game_playable file now lvl mc ts rs :
  0 <= lvl →
  ∃ game rs',
    MazeGame_init file now lvl mc ts rs = Ok (game, rs') ∧
    level game = lvl ∧ move_count game = mc ∧ total_score game = ts ∧
    start_time game = now ∧ history_scores game = _load_history file ∧
    grid_wf (base_size lvl) (base_size lvl) (game_maze game) ∧
    player_pos game = (1, 1) ∧
    exit_pos game = (base_size lvl - 2, base_size lvl - 2) ∧
    (∀ c, cell (game_maze game) c = Some PlayerStart ↔ c = player_pos game) ∧
    (∀ c, cell (game_maze game) c = Some ExitDoor ↔ c = exit_pos game) ∧
    rtc (grid_step (game_maze game)) (player_pos game) (exit_pos game) ∧
    check_victory game = (false, game).
Proof.
  intros Hl.
  destruct (MazeGame_init_spec file now lvl mc ts rs Hl)
    as (game & rs' & Hrun & H1 & H2 & H3 & H4 & H5 & _ & Hwf & Hp & He & Hok & Hex & Hr).
  exists game, rs'. do 9 (split; [done|]). split; [by apply Hok|].
  split; [done|]. split; [done|].
  unfold check_victory. rewrite bool_decide_eq_false_2; [done|].
  rewrite Hp, He. unfold base_size. intros Heq. simplify_eq. lia.
Qed.

Lemma new_game_playable_witness :
  0 <= 1 ∧
  ∃ game rs',
    MazeGame_init None 0 1 0 0 [3; 1; 4; 1; 5]%nat = Ok (game, rs') ∧
    level game = 1 ∧ move_count game = 0 ∧ total_score game = 0 ∧
    start_time game = 0%Q ∧ history_scores game = _load_history None ∧
    grid_wf (base_size 1) (base_size 1) (game_maze game) ∧
    player_pos game = (1, 1) ∧
    exit_pos game = (base_size 1 - 2, base_size 1 - 2) ∧
    (∀ c, cell (game_maze game) c = Some PlayerStart ↔ c = player_pos game) ∧
    (∀ c, cell (game_maze game) c = Some ExitDoor ↔ c = exit_pos game) ∧
    rtc (grid_step (game_maze game)) (player_pos game) (exit_pos game) ∧
    check_victory game = (false, game).
Proof.
  split; [lia|].
  exact (new_game_playable None 0 1 0 0 [3; 1; 4; 1; 5]%nat ltac:(lia)).
Defined.

(** X10: a key towards a wall: [move_player] answers [False], asks for
    the sound [wall], and changes nothing else: grid, position and move
    count stay. *)
Theorem move_player_into_wall game direction :
  game_ok game →
  cell (game_maze game)
    ((player_pos game).1 + (key_delta (lower direction)).1,
     (player_pos game).2 + (key_delta (lower direction)).2) = Some Wall →
  move_player game direction = Ok (false, log_sound game "wall").
Proof.
  intros [(h & w & Hwf) Hpl] Hwall.
  assert (cell (game_maze game) (player_pos game) = Some PlayerStart) as Hpp
    by by apply Hpl.
  destruct (move_player_cases h w game direction Hwf Hpp) as (_ & Hw & _).
  by apply Hw.
Qed.

Lemma move_player_into_wall_witness :
  game_ok sample_game ∧
  cell (game_maze sample_game)
    ((player_pos sample_game).1 + (key_delta (lower "W")).1,
     (player_pos sample_game).2 + (key_delta (lower "W")).2) = Some Wall ∧
  move_player sample_game "W" = Ok (false, log_sound sample_game "wall").
Proof.
  split; [exact sample_game_ok|]. split; [reflexivity|].
  exact (move_player_into_wall sample_game "W" sample_game_ok eq_refl).
Defined.

(** X11: a key towards a cell outside the grid: [move_player] answers
    [False] and changes nothing; no sound is asked for and no index
    error is raised. *)
Theorem move_player_off_grid game direction :
  game_ok game →
  cell (game_maze game)
    ((player_pos game).1 + (key_delta (lower direction)).1,
     (player_pos game).2 + (key_delta (lower direction)).2) = None →
  move_player game direction = Ok (false, game).
Proof.
  intros [(h & w & Hwf) Hpl] Hnone.
  assert (cell (game_maze game) (player_pos game) = Some PlayerStart) as Hpp
    by by apply Hpl.
  destruct (move_player_cases h w game direction Hwf Hpp) as (Hn & _ & _).
  by apply Hn.
Qed.

Lemma move_player_off_grid_witness :
  game_ok edge_game ∧
  cell (game_maze edge_game)
    ((player_pos edge_game).1 + (key_delta (lower "a")).1,
     (player_pos edge_game).2 + (key_delta (lower "a")).2) = None ∧
  move_player edge_game "a" = Ok (false, edge_game).
Proof.
  split; [exact edge_game_ok|]. split; [reflexivity|].
  exact (move_player_off_grid edge_game "a" edge_game_ok eq_refl).
Defined.

(** X12: a key towards a cell of the grid that is not a wall:
    [move_player] answers [True]; the player is on the target, which
    now holds the player marker (also when it was the exit door); the
    cell left holds [Open]; every other cell is as before; the move
    count has grown by one, the sound [move] was asked for, and level,
    score, clock, history and exit position stay. *)
Theorem move_player_steps game direction m :
  game_ok game →
  cell (game_maze game)
    ((player_pos game).1 + (key_delta (lower direction)).1,
     (player_pos game).2 + (key_delta (lower direction)).2) = Some m →
  m ≠ Wall →
  ∃ game',
    move_player game direction = Ok (true, game') ∧
    player_pos game' =
      ((player_pos game).1 + (key_delta (lower direction)).1,
       (player_pos game).2 + (key_delta (lower direction)).2) ∧
    cell (game_maze game') (player_pos game') = Some PlayerStart ∧
    (player_pos game' ≠ player_pos game →
     cell (game_maze game') (player_pos game) = Some Open) ∧
    (∀ c, c ≠ player_pos game' → c ≠ player_pos game →
          cell (game_maze game') c = cell (game_maze game) c) ∧
    move_count game' = move_count game + 1 ∧
    sound_log game' = sound_log game ++ ["move"%string] ∧
    level game' = level game ∧ total_score game' = total_score game ∧
    start_time game' = start_time game ∧
    history_scores game' = history_scores game ∧
    exit_pos game' = exit_pos game ∧
    game_ok game'.
Proof.
  intros Hok Hm Hnw. pose proof Hok as [(h & w & Hwf) Hpl].
  assert (cell (game_maze game) (player_pos game) = Some PlayerStart) as Hpp
    by by apply Hpl.
  destruct (move_player_cases h w game direction Hwf Hpp) as (_ & _ & Hmove).
  destruct (Hmove m Hm Hnw) as (g' & Hrun & Hwf' & Hct & Hcp & Hco).
  destruct (move_player_ok game direction Hok) as (b & game' & Hrun' & Hok' & _).
  rewrite Hrun in Hrun'. simplify_eq.
  eexists. split; [done|]. cbn [player_pos game_maze move_count sound_log level
    total_score start_time history_scores exit_pos].
  by do 11 (split; [done|]).
Qed.

Lemma move_player_steps_witness :
  game_ok sample_game ∧
  cell (game_maze sample_game)
    ((player_pos sample_game).1 + (key_delta (lower "d")).1,
     (player_pos sample_game).2 + (key_delta (lower "d")).2) = Some Open ∧
  Open ≠ Wall ∧
  ∃ game',
    move_player sample_game "d" = Ok (true, game') ∧
    player_pos game' =
      ((player_pos sample_game).1 + (key_delta (lower "d")).1,
       (player_pos sample_game).2 + (key_delta (lower "d")).2) ∧
    cell (game_maze game') (player_pos game') = Some PlayerStart ∧
    (player_pos game' ≠ player_pos sample_game →
     cell (game_maze game') (player_pos sample_game) = Some Open) ∧
    (∀ c, c ≠ player_pos game' → c ≠ player_pos sample_game →
          cell (game_maze game') c = cell (game_maze sample_game) c) ∧
    move_count game' = move_count sample_game + 1 ∧
    sound_log game' = sound_log sample_game ++ ["move"%string] ∧
    level game' = level sample_game ∧ total_score game' = total_score sample_game ∧
    start_time game' = start_time sample_game ∧
    history_scores game' = history_scores sample_game ∧
    exit_pos game' = exit_pos sample_game ∧
    game_ok game'.
Proof.
  assert (Open ≠ Wall) as Hne by discriminate.
  split; [exact sample_game_ok|]. split; [reflexivity|]. split; [exact Hne|].
  exact (move_player_steps sample_game "d" Open sample_game_ok eq_refl Hne).
Defined.

(** X13: a key that, once lowered, is none of [w], [a], [s], [d] is
    taken as a step on the spot: [move_player] answers [True], asks for
    the sound [move] and adds one to the move count, while the grid and
    the position stay as they are. *)
Theorem move_player_unknown_key game direction :
  game_ok game →
  lower direction ∉ ["w"; "s"; "a"; "d"]%string →
  move_player game direction =
    Ok (true, set_move_count (log_sound game "move") (move_count game + 1)).
Proof. intros Hok Hkey. by apply move_player_other_key. Qed.

Lemma move_player_unknown_key_witness :
  game_ok sample_game ∧
  (lower "x" ∉ ["w"; "s"; "a"; "d"]%string) ∧
  move_player sample_game "x" =
    Ok (true, set_move_count (log_sound sample_game "move")
                             (move_count sample_game + 1)).
Proof.
  assert (lower "x" ∉ ["w"; "s"; "a"; "d"]%string) as Hkey.
  { rewrite !elem_of_cons, elem_of_nil. cbn [lower lower_ascii].
    intros [H|[H|[H|[H|[]]]]]; vm_compute in H; discriminate H. }
  split; [exact sample_game_ok|]. split; [exact Hkey|].
  exact (move_player_unknown_key sample_game "x" sample_game_ok Hkey).
Defined.

(** X14: any run of keys handed to [move_player] returns normally and
    keeps the game well formed: the grid stays rectangular with the
    player marker on the player's cell only; the cells holding a wall
    are the same before and after; level, score, clock, history and exit
    position stay; and the move count grows by at most one per key. *)
Theorem play_keys_invariants game keys :
  game_ok game →
  ∃ game',
    play_keys game keys = Ok game' ∧
    game_ok game' ∧
    (∀ h w, grid_wf h w (game_maze game) → grid_wf h w (game_maze game')) ∧
    (∀ c, cell (game_maze game') c = Some Wall ↔ cell (game_maze game) c = Some Wall) ∧
    level game' = level game ∧ total_score game' = total_score game ∧
    start_time game' = start_time game ∧
    history_scores game' = history_scores game ∧
    exit_pos game' = exit_pos game ∧
    move_count game <= move_count game' <= move_count game + Z.of_nat (length keys).
Proof.
  intros Hok.
  destruct (play_keys_ok keys game Hok)
    as (game' & Hrun & Hok' & Hwf & _ & Hw & Hl & Ht & Hs & Hh & He & Hm & _).
  exists game'. by do 9 (split; [done|]).
Qed.

Lemma play_keys_invariants_witness :
  game_ok sample_game ∧
  ∃ game',
    play_keys sample_game ["d"; "d"; "w"; "s"; "x"; "s"]%string = Ok game' ∧
    game_ok game' ∧
    (∀ h w, grid_wf h w (game_maze sample_game) → grid_wf h w (game_maze game')) ∧
    (∀ c, cell (game_maze game') c = Some Wall ↔
          cell (game_maze sample_game) c = Some Wall) ∧
    level game' = level sample_game ∧ total_score game' = total_score sample_game ∧
    start_time game' = start_time sample_game ∧
    history_scores game' = history_scores sample_game ∧
    exit_pos game' = exit_pos sample_game ∧
    move_count sample_game <= move_count game'
      <= move_count sample_game
         + Z.of_nat (length ["d"; "d"; "w"; "s"; "x"; "s"]%string).
Proof.
  split; [exact sample_game_ok|].
  exact (play_keys_invariants sample_game ["d"; "d"; "w"; "s"; "x"; "s"]%string
           sample_game_ok).
Defined.

(** X15: the player never passes a wall: after any run of keys the
    player stands on a cell that is not a wall in the grid the run
    started on, and that cell is reached from the first position by
    four-directional steps over such cells. *)
Theorem play_keys_stays_reachable game keys :
  game_ok game →
  ∃ game',
    play_keys game keys = Ok game' ∧
    walkable (game_maze game) (player_pos game') ∧
    rtc (grid_step (game_maze game)) (player_pos game) (player_pos game').
Proof.
  intros Hok.
  destruct (play_keys_ok keys game Hok)
    as (game' & Hrun & Hok' & _ & Hwk & _ & _ & _ & _ & _ & _ & _ & Hr).
  exists game'. split; [done|]. split; [|done].
  apply Hwk. exists PlayerStart. split; [|done]. by apply Hok'.
Qed.

Lemma play_keys_stays_reachable_witness :
  game_ok sample_game ∧
  ∃ game',
    play_keys sample_game ["s"; "d"; "s"; "d"; "a"]%string = Ok game' ∧
    walkable (game_maze sample_game) (player_pos game') ∧
    rtc (grid_step (game_maze sample_game)) (player_pos sample_game)
        (player_pos game').
Proof.
  split; [exact sample_game_ok|].
  exact (play_keys_stays_reachable sample_game ["s"; "d"; "s"; "d"; "a"]%string
           sample_game_ok).
Defined.

(** X16: every cell reached from the player by four-directional steps
    over cells that are not walls can be played to: there is a run of
    keys, each one of [w], [a], [s], [d], after which the player stands
    on it, every key having counted as one move. *)
Theorem play_keys_reaches game target :
  game_ok game →
  rtc (grid_step (game_maze game)) (player_pos game) target →
  ∃ keys game',
    Forall (fun key => key ∈ ["w"; "s"; "a"; "d"]%string) keys ∧
    play_keys game keys = Ok game' ∧
    player_pos game' = target ∧
    move_count game' = move_count game + Z.of_nat (length keys).
Proof.
  intros Hok Hr.
  by apply (play_keys_reach (game_maze game) (player_pos game) target Hr game).
Qed.

Lemma play_keys_reaches_witness :
  game_ok sample_game ∧
  rtc (grid_step (game_maze sample_game)) (player_pos sample_game) (2, 1) ∧
  ∃ keys game',
    Forall (fun key => key ∈ ["w"; "s"; "a"; "d"]%string) keys ∧
    play_keys sample_game keys = Ok game' ∧
    player_pos game' = (2, 1) ∧
    move_count game' = move_count sample_game + Z.of_nat (length keys).
Proof.
  assert (rtc (grid_step (game_maze sample_game)) (player_pos sample_game) (2, 1))
    as Hr.
  { apply rtc_once. split; [reflexivity|].
    exists Open. split; [reflexivity|discriminate]. }
  split; [exact sample_game_ok|]. split; [exact Hr|].
  exact (play_keys_reaches sample_game (2, 1) sample_game_ok Hr).
Defined.

(** X17: every level that is not negative can be won: for every save
    file, clock and random source the new game admits a run of keys
    [w], [a], [s], [d] after which [check_victory] answers [True] and
    asks for the sound [win]. *)
Theorem level_can_be_won file now lvl mc ts rs :
  0 <= lvl →
  ∃ game rs' keys game',
    MazeGame_init file now lvl mc ts rs = Ok (game, rs') ∧
    Forall (fun key => key ∈ ["w"; "s"; "a"; "d"]%string) keys ∧
    play_keys game keys = Ok game' ∧
    check_victory game' = (true, log_sound game' "win").
Proof.
  intros Hl.
  destruct (MazeGame_init_spec file now lvl mc ts rs Hl)
    as (game & rs' & Hrun & _ & _ & _ & _ & _ & _ & _ & _ & _ & Hok & _ & Hr).
  destruct (play_keys_reach _ _ _ Hr game Hok) as (keys & game' & Hall & Hplay & Hpos & _);
    [done|done|].
  destruct (play_keys_ok keys game Hok)
    as (game2 & Hplay2 & _ & _ & _ & _ & _ & _ & _ & _ & He & _).
  rewrite Hplay in Hplay2. simplify_eq.
  exists game, rs', keys, game2. split; [done|]. split; [done|]. split; [done|].
  unfold check_victory. rewrite bool_decide_eq_true_2; [done|]. congruence.
Qed.

Lemma level_can_be_won_witness :
  0 <= 0 ∧
  ∃ game rs' keys game',
    MazeGame_init None 0 0 0 0 [2; 7; 1; 8]%nat = Ok (game, rs') ∧
    Forall (fun key => key ∈ ["w"; "s"; "a"; "d"]%string) keys ∧
    play_keys game keys = Ok game' ∧
    check_victory game' = (true, log_sound game' "win").
Proof.
  split; [lia|].
  exact (level_can_be_won None 0 0 0 0 [2; 7; 1; 8]%nat ltac:(lia)).
Defined.

(** ** The score *)

(** X18: when the clock has not gone back since the level started and
    the move count is not negative, the score of a level lies between 0
    and 1500. *)
Theorem calculate_score_bounds game now :
  (start_time game <= now)%Q → 0 <= move_count game →
  0 <= calculate_score game now <= 1500.
Proof.
  intros Ht Hm. destruct (calculate_score_range game now) as [H0 H1].
  split; [done|by apply H1].
Qed.

Lemma calculate_score_bounds_witness :
  (start_time sample_game <= 7 # 2)%Q ∧ 0 <= move_count sample_game ∧
  0 <= calculate_score sample_game (7 # 2) <= 1500.
Proof.
  assert (start_time sample_game <= 7 # 2)%Q as Ht by (vm_compute; discriminate).
  assert (0 <= move_count sample_game) as Hm by (vm_compute; discriminate).
  split; [exact Ht|]. split; [exact Hm|].
  exact (calculate_score_bounds sample_game (7 # 2) Ht Hm).
Defined.

(** X19: the score does not grow with time nor with moves: of two games
    started at the same time, the one with at least as many moves, asked
    at the same time or later, scores at most as much. *)
Theorem calculate_score_decreasing g1 g2 now1 now2 :
  start_time g1 = start_time g2 →
  move_count g1 <= move_count g2 → (now1 <= now2)%Q →
  calculate_score g2 now2 <= calculate_score g1 now1.
Proof. intros Hs Hm Ht. by apply calculate_score_antitone. Qed.

Lemma calculate_score_decreasing_witness :
  start_time sample_game = start_time (set_move_count sample_game 12) ∧
  move_count sample_game <= move_count (set_move_count sample_game 12) ∧
  (3 # 2 <= 9 # 2)%Q ∧
  calculate_score (set_move_count sample_game 12) (9 # 2)
    <= calculate_score sample_game (3 # 2).
Proof.
  assert (move_count sample_game <= move_count (set_move_count sample_game 12))
    as Hm by (vm_compute; discriminate).
  assert (3 # 2 <= 9 # 2)%Q as Ht by (vm_compute; discriminate).
  split; [reflexivity|]. split; [exact Hm|]. split; [exact Ht|].
  exact (calculate_score_decreasing sample_game (set_move_count sample_game 12)
           (3 # 2) (9 # 2) eq_refl Hm Ht).
Defined.

(** X20: a level finished 100 seconds or more after its start with 100
    moves or more scores 0. *)
Theorem calculate_score_runs_out game now :
  (start_time game + inject_Z 100 <= now)%Q → 100 <= move_count game →
  calculate_score game now = 0.
Proof. intros Ht Hm. by apply calculate_score_zero. Qed.

Lemma calculate_score_runs_out_witness :
  (start_time (set_move_count sample_game 100) + inject_Z 100 <= 201 # 2)%Q ∧
  100 <= move_count (set_move_count sample_game 100) ∧
  calculate_score (set_move_count sample_game 100) (201 # 2) = 0.
Proof.
  assert (start_time (set_move_count sample_game 100) + inject_Z 100 <= 201 # 2)%Q
    as Ht by (vm_compute; discriminate).
  assert (100 <= move_count (set_move_count sample_game 100)) as Hm
    by (vm_compute; discriminate).
  split; [exact Ht|]. split; [exact Hm|].
  exact (calculate_score_runs_out (set_move_count sample_game 100) (201 # 2) Ht Hm).
Defined.

(** ** The history of scores *)

(** X21: the history update of [main] after a victory: the new history
    holds the new total and the last [MAX_HISTORY - 1] entries of the old
    one, in descending order, so it has at most [MAX_HISTORY] entries and
    the new total is among them. *)
Theorem record_score_keeps_last history total :
  record_score history total ≡ₚ py_last (MAX_HISTORY - 1) history ++ [total] ∧
  StronglySorted Z.ge (record_score history total) ∧
  length (record_score history total) = ((length history + 1) `min` MAX_HISTORY)%nat ∧
  total ∈ record_score history total.
Proof.
  destruct (record_score_spec history total) as (Hperm & Hsort & Hlen).
  split; [done|]. split; [done|]. split; [done|].
  rewrite Hperm. apply elem_of_app. right. by apply list_elem_of_singleton.
Qed.

(** X22: a full history loses its best entry: when the history holds
    [MAX_HISTORY] entries in descending order, as the update leaves it,
    the next update drops the first one, which is the highest, and keeps
    the four others with the new total, whatever that total is. *)
Theorem record_score_drops_best history total :
  length history = MAX_HISTORY → StronglySorted Z.ge history →
  ∃ best rest,
    history = best :: rest ∧
    (∀ y, y ∈ history → y <= best) ∧
    record_score history total ≡ₚ rest ++ [total].
Proof.
  intros Hlen Hsort. destruct history as [|best rest]; [done|].
  exists best, rest. split; [done|]. split; [by apply sorted_head_max|].
  destruct (record_score_spec (best :: rest) total) as (Hperm & _).
  rewrite Hperm. unfold py_last. rewrite Hlen. by cbn.
Qed.

Lemma record_score_drops_best_witness :
  length [900; 700; 500; 300; 100] = MAX_HISTORY ∧
  StronglySorted Z.ge [900; 700; 500; 300; 100] ∧
  ∃ best rest,
    [900; 700; 500; 300; 100] = best :: rest ∧
    (∀ y, y ∈ [900; 700; 500; 300; 100] → y <= best) ∧
    record_score [900; 700; 500; 300; 100] 50 ≡ₚ rest ++ [50].
Proof.
  assert (StronglySorted Z.ge [900; 700; 500; 300; 100]) as Hs
    by (repeat constructor; vm_compute; discriminate).
  split; [reflexivity|]. split; [exact Hs|].
  exact (record_score_drops_best [900; 700; 500; 300; 100] 50 eq_refl Hs).
Defined.

(** X23: the history update of the victory branch does not reach the
    next level: the game [main] continues with has the level raised by
    one, no moves, the total raised by the score of the level, and as
    history what [_load_history] reads from the save file, whatever the
    history and the score of the game just won were; a save of the new
    game writes that history back. *)
Theorem next_level_history_from_file game file now now' rs :
  0 <= level game + 1 →
  ∃ game' rs',
    next_level game file now now' rs = Ok (game', rs') ∧
    level game' = level game + 1 ∧ move_count game' = 0 ∧
    total_score game' = total_score game + calculate_score game now ∧
    start_time game' = now' ∧
    history_scores game' = _load_history file ∧
    saved_history (save_game game') = _load_history file.
Proof.
  intros Hl. unfold next_level. cbn [level total_score].
  destruct (MazeGame_init_spec file now' (level game + 1) 0
              (total_score game + calculate_score game now) rs Hl)
    as (game' & rs' & Hrun & H1 & H2 & H3 & H4 & H5 & _).
  exists game', rs'. by do 6 (split; [done|]).
Qed.

Lemma next_level_history_from_file_witness :
  0 <= level sample_game + 1 ∧
  ∃ game' rs',
    next_level sample_game None (5 # 1) (7 # 1) [6; 2]%nat = Ok (game', rs') ∧
    level game' = level sample_game + 1 ∧ move_count game' = 0 ∧
    total_score game' =
      total_score sample_game + calculate_score sample_game (5 # 1) ∧
    start_time game' = (7 # 1)%Q ∧
    history_scores game' = _load_history None ∧
    saved_history (save_game game') = _load_history None.
Proof.
  assert (0 <= level sample_game + 1) as Hl by (vm_compute; discriminate).
  split; [exact Hl|].
  exact (next_level_history_from_file sample_game None (5 # 1) (7 # 1)
           [6; 2]%nat Hl).
Defined.

(** ** Saving and loading *)

(** X24: what a save keeps: loading the file [save_game] wrote for a
    game at a level that is not negative gives a game with the same
    level, move count and total score, and the first [MAX_HISTORY]
    entries of the history; the maze is generated anew, with the player
    back on (1, 1), and the clock starts at the time of loading. *)
Theorem load_saved_game game now rs :
  0 <= level game →
  ∃ game' rs',
    load_game (Some (save_game game)) now rs = Some (game', rs') ∧
    level game' = level game ∧ move_count game' = move_count game ∧
    total_score game' = total_score game ∧
    history_scores game' = take MAX_HISTORY (history_scores game) ∧
    start_time game' = now ∧
    player_pos game' = (1, 1) ∧
    generate (base_size (level game)) (base_size (level game))
             (level_difficulty (level game)) rs = Ok (game_maze game').
Proof.
  intros Hl. unfold load_game, save_game. cbn [saved_level saved_move_count
    saved_total_score].
  destruct (MazeGame_init_spec
              (Some (mkSave (level game) (move_count game) (total_score game)
                            (history_scores game)))
              now (level game) (move_count game) (total_score game) rs Hl)
    as (game' & rs' & Hrun & H1 & H2 & H3 & H4 & H5 & _ & _ & Hp & _).
  rewrite Hrun. exists game', rs'. do 7 (split; [done|]).
  unfold MazeGame_init, _generate_new_maze in Hrun. cbn [level] in Hrun.
  unfold generate.
  destruct (generate_run _ rs) as [[[[g k] st'] rs1]|e]; [|done].
  rewrite bind_Ok. cbv [mbind result_bind] in Hrun. cbv beta iota in Hrun |- *.
  injection Hrun as <- <-. f_equal. symmetry.
  match goal with
  | |- game_maze (scan_rows 0 ?g0 ?game0) = _ =>
      destruct (scan_rows_fields 0 g0 game0) as (_ & _ & _ & _ & _ & Hm & _)
  end.
  exact Hm.
Qed.

Lemma load_saved_game_witness :
  0 <= level sample_game ∧
  ∃ game' rs',
    load_game (Some (save_game sample_game)) (3 # 1) [1; 9; 4]%nat = Some (game', rs') ∧
    level game' = level sample_game ∧ move_count game' = move_count sample_game ∧
    total_score game' = total_score sample_game ∧
    history_scores game' = take MAX_HISTORY (history_scores sample_game) ∧
    start_time game' = (3 # 1)%Q ∧
    player_pos game' = (1, 1) ∧
    generate (base_size (level sample_game)) (base_size (level sample_game))
             (level_difficulty (level sample_game)) [1; 9; 4]%nat
      = Ok (game_maze game').
Proof.
  assert (0 <= level sample_game) as Hl by (vm_compute; discriminate).
  split; [exact Hl|].
  exact (load_saved_game sample_game (3 # 1) [1; 9; 4]%nat Hl).
Defined.

(** X25: a save file whose level is -4 or less cannot be loaded: the
    maze of that level has a side of 1 or less, the generator raises, and
    [load_game] answers [None]. *)
Theorem load_game_bad_level data now rs :
  saved_level data <= -4 → load_game (Some data) now rs = None.
Proof.
  intros Hl. unfold load_game, MazeGame_init, _generate_new_maze. cbn [level].
  rewrite generate_run_small; [done|]. unfold base_size. lia.
Qed.

Lemma load_game_bad_level_witness :
  saved_level (mkSave (-4) 3 250 [250]) <= -4 ∧
  load_game (Some (mkSave (-4) 3 250 [250])) (2 # 1) [5]%nat = None.
Proof.
  assert (saved_level (mkSave (-4) 3 250 [250]) <= -4) as Hl
    by (vm_compute; discriminate).
  split; [exact Hl|].
  exact (load_game_bad_level (mkSave (-4) 3 250 [250]) (2 # 1) [5]%nat Hl).
Defined.

(** ** The sound manager *)

(** X26: the manager is switched on only by its constructor: over any
    run of [play] calls, a manager that is off stays off, asks the beeper
    for nothing and leaves it untouched; and a manager that is on at the
    end was on at the start. *)
Theorem sound_stays_off sm sound_types dev sm' asked dev' :
  play_all sm sound_types dev = (sm', asked, dev') →
  (enabled sm = false → sm' = sm ∧ asked = [] ∧ dev' = dev) ∧
  (enabled sm' = true → enabled sm = true).
Proof.
  intros Hrun. split.
  - intros Hoff. rewrite play_all_disabled in Hrun by done. by simplify_eq.
  - intros Hon. by destruct (play_all_latch _ _ _ _ _ _ Hrun Hon).
Qed.

Lemma sound_stays_off_witness :
  ∃ sm' asked dev',
    play_all (mkSound true) ["move"; "wall"; "win"]%string [false; true] =
      (sm', asked, dev') ∧
    (enabled (mkSound true) = false →
     sm' = mkSound true ∧ asked = [] ∧ dev' = [false; true]) ∧
    (enabled sm' = true → enabled (mkSound true) = true).
Proof.
  destruct (play_all (mkSound true) ["move"; "wall"; "win"]%string [false; true])
    as [[sm' asked] dev'] eqn:Hrun.
  exists sm', asked, dev'. split; [reflexivity|].
  exact (sound_stays_off (mkSound true) ["move"; "wall"; "win"]%string
           [false; true] sm' asked dev' Hrun).
Defined.

(** X27: one [play] call of a manager that is on asks the beeper for
    every tone of the entry of the table, one for [move], [wall] and any
    unknown sound type and three for [win], also when an earlier tone of
    the melody has raised; the manager is off afterwards exactly when one
    of these calls raised. *)
Theorem play_asks_all_tones sm sound_type dev :
  enabled sm = true →
  play sm sound_type dev =
    (if existsb id (take (length (tone_list (freq_duration sound_type))) dev)
     then mkSound false else sm,
     tone_list (freq_duration sound_type),
     drop (length (tone_list (freq_duration sound_type))) dev) ∧
  (length (tone_list (freq_duration sound_type)) = 1%nat ∨
   (sound_type = "win"%string ∧
    length (tone_list (freq_duration sound_type)) = 3%nat)).
Proof.
  intros Hon. split; [by apply play_spec|].
  unfold freq_duration.
  destruct (String.eqb_spec sound_type "move"); [by left|].
  destruct (String.eqb_spec sound_type "wall"); [by left|].
  destruct (String.eqb_spec sound_type "win"); [by right|by left].
Qed.

Lemma play_asks_all_tones_witness :
  enabled (mkSound true) = true ∧
  play (mkSound true) "win" [true; false] =
    (if existsb id (take (length (tone_list (freq_duration "win"))) [true; false])
     then mkSound false else mkSound true,
     tone_list (freq_duration "win"),
     drop (length (tone_list (freq_duration "win"))) [true; false]) ∧
  (length (tone_list (freq_duration "win")) = 1%nat ∨
   ("win"%string = "win"%string ∧
    length (tone_list (freq_duration "win")) = 3%nat)).
Proof.
  split; [reflexivity|].
  exact (play_asks_all_tones (mkSound true) "win" [true; false] eq_refl).
Defined.
